(** * whispaholics: the streaming session pipeline, embedded in Rocq

    A shallow embedding of the Python sources
    - [text_inserter.py]   (class [TextInserter]),
    - [websocket_client.py] (class [WebSocketClient]),
    - [speech_recognition_app.py] (the send loop, the drain loop, the
      hotkey listener, starting and stopping a session),
    - [audio_recorder.py] (class [AudioRecorder]),
    followed by the properties of the specification that concern them and
    by further properties of the code.

    Conventions.
    - A Python [str] is a list of Unicode code points ([N]); [py "..."]
      turns a literal into such a list.
    - A Python [bytes] object is a [list byte].
    - Python [int]s are [Z]; JSON numbers are rationals; wall-clock
      readings ([time.time()]) are integers counting milliseconds.
    - Mutable objects are records passed explicitly; the keyboard
      controller is the chronological log of the characters it was asked
      to type. *)

From Stdlib Require Import Strings.String Strings.Ascii Strings.Byte.
From Stdlib Require Import List ZArith NArith QArith Bool Lia.
Close Scope Q_scope.
Import ListNotations.


(** ** Python strings *)

Module PyStr.

Definition char := N.
Definition str := list char.

(** A string literal, one code point per character of the literal. *)
Definition py (s : string) : str :=
  List.map N_of_ascii (list_ascii_of_string s).
Arguments py s%_string.

Definition SPACE : char := 32%N.

(** [str.isspace] on one code point (CPython's [_PyUnicode_IsWhitespace]). *)
Definition isspace (c : char) : bool :=
  ((9 <=? c) && (c <=? 13) || (28 <=? c) && (c <=? 32)
   || (c =? 133) || (c =? 160) || (c =? 5760)
   || (8192 <=? c) && (c <=? 8202)
   || (c =? 8232) || (c =? 8233) || (c =? 8239) || (c =? 8287)
   || (c =? 12288))%N.

Definition is_sp (c : char) : bool := (c =? SPACE)%N.

(** Truthiness of a string: non-empty. *)
Definition nonempty (s : str) : bool :=
  match s with [] => false | _ :: _ => true end.

(** [a == b] *)
Fixpoint str_eqb (a b : str) : bool :=
  match a, b with
  | [], [] => true
  | x :: a', y :: b' => (x =? y)%N && str_eqb a' b'
  | _, _ => false
  end.

(** [s.startswith(p)] *)
Fixpoint startswith (s p : str) : bool :=
  match p, s with
  | [], _ => true
  | y :: p', x :: s' => (x =? y)%N && startswith s' p'
  | _ :: _, [] => false
  end.

(** [s.endswith(p)] *)
Definition endswith (s p : str) : bool := startswith (rev s) (rev p).

(** [s.lstrip()] *)
Fixpoint lstrip (s : str) : str :=
  match s with
  | [] => []
  | c :: s' => if isspace c then lstrip s' else s
  end.

(** [s.rstrip()]: the trailing whitespace run is removed. *)
Fixpoint rstrip (s : str) : str :=
  match s with
  | [] => []
  | c :: s' =>
      match rstrip s' with
      | [] => if isspace c then [] else [c]
      | r => c :: r
      end
  end.

(** [s.strip()] *)
Definition strip (s : str) : str := lstrip (rstrip s).

(** [s.split()]: maximal runs of non-whitespace characters.  [cur] is the
    word being read, most recent character first. *)
Fixpoint split_from (cur : str) (s : str) : list str :=
  match s with
  | [] => match cur with [] => [] | _ => [rev cur] end
  | c :: s' =>
      if isspace c
      then match cur with
           | [] => split_from [] s'
           | _ => rev cur :: split_from [] s'
           end
      else split_from (c :: cur) s'
  end.

Definition split (s : str) : list str := split_from [] s.

(** [sep.join(parts)] *)
Fixpoint join (sep : str) (parts : list str) : str :=
  match parts with
  | [] => []
  | [p] => p
  | p :: rest => p ++ sep ++ join sep rest
  end.

(** [s[n:]] for [0 <= n] *)
Definition slice_from (n : nat) (s : str) : str := skipn n s.

(** ["  " in s] *)
Fixpoint has_double_space (s : str) : bool :=
  match s with
  | c :: (d :: _) as s' => is_sp c && is_sp d || has_double_space s'
  | _ => false
  end.

(** One pass of [s.replace("  ", " ")]: non-overlapping occurrences,
    leftmost first. *)
Fixpoint replace_double (s : str) : str :=
  match s with
  | c :: ((d :: s'') as s') =>
      if is_sp c && is_sp d
      then SPACE :: replace_double s''
      else c :: replace_double s'
  | _ => s
  end.

End PyStr.
Import PyStr.

(** ** text_inserter.py *)

Module TextInserterModel.

(** The object state of [TextInserter].  [controller] is the log of the
    characters handed to [keyboard.Controller.type], oldest first; the
    typing delay only spaces the key strokes in time. *)
Record TextInserter := mkInserter {
  controller : list char;
  last_typed_text : str;
  is_typing_session_active : bool
}.

Definition init : TextInserter := mkInserter [] [] false.

(** [self.controller.type(char)] *)
Definition type_char (self : TextInserter) (c : char) : TextInserter :=
  mkInserter (controller self ++ [c]) (last_typed_text self)
             (is_typing_session_active self).

Definition set_last_typed_text (self : TextInserter) (t : str) : TextInserter :=
  mkInserter (controller self) t (is_typing_session_active self).

(** [_type_text_slowly]: one [type] call per character, in order. *)
Definition _type_text_slowly (self : TextInserter) (text : str) : TextInserter :=
  fold_left type_char text self.

Definition punctuation : list str := [py "."; py "!"; py "?"; py ","].

(** [_clean_text] *)
Definition _clean_text (text : str) : str :=
  let words := split text in
  match words with
  | [] => []
  | _ =>
      let cleaned := join [SPACE] words in
      if endswith text [SPACE]
         || existsb (fun p => endswith text (p ++ [SPACE])) punctuation
      then (if negb (endswith cleaned [SPACE]) then cleaned ++ [SPACE] else cleaned)
      else cleaned
  end.

(** [insert_text] *)
Definition insert_text (self : TextInserter) (text : str) : TextInserter :=
  if negb (nonempty text) then self else
  let cleaned_text := _clean_text text in
  if negb (nonempty cleaned_text) then self else
  if str_eqb cleaned_text (last_typed_text self) then self else
  if nonempty (last_typed_text self)
     && startswith cleaned_text (rstrip (last_typed_text self))
  then
    let new_part :=
      slice_from (length (rstrip (last_typed_text self))) cleaned_text in
    if nonempty (strip new_part)
    then set_last_typed_text (_type_text_slowly self new_part) cleaned_text
    else self
  else set_last_typed_text (_type_text_slowly self cleaned_text) cleaned_text.

(** [start_typing_session] *)
Definition start_typing_session (self : TextInserter) : TextInserter :=
  mkInserter (controller self) [] true.

(** [end_typing_session] *)
Definition end_typing_session (self : TextInserter) : TextInserter :=
  mkInserter (controller self) (last_typed_text self) false.

(** The characters typed between two states of the same inserter. *)
Definition typed_since (before after : TextInserter) : str :=
  skipn (length (controller before)) (controller after).

End TextInserterModel.
Import TextInserterModel.

(** ** text_inserter.py: the reconciler *)

(** The reconciler as the specification words it, on a given stable text:
    no-op when the text is empty or equal to what was typed last; the
    suffix beyond the right-trimmed old value when the text starts with it
    (typed when non-blank); the full text otherwise. *)
Definition apply_spec (self : TextInserter) (stableText : str) : TextInserter :=
  if negb (nonempty stableText) || str_eqb stableText (last_typed_text self)
  then self
  else if startswith stableText (rstrip (last_typed_text self))
  then
    let new_part := slice_from (length (rstrip (last_typed_text self))) stableText in
    if nonempty (strip new_part)
    then set_last_typed_text (_type_text_slowly self new_part) stableText
    else self
  else set_last_typed_text (_type_text_slowly self stableText) stableText.

(** A text in the form [_clean_text] produces from stripped input: its
    words separated by single spaces, nothing before or after. *)
Definition normalized (t : str) : Prop := join [SPACE] (split t) = t.

(** The key strokes of each call when [insert_text] is applied to the
    texts in turn. *)
Fixpoint emissions (self : TextInserter) (ts : list str) : list str :=
  match ts with
  | [] => []
  | t :: ts' =>
      let self' := insert_text self t in
      typed_since self self' :: emissions self' ts'
  end.

(** The state after applying [insert_text] to the texts in turn. *)
Definition apply_all (self : TextInserter) (ts : list str) : TextInserter :=
  fold_left insert_text ts self.

(** Each text starts with its predecessor ([prev] before the first). *)
Fixpoint prefix_chain (prev : str) (ts : list str) : Prop :=
  match ts with
  | [] => True
  | t :: ts' => startswith t prev = true /\ prefix_chain t ts'
  end.

(** The part of each text beyond its predecessor. *)
Fixpoint suffixes (prev : str) (ts : list str) : list str :=
  match ts with
  | [] => []
  | t :: ts' => slice_from (length prev) t :: suffixes t ts'
  end.

(** A string whose last character is not whitespace. *)
Definition ends_nonspace (s : str) : Prop :=
  exists s' c, s = s' ++ [c] /\ isspace c = false.

(** A word of [split]: non-empty and free of whitespace. *)
Definition word (w : str) : Prop :=
  w <> [] /\ forallb (fun c => negb (isspace c)) w = true.


(** ** Python values, exceptions and byte strings *)

Module Py.

Inductive exn :=
| AttributeError | TypeError | OverflowError | JSONDecodeError
| UnicodeDecodeError | RecursionError
| ConnectionClosed.

(** The outcome of a call: a value, or an exception raised. *)
Inductive result (A : Type) :=
| Ok (a : A)
| Raise (e : exn).
Arguments Ok {A} a.
Arguments Raise {A} e.

Definition bind {A B} (r : result A) (k : A -> result B) : result B :=
  match r with
  | Ok a => k a
  | Raise e => Raise e
  end.

Definition bytes := list byte.

(** A bytes literal [b"..."]. *)
Definition b (s : string) : bytes := list_byte_of_string s.
Arguments b s%_string.

Definition byte_of_N (n : N) : byte :=
  match Byte.of_N n with Some x => x | None => x00 end.

(** The [len] low-order base-256 digits of [n], least significant first. *)
Fixpoint le_digits (len : nat) (n : N) : bytes :=
  match len with
  | O => []
  | S len' => byte_of_N (n mod 256) :: le_digits len' (n / 256)
  end.

(** [n.to_bytes(len, 'little')] (unsigned): [OverflowError] when [n] is
    negative or too big for [len] bytes. *)
Definition to_bytes (n : Z) (len : nat) : result bytes :=
  if (n <? 0)%Z || (256 ^ Z.of_nat len <=? n)%Z
  then Raise OverflowError
  else Ok (le_digits len (Z.to_N n)).

(** [int.from_bytes(bs, 'little')] *)
Fixpoint from_bytes (bs : bytes) : Z :=
  match bs with
  | [] => 0
  | x :: bs' => Z.of_N (Byte.to_N x) + 256 * from_bytes bs'
  end.

(** [bs[i:j]] for [0 <= i <= j] *)
Definition slice (i j : nat) (bs : bytes) : bytes := firstn (j - i) (skipn i bs).

#[local] Set Warnings "-register-all".

(** Decoded JSON, as [json.loads] builds it: objects are dictionaries
    (here the list of their items), arrays are lists. *)
Inductive json :=
| JNull
| JBool (v : bool)
| JNumber (q : Q)
| JString (s : str)
| JArray (items : list json)
| JObject (fields : list (str * json)).

(** [d.get(key)], [None] when absent. *)
Fixpoint dict_get (fields : list (str * json)) (key : str) : option json :=
  match fields with
  | [] => None
  | (k, v) :: rest => if str_eqb k key then Some v else dict_get rest key
  end.

(** [d.get(key, default)] *)
Definition dict_get_default (fields : list (str * json)) (key : str)
           (default : json) : json :=
  match dict_get fields key with Some v => v | None => default end.

(** Truth value of a decoded value in an [if]. *)
Definition truthy (v : json) : bool :=
  match v with
  | JNull => false
  | JBool v => v
  | JNumber q => negb (Qeq_bool q 0)
  | JString s => nonempty s
  | JArray items => match items with [] => false | _ => true end
  | JObject fields => match fields with [] => false | _ => true end
  end.

(** [v == s] for a string literal [s]. *)
Definition equals_str (v : json) (s : str) : bool :=
  match v with JString t => str_eqb t s | _ => false end.

(** What [for x in v] iterates over: the items of a list, the keys of a
    dictionary, the characters of a string; [TypeError] otherwise. *)
Definition iterate (v : json) : result (list json) :=
  match v with
  | JArray items => Ok items
  | JObject fields => Ok (List.map (fun kv => JString (fst kv)) fields)
  | JString s => Ok (List.map (fun c => JString [c]) s)
  | _ => Raise TypeError
  end.

End Py.
Import Py.

Notation "x <- r ;; k" := (Py.bind r (fun x => k))
  (at level 61, r at next level, right associativity).

(** ** websocket_client.py *)

Module WebSocketClientModel.

(** The connection object: the frames written to it so far, and whether
    the connection still accepts writes. *)
Record Socket := mkSocket {
  wire : list bytes;
  alive : bool
}.

(** [await websocket.send(data)] *)
Definition ws_send (ws : Socket) (data : bytes) : result Socket :=
  if alive ws then Ok (mkSocket (wire ws ++ [data]) true)
  else Raise ConnectionClosed.

(** The callable installed by [set_transcription_callback]: the bound
    method [TextInserter.insert_text] (whose [__self__] has
    [end_typing_session]), or a plain function. *)
Inductive Callback := InsertTextMethod | PlainFunction.

Record WebSocketClient := mkClient {
  websocket : option Socket;
  is_connected : bool;
  transcription_callback : option Callback
}.

Definition set_websocket (self : WebSocketClient) (ws : option Socket) :=
  mkClient ws (is_connected self) (transcription_callback self).
Definition set_is_connected (self : WebSocketClient) (v : bool) :=
  mkClient (websocket self) v (transcription_callback self).

(** [set_transcription_callback] *)
Definition set_transcription_callback (self : WebSocketClient) (cb : Callback) :=
  mkClient (websocket self) (is_connected self) (Some cb).

(** [disconnect] *)
Definition disconnect (self : WebSocketClient) : WebSocketClient :=
  set_is_connected (set_websocket self None) false.

(** [send_audio]: the new state of the client and how the call ends. *)
Definition send_audio (self : WebSocketClient) (audio_data : bytes)
  : WebSocketClient * result unit :=
  match websocket self with
  | Some ws =>
      if is_connected self then
        match ws_send ws audio_data with
        | Ok ws' => (set_websocket self (Some ws'), Ok tt)
        | Raise e => (set_is_connected self false, Raise e)
        end
      else (self, Ok tt)
  | None => (self, Ok tt)
  end.

(** [send_stop_signal]: a failure is logged, not raised. *)
Definition send_stop_signal (self : WebSocketClient) : WebSocketClient :=
  match websocket self with
  | Some ws =>
      if is_connected self then
        match ws_send ws [] with
        | Ok ws' => set_websocket self (Some ws')
        | Raise _ => self
        end
      else self
  | None => self
  end.

(** The body of the [for line in lines] loop of [_extract_transcription]. *)
Fixpoint collect_parts (lines : list json) (stable_text_parts : list str)
  : result (list str) :=
  match lines with
  | [] => Ok stable_text_parts
  | line :: rest =>
      match line with
      | JObject fields =>
          match dict_get fields (py "text") with
          | Some v =>
              if truthy v then
                match v with
                | JString text =>
                    collect_parts rest (stable_text_parts ++ [strip text])
                | _ => Raise AttributeError
                end
              else collect_parts rest stable_text_parts
          | None => collect_parts rest stable_text_parts
          end
      | _ => Raise AttributeError
      end
  end.

(** [while "  " in result: result = result.replace("  ", " ")], at most
    [fuel] rounds. *)
Fixpoint collapse_spaces (fuel : nat) (result : str) : str :=
  match fuel with
  | O => result
  | S fuel' =>
      if has_double_space result
      then collapse_spaces fuel' (replace_double result)
      else result
  end.

(** [_extract_transcription]; every round of its loop shortens the
    string, so its length bounds the number of rounds. *)
Definition _extract_transcription (data : json) : result str :=
  match data with
  | JObject fields =>
      lines <- iterate (dict_get_default fields (py "lines") (JArray [])) ;;
      stable_text_parts <- collect_parts lines [] ;;
      let result :=
        match stable_text_parts with
        | [] => []
        | _ => strip (join [SPACE] stable_text_parts)
        end in
      Ok (collapse_spaces (length result) result)
  | _ => Raise AttributeError
  end.

(** The objects a message handler works on. *)
Record Session := mkSession {
  client : WebSocketClient;
  text_inserter : TextInserter
}.

Definition set_client (s : Session) (c : WebSocketClient) : Session :=
  mkSession c (text_inserter s).
Definition set_text_inserter (s : Session) (t : TextInserter) : Session :=
  mkSession (client s) t.

(** [self.transcription_callback(text)] *)
Definition call_callback (cb : Callback) (s : Session) (text : str) : Session :=
  match cb with
  | InsertTextMethod => set_text_inserter s (insert_text (text_inserter s) text)
  | PlainFunction => s
  end.

(** [hasattr(cb, '__self__') and hasattr(cb.__self__, 'end_typing_session')] *)
Definition owner_ends_session (cb : Callback) : bool :=
  match cb with InsertTextMethod => true | PlainFunction => false end.

(** [_handle_message] *)
Definition _handle_message (s : Session) (data : json) : result Session :=
  match data with
  | JObject fields =>
      let message_type := dict_get_default fields (py "type") (JString []) in
      if equals_str message_type (py "ready_to_stop") then
        match transcription_callback (client s) with
        | Some cb =>
            final_text <- _extract_transcription data ;;
            if nonempty (strip final_text) then
              let s := call_callback cb s final_text in
              if owner_ends_session cb
              then Ok (set_text_inserter s (end_typing_session (text_inserter s)))
              else Ok s
            else Ok s
        | None => Ok s
        end
      else
        match transcription_callback (client s) with
        | Some cb =>
            transcription <- _extract_transcription data ;;
            if nonempty (strip transcription)
            then Ok (call_callback cb s transcription)
            else Ok s
        | None => Ok s
        end
  | _ => Raise AttributeError
  end.

(** An inbound frame, by what [json.loads] makes of it: text that is not
    JSON, a binary frame that is not valid UTF-8, JSON nested deeper than
    the recursion limit, or a frame that decodes to a value. *)
Inductive Message :=
| Malformed
| BadEncoding
| TooDeep
| WellFormed (data : json).

(** [json.loads(message)]: [JSONDecodeError] for text that is not JSON,
    [UnicodeDecodeError] for bytes that cannot be decoded and
    [RecursionError] for too deep a nesting; the last two are not
    [JSONDecodeError]s. *)
Definition json_loads (message : Message) : result json :=
  match message with
  | Malformed => Raise JSONDecodeError
  | BadEncoding => Raise UnicodeDecodeError
  | TooDeep => Raise RecursionError
  | WellFormed data => Ok data
  end.

(** How the asynchronous iteration over the socket ends once the
    messages are used up: the peer closed the connection, or the
    connection broke and the iteration raises. *)
Inductive Closure := PeerClosed | ConnectionBroken.

(** The [async for message in self.websocket] loop: the session as it is
    when the loop is left, and the exception that ended it, if any. *)
Fixpoint receive_loop (s : Session) (messages : list Message) (closure : Closure)
  : Session * option exn :=
  match messages with
  | [] =>
      match closure with
      | PeerClosed => (s, None)
      | ConnectionBroken => (s, Some ConnectionClosed)
      end
  | message :: rest =>
      match json_loads message with
      | Raise e => (s, Some e)
      | Ok data =>
          match _handle_message s data with
          | Raise e => (s, Some e)
          | Ok s' => receive_loop s' rest closure
          end
      end
  end.

(** [listen_for_messages]: the session afterwards and the error it
    logged, if any. *)
Definition listen_for_messages (s : Session) (messages : list Message)
           (closure : Closure) : Session * option exn :=
  match websocket (client s) with
  | None => (s, None)
  | Some _ =>
      match receive_loop s messages closure with
      | (s', None) => (s', None)
      | (s', Some JSONDecodeError) => (s', Some JSONDecodeError)
      | (s', Some e) => (set_client s' (set_is_connected (client s') false), Some e)
      end
  end.

(** [create_wav_header] *)
Definition create_wav_header (sample_rate channels sample_width : Z)
  : result bytes :=
  let output : bytes := [] in
  let byte_rate := (sample_rate * channels * sample_width)%Z in
  let block_align := (channels * sample_width)%Z in
  let output := output ++ b "RIFF" in
  size <- to_bytes 0xFFFFFFFF 4 ;;
  let output := output ++ size in
  let output := output ++ b "WAVE" in
  let output := output ++ b "fmt " in
  chunk_size <- to_bytes 16 4 ;;
  let output := output ++ chunk_size in
  pcm <- to_bytes 1 2 ;;
  let output := output ++ pcm in
  ch <- to_bytes channels 2 ;;
  let output := output ++ ch in
  sr <- to_bytes sample_rate 4 ;;
  let output := output ++ sr in
  br <- to_bytes byte_rate 4 ;;
  let output := output ++ br in
  ba <- to_bytes block_align 2 ;;
  let output := output ++ ba in
  bits <- to_bytes (sample_width * 8) 2 ;;
  let output := output ++ bits in
  let output := output ++ b "data" in
  data_size <- to_bytes 0xFFFFFFFF 4 ;;
  let output := output ++ data_size in
  Ok output.

(** The fields of a 44-byte RIFF/WAVE header, read back from its bytes
    (integers little-endian). *)
Record WavFields := mkWavFields {
  riff_tag : bytes;          (* bytes 0..3 *)
  riff_size : Z;             (* bytes 4..7 *)
  wave_tag : bytes;          (* bytes 8..11 *)
  fmt_tag : bytes;           (* bytes 12..15 *)
  fmt_chunk_size : Z;        (* bytes 16..19 *)
  audio_format : Z;          (* bytes 20..21 *)
  num_channels : Z;          (* bytes 22..23 *)
  sampling_rate : Z;         (* bytes 24..27 *)
  bytes_per_second : Z;      (* bytes 28..31 *)
  bytes_per_block : Z;       (* bytes 32..33 *)
  bits_per_sample : Z;       (* bytes 34..35 *)
  data_tag : bytes;          (* bytes 36..39 *)
  data_size : Z              (* bytes 40..43 *)
}.

Definition parse_header (h : bytes) : WavFields :=
  mkWavFields
    (slice 0 4 h) (from_bytes (slice 4 8 h)) (slice 8 12 h) (slice 12 16 h)
    (from_bytes (slice 16 20 h)) (from_bytes (slice 20 22 h))
    (from_bytes (slice 22 24 h)) (from_bytes (slice 24 28 h))
    (from_bytes (slice 28 32 h)) (from_bytes (slice 32 34 h))
    (from_bytes (slice 34 36 h)) (slice 36 40 h) (from_bytes (slice 40 44 h)).

(** The arguments for which every field of the header fits its width. *)
Definition header_params_fit (sample_rate channels sample_width : Z) : Prop :=
  (0 <= channels < 2 ^ 16
   /\ 0 <= sample_rate < 2 ^ 32
   /\ 0 <= sample_rate * channels * sample_width < 2 ^ 32
   /\ 0 <= channels * sample_width < 2 ^ 16
   /\ 0 <= sample_width * 8 < 2 ^ 16)%Z.

End WebSocketClientModel.
Import WebSocketClientModel.

(** ** The transcript extraction rule, as the specification words it *)

(** Does the string begin with a space? *)
Definition head_is_space (s : str) : bool :=
  match s with
  | c :: _ => is_sp c
  | [] => false
  end.

(** Every run of two or more spaces collapsed into one: a space that is
    followed by a space is dropped. *)
Fixpoint squeeze (s : str) : str :=
  match s with
  | [] => []
  | c :: s' => if is_sp c && head_is_space s' then squeeze s' else c :: squeeze s'
  end.

(** The "text" of a line, when it is a string. *)
Definition line_text (line : json) : option str :=
  match line with
  | JObject fields =>
      match dict_get fields (py "text") with
      | Some (JString s) => Some s
      | _ => None
      end
  | _ => None
  end.

(** The texts of the lines that have a non-empty text. *)
Definition stable_texts (lines : list json) : list str :=
  flat_map (fun line =>
              match line_text line with
              | Some s => if nonempty s then [s] else []
              | None => []
              end) lines.

(** A line as the wire format describes it: an object whose "text", when
    present, is a string (or a value that counts as false). *)
Definition line_ok (line : json) : bool :=
  match line with
  | JObject fields =>
      match dict_get fields (py "text") with
      | Some (JString _) | None => true
      | Some v => negb (truthy v)
      end
  | _ => false
  end.

(** The rule of the specification: collect, join with one space, collapse
    the runs of spaces, trim. *)
Definition extract_spec (lines : list json) : str :=
  strip (squeeze (join [SPACE] (stable_texts lines))).

(** The same rule with every collected text trimmed first. *)
Definition extract_trimmed_spec (lines : list json) : str :=
  strip (squeeze (join [SPACE] (List.map strip (stable_texts lines)))).

(** A message of the wire format: an optional "type" and the "lines". *)
Definition message (type : option str) (texts : list str) : json :=
  JObject
    (match type with Some t => [(py "type", JString t)] | None => [] end
     ++ [(py "lines",
          JArray (List.map (fun t => JObject [(py "text", JString t)]) texts))]).

(** A started session whose callback is the inserter's [insert_text]. *)
Definition live_session : Session :=
  mkSession (mkClient (Some (mkSocket [] true)) true (Some InsertTextMethod))
            (start_typing_session init).

(** ** speech_recognition_app.py *)

Module AppModel.

(** The configuration values the session loops read.  [sample_width] is
    what [get_sample_size(config.audio_format)] returns; durations are in
    milliseconds. *)
Record Config := mkConfig {
  rate : Z;
  channels : Z;
  sample_width : Z;
  max_wait_time : Z
}.

(** What the rest of the program did to the connection while the send
    loop was suspended: nothing, the peer went away, or the listener
    cleared [is_connected] after an error. *)
Inductive LinkEvent := Steady | PeerGone | ListenerGaveUp.

Definition apply_link (ev : LinkEvent) (c : WebSocketClient) : WebSocketClient :=
  match ev with
  | Steady => c
  | PeerGone =>
      set_websocket c (option_map (fun ws => mkSocket (wire ws) false) (websocket c))
  | ListenerGaveUp => set_is_connected c false
  end.

(** One iteration of the send loop, as its surroundings determine it:
    the state of the link, what [get_audio_chunk] returns and what
    [time.time()] reads. *)
Record Tick := mkTick {
  link : LinkEvent;
  audio : option bytes;
  clock : Z
}.

(** A frame that reached the socket, by the statement that sent it. *)
Inductive Sent :=
| HeaderFrame (data : bytes)
| PcmFrame (data : bytes).

Definition is_header (f : Sent) : bool :=
  match f with HeaderFrame _ => true | PcmFrame _ => false end.

(** The local variables of [_stream_audio], the client it sends through,
    and the frames it has put on the socket. *)
Record Stream := mkStream {
  accumulated_audio : bytes;
  last_send_time : Z;
  wav_header_sent : bool;
  ws_client : WebSocketClient;
  sent : list Sent
}.

(** Would a [send_audio] write to the socket? *)
Definition can_send (c : WebSocketClient) : bool :=
  match websocket c with
  | Some ws => is_connected c && alive ws
  | None => false
  end.

(** [await self.websocket_client.send_audio(data)] from the send loop;
    [mk] names the calling statement. *)
Definition task_send (mk : bytes -> Sent) (st : Stream) (data : bytes)
  : Stream * result unit :=
  let (c, r) := send_audio (ws_client st) data in
  (mkStream (accumulated_audio st) (last_send_time st) (wav_header_sent st) c
            (if can_send (ws_client st) then sent st ++ [mk data] else sent st),
   r).

Definition nonempty_bytes (bs : bytes) : bool :=
  match bs with [] => false | _ => true end.

(** The [if not wav_header_sent:] block. *)
Definition send_header (cfg : Config) (st : Stream) : Stream * option exn :=
  match create_wav_header (rate cfg) (channels cfg) (sample_width cfg) with
  | Raise e => (st, Some e)
  | Ok wav_header =>
      match task_send HeaderFrame st wav_header with
      | (st', Raise e) => (st', Some e)
      | (st', Ok _) =>
          (mkStream (accumulated_audio st') (last_send_time st') true
                    (ws_client st') (sent st'), None)
      end
  end.

(** One pass through the body of [while self.is_recording]. *)
Definition iteration (cfg : Config) (st : Stream) (tk : Tick)
  : Stream * option exn :=
  let st := mkStream (accumulated_audio st) (last_send_time st)
                     (wav_header_sent st)
                     (apply_link (link tk) (ws_client st)) (sent st) in
  match audio tk with
  | Some audio_data =>
      if nonempty_bytes audio_data then
        let st := mkStream (accumulated_audio st ++ audio_data)
                           (last_send_time st) (wav_header_sent st)
                           (ws_client st) (sent st) in
        let current_time := clock tk in
        if (1000 <=? current_time - last_send_time st)%Z then
          if nonempty_bytes (accumulated_audio st) then
            match (if negb (wav_header_sent st) then send_header cfg st
                   else (st, None)) with
            | (st, Some e) => (st, Some e)
            | (st, None) =>
                match task_send PcmFrame st (accumulated_audio st) with
                | (st, Raise e) => (st, Some e)
                | (st, Ok _) =>
                    (mkStream [] current_time (wav_header_sent st)
                              (ws_client st) (sent st), None)
                end
            end
          else (st, None)
        else (st, None)
      else (st, None)
  | None => (st, None)
  end.

(** The iterations made while [is_recording] holds; an exception ends
    the task. *)
Fixpoint stream_loop (cfg : Config) (st : Stream) (ticks : list Tick)
  : Stream * option exn :=
  match ticks with
  | [] => (st, None)
  | tk :: rest =>
      match iteration cfg st tk with
      | (st', Some e) => (st', Some e)
      | (st', None) => stream_loop cfg st' rest
      end
  end.

(** How the loop is left: [is_recording] is found false at the loop
    test, or the task is cancelled while it sleeps. *)
Inductive Ending := RecordingStopped | TaskCancelled.

(** [_stream_audio] *)
Definition _stream_audio (cfg : Config) (c : WebSocketClient) (start_time : Z)
           (ticks : list Tick) (ending : Ending) : Stream * option exn :=
  match stream_loop cfg (mkStream [] start_time false c []) ticks with
  | (st, Some e) => (st, Some e)
  | (st, None) =>
      match ending with
      | TaskCancelled => (st, None)
      | RecordingStopped =>
          if nonempty_bytes (accumulated_audio st) then
            match task_send PcmFrame st (accumulated_audio st) with
            | (st', Raise e) => (st', Some e)
            | (st', Ok _) => (st', None)
            end
          else (st, None)
      end
  end.

(** One turn of the drain loop of [_stop_recording]: when
    [asyncio.sleep(0.1)] returned, which is also what the next
    [time.time()] reads, and [is_typing_session_active] at that moment. *)
Record Poll := mkPoll {
  woke_at : Z;
  session_active : bool
}.

(** How the drain loop ends, after how many sleeps and at what clock
    reading; [StillWaiting] when the polls given are used up. *)
Inductive DrainEnd :=
| TimedOut (sleeps : nat) (now : Z)
| StoppedEarly (sleeps : nat) (now : Z)
| StillWaiting.

(** [while time.time() - wait_start_time < max_wait_time: ...] *)
Fixpoint drain_loop (max_wait wait_start_time : Z) (sleeps : nat) (now : Z)
         (polls : list Poll) : DrainEnd :=
  if (now - wait_start_time <? max_wait)%Z then
    match polls with
    | [] => StillWaiting
    | p :: rest =>
        if negb (session_active p) then StoppedEarly (S sleeps) (woke_at p)
        else drain_loop max_wait wait_start_time (S sleeps) (woke_at p) rest
    end
  else TimedOut sleeps now.

(** The drain phase of [_stop_recording], begun at [wait_start_time]. *)
Definition drain (cfg : Config) (wait_start_time : Z) (polls : list Poll)
  : DrainEnd :=
  drain_loop (max_wait_time cfg) wait_start_time 0 wait_start_time polls.

(** The clock reading after [k] sleeps. *)
Fixpoint reading (now : Z) (polls : list Poll) (k : nat) {struct k} : Z :=
  match k, polls with
  | S k', p :: rest => reading (woke_at p) rest k'
  | _, _ => now
  end.

(** Every sleep lasts at least [d] milliseconds. *)
Fixpoint sleeps_last (d now : Z) (polls : list Poll) : Prop :=
  match polls with
  | [] => True
  | p :: rest => (now + d <= woke_at p)%Z /\ sleeps_last d (woke_at p) rest
  end.

Definition count_headers (frames : list Sent) : nat :=
  length (filter is_header frames).

(** Does the iteration reach the flush: [get_audio_chunk] returned audio
    and at least a second has passed since [since]? *)
Definition flush_due (since : Z) (tk : Tick) : bool :=
  match audio tk with
  | Some audio_data =>
      nonempty_bytes audio_data && (1000 <=? clock tk - since)%Z
  | None => false
  end.

(** No iteration reaches the flush while [last_send_time] is [since]. *)
Definition no_flush_due (since : Z) (ticks : list Tick) : bool :=
  forallb (fun tk => negb (flush_due since tk)) ticks.

(** The client as the link events of the iterations leave it. *)
Definition link_after (c : WebSocketClient) (ticks : list Tick)
  : WebSocketClient :=
  fold_left (fun c tk => apply_link (link tk) c) ticks c.

(** The audio that [get_audio_chunk] handed to the send loop. *)
Definition captured (ticks : list Tick) : bytes :=
  flat_map (fun tk => match audio tk with Some data => data | None => [] end)
           ticks.

Definition the_header (cfg : Config) : result bytes :=
  create_wav_header (rate cfg) (channels cfg) (sample_width cfg).

(** What holds of the send loop's state between iterations: nothing has
    been sent (and if the header was attempted, the client cannot send
    any more), or the header went out first and only payload followed. *)
Definition loop_invariant (cfg : Config) (st : Stream) : Prop :=
  (sent st = []
   /\ (wav_header_sent st = true -> can_send (ws_client st) = false))
  \/ (wav_header_sent st = true
      /\ exists h payloads,
           the_header cfg = Ok h
           /\ sent st = HeaderFrame h :: List.map PcmFrame payloads).

End AppModel.
Import AppModel.

(** ** Auxiliary notions for the further properties *)

(** Key strokes are only added between two states of a session. *)
Definition log_extends (before after : Session) : Prop :=
  exists typed,
    controller (text_inserter after) = controller (text_inserter before) ++ typed.

(** Is the decoded message the terminal one, as [_handle_message] tests
    it? *)
Definition is_terminal (data : json) : bool :=
  match data with
  | JObject fields =>
      equals_str (dict_get_default fields (py "type") (JString []))
                 (py "ready_to_stop")
  | _ => false
  end.

(** The frames written so far to the socket of a client. *)
Definition wire_of (c : WebSocketClient) : list bytes :=
  match websocket c with
  | Some ws => wire ws
  | None => []
  end.

(** The bytes of a frame put on the socket. *)
Definition frame_bytes (f : Sent) : bytes :=
  match f with HeaderFrame data => data | PcmFrame data => data end.

(** The audio carried by the payload frames, in the order sent. *)
Definition pcm_payload (frames : list Sent) : bytes :=
  flat_map (fun f => match f with PcmFrame data => data | HeaderFrame _ => [] end)
           frames.


(** The only whitespace in the string is the space character. *)
Definition only_spaces (s : str) : bool :=
  forallb (fun c => negb (isspace c) || is_sp c) s.

(** An update message and the text extracted from it: not terminal, and
    its text is not empty and has no whitespace but spaces. *)
Definition update_with_text (data : json) (text : str) : Prop :=
  is_terminal data = false
  /\ _extract_transcription data = Ok text
  /\ text <> []
  /\ only_spaces text = true.

(** ** audio_recorder.py *)

Module AudioRecorderModel.

(** The recorder: its flag, whether a capture stream is held, and the
    queue between the audio callback and the send loop (oldest chunk
    first). *)
Record AudioRecorder := mkRecorder {
  is_recording : bool;
  stream : bool;
  audio_queue : list bytes
}.

(** [AudioRecorder.__init__] *)
Definition new_recorder : AudioRecorder := mkRecorder false false [].

(** What the audio device does when a stream is requested: it opens and
    starts, [audio.open] raises, or [stream.start_stream] raises. *)
Inductive Device := DeviceStarts | OpenRaises | StartRaises.

Inductive DeviceError := OpenError | StartError.

(** [start_recording] *)
Definition start_recording (self : AudioRecorder) (device : Device)
  : AudioRecorder * option DeviceError :=
  if is_recording self then (self, None)
  else
    match device with
    | OpenRaises => (self, Some OpenError)
    | StartRaises => (mkRecorder (is_recording self) true (audio_queue self),
                      Some StartError)
    | DeviceStarts => (mkRecorder true true (audio_queue self), None)
    end.

(** [stop_recording] *)
Definition stop_recording (self : AudioRecorder) : AudioRecorder :=
  if negb (is_recording self) then self
  else mkRecorder false false (audio_queue self).

(** [_audio_callback], run by the audio thread for each captured chunk. *)
Definition _audio_callback (self : AudioRecorder) (in_data : bytes) : AudioRecorder :=
  if is_recording self
  then mkRecorder (is_recording self) (stream self) (audio_queue self ++ [in_data])
  else self.

(** [get_audio_chunk] *)
Definition get_audio_chunk (self : AudioRecorder) : AudioRecorder * option bytes :=
  match audio_queue self with
  | [] => (self, None)
  | chunk :: rest => (mkRecorder (is_recording self) (stream self) rest, Some chunk)
  end.

(** [cleanup] *)
Definition cleanup (self : AudioRecorder) : AudioRecorder := stop_recording self.

(** What happens to a recorder, in the order the queue's lock serialises
    it. *)
Inductive Event :=
| Start (device : Device)
| Stop
| Captured (in_data : bytes)
| GetChunk.

(** The recorder after the events, and what the polls returned. *)
Fixpoint run (self : AudioRecorder) (events : list Event)
  : AudioRecorder * list (option bytes) :=
  match events with
  | [] => (self, [])
  | Start device :: rest => run (fst (start_recording self device)) rest
  | Stop :: rest => run (stop_recording self) rest
  | Captured in_data :: rest => run (_audio_callback self in_data) rest
  | GetChunk :: rest =>
      let (self', chunk) := get_audio_chunk self in
      let (self'', polled) := run self' rest in
      (self'', chunk :: polled)
  end.

(** Read off the events alone: is the recorder recording after them, and
    which chunks were captured while it was. *)
Fixpoint recording_after (recording : bool) (events : list Event) : bool :=
  match events with
  | [] => recording
  | Start DeviceStarts :: rest => recording_after true rest
  | Stop :: rest => recording_after false rest
  | _ :: rest => recording_after recording rest
  end.

Fixpoint accepted (recording : bool) (events : list Event) : list bytes :=
  match events with
  | [] => []
  | Start DeviceStarts :: rest => accepted true rest
  | Stop :: rest => accepted false rest
  | Captured in_data :: rest =>
      (if recording then [in_data] else []) ++ accepted recording rest
  | _ :: rest => accepted recording rest
  end.

(** The chunks among the results of the polls. *)
Definition chunks (polled : list (option bytes)) : list bytes :=
  flat_map (fun r => match r with Some chunk => [chunk] | None => [] end) polled.

(** The events that begin or end a session. *)
Definition lifecycle (ev : Event) : Prop :=
  match ev with
  | Start _ | Stop => True
  | _ => False
  end.

End AudioRecorderModel.
Import AudioRecorderModel.

(** ** speech_recognition_app.py: the hotkey listener *)

Module HotkeyModel.

(** Keys are identified by a number. *)
Definition Key := N.

(** The part of the application the keyboard listener works on: the keys
    held down, the time of the last accepted hotkey, and the times at
    which a toggle was submitted to the event loop. *)
Record Hotkeys := mkHotkeys {
  hotkey_pressed : list Key;
  last_hotkey_time : Z;
  submitted : list Z
}.

Definition key_in (k : Key) (keys : list Key) : bool :=
  existsb (fun k' => (k' =? k)%N) keys.

(** [set.add] *)
Definition set_add (k : Key) (keys : list Key) : list Key :=
  if key_in k keys then keys else k :: keys.

(** [set.discard] *)
Definition set_discard (k : Key) (keys : list Key) : list Key :=
  filter (fun k' => negb (k' =? k)%N) keys.

(** [pressed >= hotkey]: every key of the hotkey is held. *)
Definition superset (pressed hotkey : list Key) : bool :=
  forallb (fun k => key_in k pressed) hotkey.

(** [_on_key_press]; [loop_open] tells whether the event loop exists and
    is not closed, [current_time] is what [time.time()] reads. *)
Definition _on_key_press (hotkey : list Key) (hotkey_cooldown : Z)
           (self : Hotkeys) (key : Key) (current_time : Z) (loop_open : bool)
  : Hotkeys :=
  let pressed := set_add key (hotkey_pressed self) in
  if superset pressed hotkey then
    if (current_time - last_hotkey_time self <? hotkey_cooldown)%Z
    then mkHotkeys pressed (last_hotkey_time self) (submitted self)
    else mkHotkeys pressed current_time
                   (if loop_open then submitted self ++ [current_time]
                    else submitted self)
  else mkHotkeys pressed (last_hotkey_time self) (submitted self).

(** [_on_key_release] *)
Definition _on_key_release (self : Hotkeys) (key : Key) : Hotkeys :=
  mkHotkeys (set_discard key (hotkey_pressed self)) (last_hotkey_time self)
            (submitted self).

Inductive KeyEvent :=
| Press (key : Key) (current_time : Z) (loop_open : bool)
| Release (key : Key).

Definition on_event (hotkey : list Key) (hotkey_cooldown : Z)
           (self : Hotkeys) (ev : KeyEvent) : Hotkeys :=
  match ev with
  | Press key current_time loop_open =>
      _on_key_press hotkey hotkey_cooldown self key current_time loop_open
  | Release key => _on_key_release self key
  end.

(** The listener's state after a sequence of key events. *)
Definition listen_keys (hotkey : list Key) (hotkey_cooldown : Z)
           (self : Hotkeys) (events : list KeyEvent) : Hotkeys :=
  fold_left (on_event hotkey hotkey_cooldown) events self.

(** Consecutive entries are at least [gap] apart. *)
Fixpoint spaced (gap : Z) (times : list Z) : Prop :=
  match times with
  | t :: ((t' :: _) as rest) => (gap <= t' - t)%Z /\ spaced gap rest
  | _ => True
  end.

(** Accepted hotkeys are spaced, and none is later than the last one
    accepted. *)
Definition hotkeys_ok (gap : Z) (self : Hotkeys) : Prop :=
  spaced gap (submitted self)
  /\ forall t, In t (submitted self) -> (t <= last_hotkey_time self)%Z.

End HotkeyModel.
Import HotkeyModel.

(** ** websocket_client.py: connecting *)

(** What [websockets.connect] under the ten-second timeout comes to. *)
Inductive ConnectAttempt :=
| Connects (ws : Socket)
| ConnectTimesOut
| ConnectRaises.

Inductive ConnectError := TimeoutError | ConnectionError.

(** [connect] *)
Definition connect (self : WebSocketClient) (attempt : ConnectAttempt)
  : WebSocketClient * option ConnectError :=
  match attempt with
  | Connects ws => (set_is_connected (set_websocket self (Some ws)) true, None)
  | ConnectTimesOut => (set_is_connected self false, Some TimeoutError)
  | ConnectRaises => (set_is_connected self false, Some ConnectionError)
  end.

(** ** speech_recognition_app.py: starting and stopping a session *)

Module SessionModel.

Inductive Task := Running | Finished.

(** The application: its recording flag, the recorder, the client and the
    inserter (the session), and the two tasks of a session.  The listen
    task is [Finished] once [listen_for_messages] has returned. *)
Record App := mkApp {
  is_recording : bool;
  recorder : AudioRecorder;
  session : Session;
  audio_task : option Task;
  listen_task : option Task
}.

(** One turn of the drain loop of [_stop_recording], as the rest of the
    program determines it: the clock reading when [asyncio.sleep(0.1)]
    returns, the messages that arrived during the sleep, and how the
    socket's iteration ended if it did. *)
Record Wake := mkWake {
  wake_clock : Z;
  arrived : list Message;
  closing : option Closure
}.

(** The listen task during one sleep: it handles what arrived as
    [listen_for_messages] does, and is still listening afterwards unless
    an error or the end of the iteration made it return. *)
Definition listener_step (s : Session) (w : Wake) : Session * bool :=
  match receive_loop s (arrived w)
                     (match closing w with Some cl => cl | None => PeerClosed end)
  with
  | (s', None) => (s', match closing w with None => true | Some _ => false end)
  | (s', Some JSONDecodeError) => (s', false)
  | (s', Some _) => (set_client s' (set_is_connected (client s') false), false)
  end.

(** The drain loop of [_stop_recording] with the listen task running
    during its sleeps. *)
Fixpoint drain_session (max_wait wait_start_time : Z) (sleeps : nat) (now : Z)
         (s : Session) (listening : bool) (wakes : list Wake)
  : DrainEnd * Session * bool :=
  if (now - wait_start_time <? max_wait)%Z then
    match wakes with
    | [] => (StillWaiting, s, listening)
    | w :: rest =>
        let (s', listening') :=
          if listening then listener_step s w else (s, false) in
        if negb (is_typing_session_active (text_inserter s'))
        then (StoppedEarly (S sleeps) (wake_clock w), s', listening')
        else drain_session max_wait wait_start_time (S sleeps) (wake_clock w)
                           s' listening' rest
    end
  else (TimedOut sleeps now, s, listening).

Definition is_listening (t : option Task) : bool :=
  match t with Some Running => true | _ => false end.

(** [_stop_recording]; [None] when the wakes given do not suffice for the
    drain loop to end. *)
Definition _stop_recording (cfg : Config) (app : App) (wait_start_time : Z)
           (wakes : list Wake) : option App :=
  if negb (is_recording app) then Some app
  else
    let recorder' := stop_recording (recorder app) in
    let s := set_client (session app) (send_stop_signal (client (session app))) in
    match drain_session (max_wait_time cfg) wait_start_time 0 wait_start_time
                        s (is_listening (listen_task app)) wakes with
    | (StillWaiting, _, _) => None
    | (_, s', _) =>
        Some (mkApp false recorder'
                    (mkSession (disconnect (client s'))
                               (end_typing_session (text_inserter s')))
                    None None)
    end.

(** [_start_recording].  The handler of its [try] calls
    [_stop_recording], for which the last two arguments stand. *)
Definition _start_recording (cfg : Config) (app : App)
           (attempt : ConnectAttempt) (device : Device)
           (wait_start_time : Z) (wakes : list Wake) : option App :=
  if is_recording app then Some app
  else
    let inserter := start_typing_session (text_inserter (session app)) in
    match connect (client (session app)) attempt with
    | (c, Some _) =>
        _stop_recording cfg
          (mkApp (is_recording app) (recorder app) (mkSession c inserter)
                 (audio_task app) (listen_task app))
          wait_start_time wakes
    | (c, None) =>
        if negb (is_connected c)
        then Some (mkApp (is_recording app) (recorder app) (mkSession c inserter)
                         (audio_task app) (listen_task app))
        else
          match start_recording (recorder app) device with
          | (r, Some _) =>
              _stop_recording cfg
                (mkApp (is_recording app) r (mkSession c inserter)
                       (audio_task app) (listen_task app))
                wait_start_time wakes
          | (r, None) =>
              Some (mkApp true r (mkSession c inserter)
                          (Some Running) (Some Running))
          end
    end.

(** The application as [__init__] leaves it. *)
Definition new_app : App :=
  mkApp false new_recorder
        (mkSession (mkClient None false (Some InsertTextMethod)) init)
        None None.

(** The polls of the drain loop that the wakes amount to: the clock
    readings, and [is_typing_session_active] once the listen task has
    handled what arrived. *)
Fixpoint polls_of (s : Session) (listening : bool) (wakes : list Wake)
  : list Poll :=
  match wakes with
  | [] => []
  | w :: rest =>
      let (s', listening') :=
        if listening then listener_step s w else (s, false) in
      mkPoll (wake_clock w) (is_typing_session_active (text_inserter s'))
      :: polls_of s' listening' rest
  end.

(** A message that ends the typing session when it is handled: a
    "ready_to_stop" whose extracted text is not blank. *)
Definition ends_session (m : Message) : Prop :=
  exists data text,
    m = WellFormed data
    /\ is_terminal data = true
    /\ _extract_transcription data = Ok text
    /\ nonempty (strip text) = true.

(** Every sleep of the drain loop lasts at least [d] milliseconds. *)
Fixpoint wakes_last (d now : Z) (wakes : list Wake) : Prop :=
  match wakes with
  | [] => True
  | w :: rest => (now + d <= wake_clock w)%Z /\ wakes_last d (wake_clock w) rest
  end.

(** The application between sessions. *)
Definition idle (app : App) : Prop :=
  is_recording app = false
  /\ AudioRecorderModel.is_recording (recorder app) = false
  /\ websocket (client (session app)) = None
  /\ is_connected (client (session app)) = false
  /\ is_typing_session_active (text_inserter (session app)) = false
  /\ audio_task app = None
  /\ listen_task app = None.

End SessionModel.
Import SessionModel.
(** ** Facts about the string operations *)

Section StringFacts.

Lemma str_eqb_eq (a b : str) : str_eqb a b = true <-> a = b.
Proof.
  revert b; induction a as [|x a IH]; intros [|y b]; simpl;
    try (split; intros H; (reflexivity || discriminate)).
  rewrite andb_true_iff, N.eqb_eq, IH.
  split; [intros [-> ->]; reflexivity | intros H; inversion H; auto].
Qed.

Lemma str_eqb_refl (a : str) : str_eqb a a = true.
Proof. apply str_eqb_eq; reflexivity. Qed.

Lemma str_eqb_neq (a b : str) : a <> b -> str_eqb a b = false.
Proof.
  intros H; destruct (str_eqb a b) eqn:E; [|reflexivity].
  apply str_eqb_eq in E; contradiction.
Qed.

Lemma startswith_nil (s : str) : startswith s [] = true.
Proof. destruct s; reflexivity. Qed.

Lemma startswith_spec (s p : str) :
  startswith s p = true <-> exists t, s = p ++ t.
Proof.
  revert s; induction p as [|y p IH]; intros s.
  - rewrite startswith_nil.
    split; [intros _; exists s; reflexivity | reflexivity].
  - destruct s as [|x s]; simpl.
    + split; [discriminate | intros [t H]; discriminate].
    + rewrite andb_true_iff, N.eqb_eq, IH. split.
      * intros [-> [t ->]]; exists t; reflexivity.
      * intros [t H]; inversion H; subst; split; [reflexivity | exists t; reflexivity].
Qed.

Lemma startswith_app (p t : str) : startswith (p ++ t) p = true.
Proof. apply startswith_spec; exists t; reflexivity. Qed.

Lemma endswith_spec (s p : str) :
  endswith s p = true <-> exists t, s = t ++ p.
Proof.
  unfold endswith; rewrite startswith_spec; split; intros [t H].
  - exists (rev t). rewrite <- (rev_involutive s), H, rev_app_distr, rev_involutive.
    reflexivity.
  - exists (rev t). rewrite H, rev_app_distr; reflexivity.
Qed.

Lemma ends_nonspace_app (a s : str) : ends_nonspace s -> ends_nonspace (a ++ s).
Proof.
  intros (s' & c & -> & Hc); exists (a ++ s'), c.
  rewrite app_assoc; auto.
Qed.

Lemma ends_nonspace_suffix (a s : str) :
  s <> [] -> ends_nonspace (a ++ s) -> ends_nonspace s.
Proof.
  intros Hs (x & c & E & Hc).
  destruct (@exists_last _ s Hs) as (s' & d & ->).
  rewrite app_assoc in E. apply app_inj_tail in E as [_ ->].
  exists s', c; auto.
Qed.

Lemma rstrip_ends_nonspace (s : str) : ends_nonspace s -> rstrip s = s.
Proof.
  intros (s' & c & -> & Hc).
  induction s' as [|x s' IH]; simpl.
  - rewrite Hc; reflexivity.
  - rewrite IH. destruct s'; reflexivity.
Qed.

Lemma lstrip_ends_nonspace (s : str) : ends_nonspace s -> lstrip s <> [].
Proof.
  intros (s' & c & -> & Hc).
  induction s' as [|x s' IH]; simpl.
  - rewrite Hc; discriminate.
  - destruct (isspace x); [exact IH | discriminate].
Qed.

Lemma strip_ends_nonspace (s : str) : ends_nonspace s -> nonempty (strip s) = true.
Proof.
  intros H; unfold strip; rewrite (rstrip_ends_nonspace s H).
  pose proof (lstrip_ends_nonspace s H).
  destruct (lstrip s); [contradiction | reflexivity].
Qed.

Lemma not_endswith_space (s : str) : ends_nonspace s -> endswith s [SPACE] = false.
Proof.
  intros (s' & c & -> & Hc).
  destruct (endswith (s' ++ [c]) [SPACE]) eqn:E; [|reflexivity].
  apply endswith_spec in E as [t E].
  apply app_inj_tail in E as [_ ->]. discriminate.
Qed.

Lemma word_ends_nonspace (w : str) : word w -> ends_nonspace w.
Proof.
  intros [Hne Hall].
  destruct (@exists_last _ w Hne) as (w' & c & ->).
  exists w', c; split; [reflexivity|].
  rewrite forallb_app in Hall. apply andb_true_iff in Hall as [_ Hc].
  simpl in Hc. destruct (isspace c); [discriminate | reflexivity].
Qed.

Lemma forallb_rev_eq (f : char -> bool) (l : str) :
  forallb f (rev l) = forallb f l.
Proof.
  induction l as [|x l IH]; [reflexivity|]; simpl.
  rewrite forallb_app, IH; simpl. rewrite andb_true_r, andb_comm; reflexivity.
Qed.

Lemma split_from_words (s cur : str) :
  forallb (fun c => negb (isspace c)) cur = true ->
  Forall word (split_from cur s).
Proof.
  revert cur; induction s as [|c s IH]; intros cur Hcur; simpl.
  - destruct cur as [|x cur]; [constructor|].
    constructor; [|constructor].
    split; [intros E; apply (f_equal (@rev char)) in E;
            rewrite rev_involutive in E; discriminate|].
    rewrite forallb_rev_eq; exact Hcur.
  - destruct (isspace c) eqn:Hc.
    + destruct cur as [|x cur]; [apply IH; reflexivity|].
      constructor; [|apply IH; reflexivity].
      split; [intros E; apply (f_equal (@rev char)) in E;
              rewrite rev_involutive in E; discriminate|].
      rewrite forallb_rev_eq; exact Hcur.
    + apply IH. simpl. rewrite Hc; exact Hcur.
Qed.

Lemma split_words (s : str) : Forall word (split s).
Proof. apply split_from_words; reflexivity. Qed.

Lemma join_words_ends_nonspace (sep : str) (ws : list str) :
  ws <> [] -> Forall word ws -> ends_nonspace (join sep ws).
Proof.
  induction ws as [|w ws IH]; intros Hne Hall; [contradiction|].
  inversion Hall as [|? ? Hw Hws]; subst.
  destruct ws as [|w' ws].
  - simpl. apply word_ends_nonspace; exact Hw.
  - change (join sep (w :: w' :: ws)) with (w ++ sep ++ join sep (w' :: ws)).
    apply ends_nonspace_app, ends_nonspace_app, IH; [discriminate | exact Hws].
Qed.

End StringFacts.

Section InserterFacts.

Lemma type_text_controller (text : str) (self : TextInserter) :
  _type_text_slowly self text
  = mkInserter (controller self ++ text) (last_typed_text self)
               (is_typing_session_active self).
Proof.
  unfold _type_text_slowly.
  revert self; induction text as [|c text IH]; intros self; simpl.
  - rewrite app_nil_r; destruct self; reflexivity.
  - rewrite IH; simpl. rewrite <- app_assoc; reflexivity.
Qed.

Lemma typed_since_app (self : TextInserter) (k : str) (l : str) (b : bool) :
  typed_since self (mkInserter (controller self ++ k) l b) = k.
Proof.
  unfold typed_since; simpl.
  rewrite skipn_app, Nat.sub_diag, skipn_all; reflexivity.
Qed.

(** The punctuation test of [_clean_text] never adds to the plain test
    for a final space. *)
Lemma punctuation_test_redundant (text : str) :
  existsb (fun p => endswith text (p ++ [SPACE])) punctuation = true ->
  endswith text [SPACE] = true.
Proof.
  intros H. apply existsb_exists in H as (p & _ & H).
  apply endswith_spec in H as [t ->].
  apply endswith_spec. exists (t ++ p). rewrite app_assoc; reflexivity.
Qed.

Lemma clean_text_eq (text : str) :
  split text <> [] ->
  _clean_text text
  = join [SPACE] (split text) ++ (if endswith text [SPACE] then [SPACE] else []).
Proof.
  intros Hw. unfold _clean_text.
  pose proof (join_words_ends_nonspace [SPACE] (split text) Hw (split_words text)) as He.
  destruct (split text) as [|w ws] eqn:E; [contradiction|].
  rewrite (not_endswith_space _ He); simpl negb; cbv iota.
  pose proof (punctuation_test_redundant text) as Hp.
  destruct (existsb (fun p => endswith text (p ++ [SPACE])) punctuation).
  - rewrite Hp by reflexivity; reflexivity.
  - rewrite orb_false_r. destruct (endswith text [SPACE]); [reflexivity|].
    rewrite app_nil_r; reflexivity.
Qed.

Lemma clean_text_blank (text : str) : split text = [] -> _clean_text text = [].
Proof. intros H; unfold _clean_text; rewrite H; reflexivity. Qed.

Lemma clean_text_strip_nonempty (text : str) :
  _clean_text text <> [] -> nonempty (strip (_clean_text text)) = true.
Proof.
  intros H.
  destruct (split text) as [|w ws] eqn:E.
  - rewrite clean_text_blank in H by exact E; contradiction.
  - assert (Hw : split text <> []) by (rewrite E; discriminate).
    rewrite (clean_text_eq text Hw).
    pose proof (join_words_ends_nonspace [SPACE] (split text) Hw (split_words text)) as He.
    destruct (endswith text [SPACE]).
    + unfold strip.
      assert (R : rstrip (join [SPACE] (split text) ++ [SPACE])
                  = join [SPACE] (split text)).
      { generalize He. generalize (join [SPACE] (split text)). clear.
        intros s (s' & c & -> & Hc).
        induction s' as [|x s' IH]; simpl.
        - rewrite Hc; reflexivity.
        - simpl in IH. rewrite IH. destruct s'; reflexivity. }
      rewrite R. pose proof (lstrip_ends_nonspace _ He).
      destruct (lstrip _); [contradiction | reflexivity].
    + rewrite app_nil_r. apply strip_ends_nonspace; exact He.
Qed.

Lemma normalized_cases (t : str) : normalized t -> t = [] \/ ends_nonspace t.
Proof.
  unfold normalized; intros H.
  destruct (split t) as [|w ws] eqn:E.
  - left; rewrite <- H; reflexivity.
  - right; rewrite <- H, <- E.
    apply join_words_ends_nonspace; [rewrite E; discriminate | apply split_words].
Qed.

Lemma normalized_clean (t : str) : normalized t -> _clean_text t = t.
Proof.
  intros H. destruct (normalized_cases t H) as [-> | He]; [reflexivity|].
  assert (Hw : split t <> []).
  { intros E. unfold normalized in H. rewrite E in H; simpl in H.
    destruct He as (s' & c & -> & _). destruct s'; discriminate. }
  rewrite (clean_text_eq t Hw), (not_endswith_space t He), app_nil_r. exact H.
Qed.

End InserterFacts.

Section Reconciler.

Lemma nonempty_true (s : str) : nonempty s = true <-> s <> [].
Proof. destruct s; simpl; split; (discriminate || congruence || auto). Qed.

(** With nothing typed so far the whole cleaned text is typed. *)
Lemma insert_text_fresh (self : TextInserter) (text : str) :
  last_typed_text self = [] -> _clean_text text <> [] ->
  insert_text self text
  = set_last_typed_text (_type_text_slowly self (_clean_text text))
                        (_clean_text text).
Proof.
  intros Hl Hc. unfold insert_text.
  destruct text as [|c text]; [contradiction Hc; reflexivity|]. simpl negb.
  cbv iota. cbv zeta.
  apply nonempty_true in Hc as Hc'. rewrite Hc'. simpl negb. cbv iota.
  rewrite Hl. rewrite str_eqb_neq by exact Hc. reflexivity.
Qed.

Lemma rstrip_cases (s : str) : rstrip s = [] \/ ends_nonspace (rstrip s).
Proof.
  induction s as [|c s IH]; simpl; [left; reflexivity|].
  destruct (rstrip s) as [|x r] eqn:E.
  - destruct (isspace c) eqn:Hc; [left; reflexivity|].
    right; exists [], c; auto.
  - right. destruct IH as [IH|IH]; [discriminate|].
    apply (ends_nonspace_app [c]) in IH. exact IH.
Qed.

Lemma lstrip_suffix (s : str) : exists a, s = a ++ lstrip s.
Proof.
  induction s as [|c s [a IH]]; simpl; [exists []; reflexivity|].
  destruct (isspace c).
  - exists (c :: a). simpl. f_equal. exact IH.
  - exists []. reflexivity.
Qed.

Lemma strip_not_endswith_space (s : str) : endswith (strip s) [SPACE] = false.
Proof.
  unfold strip.
  destruct (lstrip (rstrip s)) as [|x l] eqn:E; [reflexivity|].
  apply not_endswith_space.
  destruct (rstrip_cases s) as [R|R]; [rewrite R in E; discriminate|].
  destruct (lstrip_suffix (rstrip s)) as [a Ha].
  rewrite E in Ha. rewrite Ha in R.
  apply ends_nonspace_suffix in R; [exact R | discriminate].
Qed.

End Reconciler.

Section InsertTextCases.

(** The two outcomes of [insert_text]. *)
Lemma insert_text_cases (self : TextInserter) (text : str) :
  insert_text self text = self
  \/ exists pre part,
       part <> []
       /\ _clean_text text = pre ++ part
       /\ _clean_text text <> []
       /\ text <> []
       /\ insert_text self text
          = mkInserter (controller self ++ part) (_clean_text text)
                       (is_typing_session_active self).
Proof.
  unfold insert_text.
  destruct text as [|c0 text0] eqn:Et; [left; reflexivity|]. rewrite <- Et.
  replace (negb (nonempty text)) with false by (subst; reflexivity).
  cbv iota zeta.
  destruct (_clean_text text) as [|c cl] eqn:Ec; [left; reflexivity|].
  rewrite <- Ec. replace (negb (nonempty (_clean_text text))) with false
    by (rewrite Ec; reflexivity).
  cbv iota.
  destruct (str_eqb (_clean_text text) (last_typed_text self));
    [left; reflexivity|].
  assert (Hne : _clean_text text <> []) by (rewrite Ec; discriminate).
  assert (Ht : text <> []) by (subst; discriminate).
  destruct (nonempty (last_typed_text self)
            && startswith (_clean_text text) (rstrip (last_typed_text self)))
           eqn:Eb.
  - apply andb_true_iff in Eb as [_ Hp].
    apply startswith_spec in Hp as [rest Hr].
    unfold slice_from.
    replace (skipn (length (rstrip (last_typed_text self))) (_clean_text text))
      with rest
      by (rewrite Hr, skipn_app, Nat.sub_diag, skipn_all; reflexivity).
    destruct (nonempty (strip rest)) eqn:En; [|left; reflexivity].
    right. exists (rstrip (last_typed_text self)), rest.
    rewrite type_text_controller. repeat split; auto.
    intros ->. discriminate En.
  - right. exists [], (_clean_text text).
    rewrite type_text_controller. repeat split; auto.
Qed.

End InsertTextCases.

Section CleanedTextIsDiffed.

(** [insert_text] looks at its argument only through [_clean_text]: it
    compares, types and remembers the cleaned text. *)
Lemma insert_text_as_apply_spec (self : TextInserter) (text : str) :
  insert_text self text = apply_spec self (_clean_text text).
Proof.
  unfold insert_text, apply_spec.
  destruct text as [|c text]; [reflexivity|]. simpl negb at 1. cbv iota zeta.
  destruct (nonempty (_clean_text (c :: text))) eqn:Hc; [|reflexivity].
  simpl negb; simpl orb. cbv iota.
  destruct (str_eqb (_clean_text (c :: text)) (last_typed_text self));
    [reflexivity|].
  destruct (last_typed_text self) as [|x l]; [|reflexivity].
  simpl andb. cbv iota. simpl rstrip. rewrite startswith_nil.
  unfold slice_from; simpl skipn.
  rewrite clean_text_strip_nonempty; [reflexivity|].
  apply nonempty_true; exact Hc.
Qed.

(** A non-empty final part of a text that ends with a space ends with
    that space. *)
Lemma endswith_space_final_part (pre part : str) :
  part <> [] -> endswith (pre ++ part) [SPACE] = true ->
  endswith part [SPACE] = true.
Proof.
  intros Hp H. apply endswith_spec in H as [t E].
  destruct (exists_last Hp) as (part' & x & ->).
  rewrite app_assoc in E. apply app_inj_tail in E as [_ ->].
  apply endswith_spec. exists part'. reflexivity.
Qed.

End CleanedTextIsDiffed.

(** C10, as stated: false.  A text of whitespace only that ends with a
    space gets no space appended: its cleaned text is empty, and
    [insert_text] returns before it compares or types anything. *)
Lemma blank_text_gets_no_final_space :
  endswith (py "  ") [SPACE] = true
  /\ _clean_text (py "  ") = []
  /\ endswith (_clean_text (py "  ")) [SPACE] = false
  /\ insert_text (mkInserter (py "typed") (py "typed") true) (py "  ")
     = mkInserter (py "typed") (py "typed") true.
Proof. repeat split; reflexivity. Qed.

(** C10 (amended): in every state [insert_text] compares, types and
    remembers [_clean_text text], never the text it is given.  For a text
    of whitespace only the cleaned text is empty and nothing happens.
    For any other text the cleaned text is its whitespace-separated words
    joined by single spaces, followed by one space exactly when the raw
    text ends with a space (the tests for ". ", "! ", "? " and ", "
    included); then whatever [insert_text] types ends with that space,
    which the stripped input does not have, and in a fresh session it
    types the whole cleaned text. *)
Theorem clean_text_normalizes_keeps_final_space
        (self : TextInserter) (text : str) :
  let cleaned := _clean_text text in
  insert_text self text = apply_spec self cleaned
  /\ (split text = [] -> cleaned = [] /\ insert_text self text = self)
  /\ (split text <> [] ->
        cleaned
        = join [SPACE] (split text)
          ++ (if endswith text [SPACE]
                 || existsb (fun p => endswith text (p ++ [SPACE])) punctuation
              then [SPACE] else [])
        /\ (endswith text [SPACE] = false ->
              cleaned = join [SPACE] (split text))
        /\ (last_typed_text self = [] ->
              typed_since self (insert_text self text) = cleaned)
        /\ (endswith text [SPACE] = true ->
              endswith cleaned [SPACE] = true
              /\ endswith (strip text) [SPACE] = false
              /\ (insert_text self text <> self ->
                    endswith (typed_since self (insert_text self text)) [SPACE]
                    = true))).
Proof.
  cbv zeta. split; [apply insert_text_as_apply_spec|]. split.
  - intros Hb. pose proof (clean_text_blank text Hb) as Hc.
    split; [exact Hc|].
    rewrite insert_text_as_apply_spec, Hc. reflexivity.
  - intros Hw.
    pose proof (clean_text_eq text Hw) as Hc.
    assert (Hne : _clean_text text <> []).
    { rewrite Hc. destruct (split text) as [|w ws] eqn:E; [contradiction|].
      pose proof (split_words text) as Hall. rewrite E in Hall.
      inversion Hall as [|? ? [Hw1 _] _]; subst.
      destruct w; [contradiction|]. destruct ws; discriminate. }
    split; [|split; [|split]].
    + rewrite Hc.
      pose proof (punctuation_test_redundant text) as Hp.
      destruct (existsb (fun p => endswith text (p ++ [SPACE])) punctuation).
      * rewrite Hp by reflexivity; reflexivity.
      * rewrite orb_false_r; reflexivity.
    + intros Hsp. rewrite Hc, Hsp. apply app_nil_r.
    + intros Hl.
      rewrite (insert_text_fresh self text Hl Hne), type_text_controller.
      unfold set_last_typed_text; simpl. apply typed_since_app.
    + intros Hsp.
      assert (He : endswith (_clean_text text) [SPACE] = true).
      { rewrite Hc, Hsp. apply endswith_spec. eexists; reflexivity. }
      split; [exact He|]. split; [apply strip_not_endswith_space|].
      intros Hch.
      destruct (insert_text_cases self text)
        as [E | (pre & part & Hp & Hcl & _ & _ & E)]; [contradiction|].
      rewrite E, typed_since_app.
      apply (endswith_space_final_part pre part Hp).
      rewrite <- Hcl. exact He.
Qed.

Lemma clean_text_normalizes_keeps_final_space_witness :
  let self := mkInserter (py "hello ") (py "hello ") true in
  let text := py "hello   world. " in
  _clean_text text = py "hello world. "
  /\ strip text = py "hello   world."
  /\ typed_since self (insert_text self text) = py " world. "
  /\ endswith (typed_since self (insert_text self text)) [SPACE] = true.
Proof.
  cbv zeta.
  destruct (clean_text_normalizes_keeps_final_space
              (mkInserter (py "hello ") (py "hello ") true)
              (py "hello   world. "))
    as (_ & _ & H).
  destruct H as (Hc & _ & _ & Hs); [discriminate|].
  destruct Hs as (_ & _ & Ht); [reflexivity|].
  refine (conj _ (conj eq_refl (conj eq_refl (Ht _)))).
  - rewrite Hc. reflexivity.
  - intros E. apply (f_equal controller) in E. vm_compute in E. discriminate.
Defined.

(** C2, as stated, read on the text handed to [insert_text]: false.  In a
    fresh session the stable text "a<TAB>b" is not what is typed nor what
    is remembered; the cleaned text "a b" is. *)
Lemma insert_text_not_apply_spec_on_raw_text :
  let self := start_typing_session init in
  let text := py "a" ++ [9%N] ++ py "b" in
  controller (apply_spec self text) = text
  /\ controller (insert_text self text) = py "a b"
  /\ last_typed_text (insert_text self text) = py "a b"
  /\ insert_text self text <> apply_spec self text.
Proof.
  cbv zeta. repeat split; try reflexivity.
  intros H. apply (f_equal controller) in H. vm_compute in H. discriminate.
Qed.

(** C2 (amended): [insert_text] does to the cleaned text what the
    specification says of the stable text: nothing when the cleaned text
    is empty or equals [last_typed_text]; when it starts with the
    right-trimmed [last_typed_text], the suffix beyond it is typed if it is
    non-blank and [last_typed_text] becomes the cleaned text; otherwise
    the whole cleaned text is typed and remembered. *)
Theorem insert_text_applies_cleaned_text (self : TextInserter) (text : str) :
  insert_text self text = apply_spec self (_clean_text text).
Proof.
  unfold insert_text, apply_spec.
  destruct text as [|c text]; [reflexivity|]. simpl negb at 1. cbv iota zeta.
  set (cleaned := _clean_text (c :: text)).
  destruct (nonempty cleaned) eqn:Hc; [|reflexivity]. simpl negb; simpl orb.
  cbv iota.
  destruct (str_eqb cleaned (last_typed_text self)) eqn:He; [reflexivity|].
  destruct (last_typed_text self) as [|x l] eqn:Hl.
  - simpl andb. cbv iota. simpl rstrip. rewrite startswith_nil.
    unfold slice_from; simpl skipn. subst cleaned.
    rewrite clean_text_strip_nonempty; [reflexivity|].
    apply nonempty_true; exact Hc.
  - reflexivity.
Qed.

Section PrefixExtensions.

Lemma last_cons (t d : str) (ts : list str) : last (t :: ts) d = last ts t.
Proof.
  revert t d; induction ts as [|u ts IH]; intros t d; [reflexivity|].
  change (last (t :: u :: ts) d) with (last (u :: ts) d).
  rewrite IH. symmetry. apply IH.
Qed.

(** The suffixes of a prefix chain concatenate to its last text. *)
Lemma suffixes_concat (ts : list str) (prev : str) :
  prefix_chain prev ts -> prev ++ concat (suffixes prev ts) = last ts prev.
Proof.
  revert prev; induction ts as [|t ts IH]; intros prev H; simpl.
  - apply app_nil_r.
  - destruct H as [Hp Hc]. apply startswith_spec in Hp as [s ->].
    unfold slice_from. rewrite skipn_app, Nat.sub_diag, skipn_all; simpl.
    rewrite app_assoc, (IH _ Hc). symmetry; apply last_cons.
Qed.

(** One update that extends the text typed last. *)
Lemma insert_text_extension (self : TextInserter) (t : str) :
  normalized (last_typed_text self) -> normalized t ->
  startswith t (last_typed_text self) = true ->
  insert_text self t
  = mkInserter (controller self ++ slice_from (length (last_typed_text self)) t)
               t (is_typing_session_active self).
Proof.
  destruct self as [k l act]; simpl.
  intros Hn Ht Hp. apply startswith_spec in Hp as [s ->].
  unfold slice_from. rewrite skipn_app, Nat.sub_diag, skipn_all; simpl.
  unfold insert_text; simpl last_typed_text.
  rewrite (normalized_clean _ Ht).
  assert (Hne : forall c s', nonempty (l ++ c :: s') = true)
    by (intros; destruct l; reflexivity).
  destruct s as [|c s].
  - rewrite !app_nil_r in *. destruct l as [|x l]; [reflexivity|].
    simpl negb; cbv iota zeta. rewrite str_eqb_refl. reflexivity.
  - replace (negb (nonempty (l ++ c :: s))) with false
      by (rewrite Hne; reflexivity).
    cbv iota zeta.
    rewrite str_eqb_neq.
    2:{ intros E. rewrite <- (app_nil_r l) in E at 2.
        apply app_inv_head in E; discriminate. }
    assert (Hs : ends_nonspace (c :: s)).
    { destruct (normalized_cases _ Ht) as [E|E]; [destruct l; discriminate|].
      apply ends_nonspace_suffix in E; [exact E | discriminate]. }
    destruct l as [|x l].
    + rewrite !type_text_controller; reflexivity.
    + destruct (normalized_cases _ Hn) as [E|E]; [discriminate|].
      assert (Hsk : skipn (length (x :: l)) ((x :: l) ++ c :: s) = c :: s)
        by (rewrite skipn_app, Nat.sub_diag, skipn_all; reflexivity).
      rewrite (rstrip_ends_nonspace _ E), startswith_app.
      unfold slice_from. rewrite !Hsk.
      rewrite (strip_ends_nonspace _ Hs), type_text_controller.
      reflexivity.
Qed.

(** A chain of extensions, from any state whose last text is normalized. *)
Lemma emissions_prefix_chain (ts : list str) (self : TextInserter) :
  normalized (last_typed_text self) -> Forall normalized ts ->
  prefix_chain (last_typed_text self) ts ->
  emissions self ts = suffixes (last_typed_text self) ts
  /\ last_typed_text (apply_all self ts) = last ts (last_typed_text self)
  /\ controller (apply_all self ts)
     = controller self ++ concat (emissions self ts).
Proof.
  revert self; induction ts as [|t ts IH]; intros self Hn Hall Hc.
  - simpl. rewrite app_nil_r; auto.
  - inversion Hall as [|? ? Ht Hts]; subst. destruct Hc as [Hp Hc].
    pose proof (insert_text_extension self t Hn Ht Hp) as Hstep.
    simpl emissions. unfold apply_all; simpl fold_left.
    fold (apply_all (insert_text self t) ts).
    destruct (IH (insert_text self t)) as (E1 & E2 & E3).
    + rewrite Hstep; exact Ht.
    + exact Hts.
    + rewrite Hstep; exact Hc.
    + rewrite E2, E3, E1, last_cons. rewrite Hstep.
      cbn [controller last_typed_text suffixes concat].
      rewrite typed_since_app, <- app_assoc. auto.
Qed.

End PrefixExtensions.

(** C3, as stated for any chain of prefix extensions: false.  After "a "
    the update "a b" types " b", so the key strokes read "a  b"; and the
    single update "a<TAB>b" is typed as "a b", which is not its suffix
    beyond the empty text. *)
Lemma prefix_chain_emissions_differ :
  let self := start_typing_session init in
  (prefix_chain [] [py "a "; py "a b"]
   /\ emissions self [py "a "; py "a b"] = [py "a "; py " b"]
   /\ concat (emissions self [py "a "; py "a b"]) <> py "a b")
  /\ (prefix_chain [] [py "a" ++ [9%N] ++ py "b"]
      /\ emissions self [py "a" ++ [9%N] ++ py "b"] = [py "a b"]
      /\ suffixes [] [py "a" ++ [9%N] ++ py "b"] = [py "a" ++ [9%N] ++ py "b"]).
Proof.
  cbv zeta. repeat split; try reflexivity. vm_compute. discriminate.
Qed.

(** C3 (amended): in a session just begun, for updates [t1..tn] that are
    each normalized (words separated by single spaces, no surrounding
    whitespace) and each start with their predecessor, the key strokes of
    the i-th call are exactly the part of [ti] beyond [t(i-1)], all key
    strokes together spell [tn], and [tn] is what is remembered. *)
Theorem prefix_extensions_emit_suffixes (self0 : TextInserter) (ts : list str) :
  Forall normalized ts -> prefix_chain [] ts ->
  let self := start_typing_session self0 in
  emissions self ts = suffixes [] ts
  /\ concat (emissions self ts) = last ts []
  /\ last_typed_text (apply_all self ts) = last ts []
  /\ controller (apply_all self ts) = controller self0 ++ last ts [].
Proof.
  intros Hall Hc self.
  destruct (emissions_prefix_chain ts self) as (E1 & E2 & E3);
    try assumption; [reflexivity|].
  change (last_typed_text self) with (@nil char) in *.
  pose proof (suffixes_concat ts [] Hc) as Hs. simpl in Hs.
  rewrite E3, E1, Hs. auto.
Qed.

Lemma prefix_extensions_emit_suffixes_witness :
  emissions (start_typing_session init)
            [py "hello"; py "hello wor"; py "hello world"]
  = [py "hello"; py " wor"; py "ld"]
  /\ concat (emissions (start_typing_session init)
                       [py "hello"; py "hello wor"; py "hello world"])
     = py "hello world".
Proof.
  destruct (prefix_extensions_emit_suffixes init
              [py "hello"; py "hello wor"; py "hello world"])
    as (E1 & E2 & _).
  - repeat constructor.
  - simpl; auto.
  - split; [rewrite E1 | rewrite E2]; reflexivity.
Defined.

(** ** websocket_client.py: the stream header *)

Section LittleEndian.

Lemma byte_of_N_to_N (n : N) : (n < 256)%N -> Byte.to_N (byte_of_N n) = n.
Proof.
  intros H. unfold byte_of_N.
  destruct (Byte.of_N n) as [x|] eqn:E.
  - apply Byte.to_of_N; exact E.
  - apply Byte.of_N_None_iff in E. lia.
Qed.

Lemma le_digits_length (len : nat) (n : N) : length (le_digits len n) = len.
Proof.
  revert n; induction len as [|len IH]; intros n; simpl; [|rewrite IH]; reflexivity.
Qed.

(** Reading back the digits gives the number modulo [256 ^ len]. *)
Lemma from_bytes_le_digits (len : nat) (n : N) :
  from_bytes (le_digits len n) = Z.of_N (n mod 256 ^ N.of_nat len).
Proof.
  revert n; induction len as [|len IH]; intros n.
  - simpl. rewrite N.mod_1_r; reflexivity.
  - cbn [le_digits from_bytes]. rewrite IH, byte_of_N_to_N
      by (apply N.mod_lt; discriminate).
    rewrite Nat2N.inj_succ, N.pow_succ_r'.
    rewrite (N.Div0.mod_mul_r n 256 (256 ^ N.of_nat len)). lia.
Qed.

Lemma to_bytes_ok (n : Z) (len : nat) :
  (0 <= n < 256 ^ Z.of_nat len)%Z ->
  exists bs, to_bytes n len = Ok bs /\ length bs = len /\ from_bytes bs = n.
Proof.
  intros [H0 H1]. exists (le_digits len (Z.to_N n)). unfold to_bytes.
  replace (n <? 0)%Z with false by (symmetry; apply Z.ltb_ge; exact H0).
  replace (256 ^ Z.of_nat len <=? n)%Z with false
    by (symmetry; apply Z.leb_gt; exact H1).
  split; [reflexivity|]. split; [apply le_digits_length|].
  rewrite from_bytes_le_digits, N.mod_small; [apply Z2N.id; exact H0|].
  apply N2Z.inj_lt. rewrite Z2N.id, N2Z.inj_pow, nat_N_Z by exact H0. exact H1.
Qed.

Lemma to_bytes_range (n : Z) (len : nat) (bs : bytes) :
  to_bytes n len = Ok bs -> (0 <= n < 256 ^ Z.of_nat len)%Z.
Proof.
  unfold to_bytes.
  destruct (n <? 0)%Z eqn:E0; [discriminate|].
  destruct (256 ^ Z.of_nat len <=? n)%Z eqn:E1; [discriminate|].
  apply Z.ltb_ge in E0. apply Z.leb_gt in E1. intros _. lia.
Qed.

Lemma to_bytes_raises (n : Z) (len : nat) (e : exn) :
  to_bytes n len = Raise e -> e = OverflowError.
Proof.
  unfold to_bytes. destruct (_ || _); intros E; inversion E; reflexivity.
Qed.

(** Outside these arguments the header cannot be built. *)
Lemma create_wav_header_overflow (sample_rate channels sample_width : Z) :
  ~ header_params_fit sample_rate channels sample_width ->
  create_wav_header sample_rate channels sample_width = Raise OverflowError.
Proof.
  intros Hfit. unfold create_wav_header.
  change (to_bytes 4294967295 4) with (Ok [xff; xff; xff; xff]).
  change (to_bytes 16 4) with (Ok [x10; x00; x00; x00]).
  change (to_bytes 1 2) with (Ok [x01; x00]).
  simpl Py.bind.
  destruct (to_bytes channels 2) as [f1|e] eqn:E1;
    [|apply to_bytes_raises in E1; subst; reflexivity].
  destruct (to_bytes sample_rate 4) as [f2|e] eqn:E2;
    [|apply to_bytes_raises in E2; subst; reflexivity].
  destruct (to_bytes (sample_rate * channels * sample_width) 4) as [f3|e] eqn:E3;
    [|apply to_bytes_raises in E3; subst; reflexivity].
  destruct (to_bytes (channels * sample_width) 2) as [f4|e] eqn:E4;
    [|apply to_bytes_raises in E4; subst; reflexivity].
  destruct (to_bytes (sample_width * 8) 2) as [f5|e] eqn:E5;
    [|apply to_bytes_raises in E5; subst; reflexivity].
  exfalso. apply Hfit.
  apply to_bytes_range in E1, E2, E3, E4, E5.
  unfold header_params_fit. change (2 ^ 16)%Z with (256 ^ Z.of_nat 2)%Z.
  change (2 ^ 32)%Z with (256 ^ Z.of_nat 4)%Z. auto.
Qed.

End LittleEndian.

Ltac fixed_length bs H :=
  repeat (destruct bs as [|? bs]; [discriminate H|]);
  destruct bs; [clear H | discriminate H].

(** C7: for arguments whose fields fit their widths, [create_wav_header]
    returns 44 bytes which read back, little-endian, as "RIFF",
    0xFFFFFFFF, "WAVE", "fmt ", 16, 1, channels, sampleRate,
    sampleRate*channels*sampleWidth, channels*sampleWidth, sampleWidth*8,
    "data", 0xFFFFFFFF. *)
Theorem create_wav_header_layout (sample_rate channels sample_width : Z) :
  header_params_fit sample_rate channels sample_width ->
  exists h,
    create_wav_header sample_rate channels sample_width = Ok h
    /\ length h = 44
    /\ parse_header h
       = mkWavFields (b "RIFF") 0xFFFFFFFF (b "WAVE") (b "fmt ") 16 1
           channels sample_rate
           (sample_rate * channels * sample_width)
           (channels * sample_width)
           (sample_width * 8)
           (b "data") 0xFFFFFFFF.
Proof.
  intros (Hch & Hsr & Hbr & Hba & Hbits).
  unfold create_wav_header.
  change (to_bytes 4294967295 4) with (Ok [xff; xff; xff; xff]).
  change (to_bytes 16 4) with (Ok [x10; x00; x00; x00]).
  change (to_bytes 1 2) with (Ok [x01; x00]).
  destruct (to_bytes_ok channels 2) as (ch & -> & Lch & Vch); [exact Hch|].
  destruct (to_bytes_ok sample_rate 4) as (sr & -> & Lsr & Vsr); [exact Hsr|].
  destruct (to_bytes_ok (sample_rate * channels * sample_width) 4)
    as (br & -> & Lbr & Vbr); [exact Hbr|].
  destruct (to_bytes_ok (channels * sample_width) 2)
    as (ba & -> & Lba & Vba); [exact Hba|].
  destruct (to_bytes_ok (sample_width * 8) 2)
    as (bits & -> & Lbits & Vbits); [exact Hbits|].
  fixed_length ch Lch. fixed_length sr Lsr. fixed_length br Lbr.
  fixed_length ba Lba. fixed_length bits Lbits.
  eexists; split; [reflexivity|]. split; [reflexivity|].
  cbv - [from_bytes Z.mul].
  rewrite Vch, Vsr, Vbr, Vba, Vbits. reflexivity.
Qed.

(** The example of the specification: 16000 Hz, mono, 16-bit samples. *)
Lemma create_wav_header_layout_witness :
  header_params_fit 16000 1 2
  /\ exists h, create_wav_header 16000 1 2 = Ok h
       /\ length h = 44
       /\ bytes_per_second (parse_header h) = 32000%Z
       /\ bytes_per_block (parse_header h) = 2%Z
       /\ bits_per_sample (parse_header h) = 16%Z.
Proof.
  assert (H : header_params_fit 16000 1 2) by (unfold header_params_fit; lia).
  split; [exact H|].
  destruct (create_wav_header_layout 16000 1 2 H) as (h & E & L & P).
  exists h. rewrite P. repeat split; assumption || reflexivity.
Defined.

(** ** websocket_client.py: transcript extraction *)

Section Squeeze.

Lemma is_sp_isspace (c : char) : is_sp c = true -> isspace c = true.
Proof. unfold is_sp. intros H. apply N.eqb_eq in H. subst c. reflexivity. Qed.

Lemma head_is_space_squeeze (s : str) :
  head_is_space (squeeze s) = head_is_space s.
Proof.
  induction s as [|c s IH]; [reflexivity|]. simpl.
  destruct (is_sp c) eqn:Ec; simpl; [|exact Ec].
  destruct (head_is_space s) eqn:Eh; simpl; [exact IH | exact Ec].
Qed.

Lemma head_is_space_replace_double (s : str) :
  head_is_space (replace_double s) = head_is_space s.
Proof.
  destruct s as [|c [|d s]]; try reflexivity. simpl.
  destruct (is_sp c) eqn:Ec; simpl; [|exact Ec].
  destruct (is_sp d); simpl; [reflexivity | exact Ec].
Qed.

Lemma has_double_space_cons (c : char) (s : str) :
  has_double_space (c :: s)
  = is_sp c && head_is_space s || has_double_space s.
Proof. destruct s; simpl; [rewrite andb_false_r|]; reflexivity. Qed.

Lemma replace_double_cons (c : char) (s : str) :
  replace_double (c :: s)
  = if is_sp c && head_is_space s
    then SPACE :: replace_double (tl s)
    else c :: replace_double s.
Proof. destruct s; simpl; [rewrite andb_false_r|]; reflexivity. Qed.

Lemma squeeze_cons (c : char) (s : str) :
  squeeze (c :: s)
  = if is_sp c && head_is_space s then squeeze s else c :: squeeze s.
Proof. reflexivity. Qed.

(** One pass of the replacement does not change what the string
    collapses to. *)
Lemma squeeze_replace_double (s : str) : squeeze (replace_double s) = squeeze s.
Proof.
  remember (length s) as n eqn:Hn.
  revert s Hn; induction n as [n IH] using lt_wf_ind; intros s Hn.
  destruct s as [|c s]; [reflexivity|].
  rewrite replace_double_cons.
  destruct (is_sp c && head_is_space s) eqn:E.
  - destruct s as [|d s]; [rewrite andb_false_r in E; discriminate|].
    apply andb_true_iff in E as [Ec Ed]. simpl in Ed. simpl tl.
    rewrite (squeeze_cons SPACE), (squeeze_cons c), (squeeze_cons d).
    rewrite head_is_space_replace_double.
    rewrite (IH (length s)) by (subst n; simpl; lia || reflexivity).
    simpl head_is_space. rewrite Ec, Ed. simpl andb.
    apply N.eqb_eq in Ed. subst d. reflexivity.
  - rewrite (squeeze_cons c (replace_double s)), (squeeze_cons c s).
    rewrite head_is_space_replace_double, E. f_equal.
    apply (IH (length s)); [subst n; simpl; lia | reflexivity].
Qed.

Lemma squeeze_fixed (s : str) : has_double_space s = false -> squeeze s = s.
Proof.
  induction s as [|c s IH]; [reflexivity|].
  rewrite has_double_space_cons. intros H.
  apply orb_false_iff in H as [H1 H2]. simpl. rewrite H1, IH by exact H2.
  reflexivity.
Qed.

Lemma squeeze_no_double_space (s : str) : has_double_space (squeeze s) = false.
Proof.
  induction s as [|c s IH]; [reflexivity|]. simpl.
  destruct (is_sp c && head_is_space s) eqn:E; [exact IH|].
  rewrite has_double_space_cons, head_is_space_squeeze, E, IH. reflexivity.
Qed.

Lemma replace_double_shorter (s : str) :
  length (replace_double s) <= length s
  /\ (has_double_space s = true -> length (replace_double s) < length s).
Proof.
  remember (length s) as n eqn:Hn.
  revert s Hn; induction n as [n IH] using lt_wf_ind; intros s Hn.
  destruct s as [|c s]; [simpl in *; subst; split; [lia | discriminate]|].
  rewrite replace_double_cons, has_double_space_cons.
  destruct (is_sp c && head_is_space s) eqn:E.
  - destruct s as [|d s]; [rewrite andb_false_r in E; discriminate|].
    simpl tl. destruct (IH (length s)) with (s := s) as [H _];
      [subst n; simpl; lia | reflexivity |].
    subst n; simpl in *; split; intros; lia.
  - destruct (IH (length s)) with (s := s) as [H1 H2];
      [subst n; simpl; lia | reflexivity |].
    simpl orb. subst n; simpl; split; [lia|].
    intros Hd. apply H2 in Hd. lia.
Qed.

(** The loop of [_extract_transcription] ends within [length s] rounds,
    with the runs of spaces collapsed. *)
Lemma collapse_spaces_squeeze (fuel : nat) (s : str) :
  length s <= fuel -> collapse_spaces fuel s = squeeze s.
Proof.
  revert s; induction fuel as [|fuel IH]; intros s H.
  - destruct s; [reflexivity | simpl in H; lia].
  - simpl. destruct (has_double_space s) eqn:E.
    + rewrite IH, squeeze_replace_double; [reflexivity|].
      destruct (replace_double_shorter s) as [_ Hlt]. specialize (Hlt E). lia.
    + symmetry; apply squeeze_fixed; exact E.
Qed.

Lemma lstrip_squeeze (s : str) : lstrip (squeeze s) = squeeze (lstrip s).
Proof.
  induction s as [|c s IH]; [reflexivity|]. simpl.
  destruct (is_sp c) eqn:Ec; simpl andb.
  - rewrite (is_sp_isspace _ Ec).
    destruct (head_is_space s) eqn:Eh; [exact IH|].
    simpl. rewrite (is_sp_isspace _ Ec). exact IH.
  - simpl. destruct (isspace c); [exact IH|]. simpl. rewrite Ec. reflexivity.
Qed.

Lemma rstrip_cons (c : char) (s : str) :
  rstrip (c :: s)
  = if nonempty (rstrip s) then c :: rstrip s
    else if isspace c then [] else [c].
Proof. simpl. destruct (rstrip s); reflexivity. Qed.

Lemma rstrip_head (s : str) (y : char) (r : str) :
  rstrip s = y :: r -> exists s', s = y :: s'.
Proof.
  destruct s as [|c s]; [discriminate|]. rewrite rstrip_cons.
  destruct (nonempty (rstrip s)); [|destruct (isspace c)]; intros H;
    inversion H; subst; eexists; reflexivity.
Qed.

Lemma squeeze_nonempty (s : str) : nonempty (squeeze s) = nonempty s.
Proof.
  induction s as [|c s IH]; [reflexivity|]. simpl.
  destruct (is_sp c && head_is_space s) eqn:E; [|reflexivity].
  rewrite IH. apply andb_true_iff in E as [_ E]. destruct s; [discriminate|reflexivity].
Qed.

Lemma rstrip_squeeze (s : str) : rstrip (squeeze s) = squeeze (rstrip s).
Proof.
  induction s as [|c s IH]; [reflexivity|].
  rewrite (rstrip_cons c s).
  destruct (rstrip s) as [|y r] eqn:Er.
  - simpl nonempty; cbv iota. simpl in IH.
    simpl squeeze at 1.
    destruct (is_sp c && head_is_space s) eqn:E.
    + rewrite IH. apply andb_true_iff in E as [Ec _].
      rewrite (is_sp_isspace _ Ec); reflexivity.
    + rewrite rstrip_cons, IH. simpl nonempty; cbv iota.
      destruct (isspace c) eqn:Hc; [reflexivity|].
      simpl. rewrite andb_false_r. reflexivity.
  - simpl nonempty; cbv iota.
    destruct (rstrip_head s y r Er) as [s' ->].
    change (squeeze (c :: y :: s'))
      with (if is_sp c && is_sp y then squeeze (y :: s') else c :: squeeze (y :: s')).
    change (squeeze (c :: y :: r))
      with (if is_sp c && is_sp y then squeeze (y :: r) else c :: squeeze (y :: r)).
    destruct (is_sp c && is_sp y); [exact IH|].
    rewrite rstrip_cons, IH.
    replace (nonempty (squeeze (y :: r))) with true
      by (rewrite squeeze_nonempty; reflexivity).
    reflexivity.
Qed.

(** Trimming and collapsing commute. *)
Lemma strip_squeeze (s : str) : strip (squeeze s) = squeeze (strip s).
Proof. unfold strip. rewrite rstrip_squeeze, lstrip_squeeze. reflexivity. Qed.

End Squeeze.

Section Extraction.

Lemma collect_parts_ok (lines : list json) (acc : list str) :
  forallb line_ok lines = true ->
  collect_parts lines acc = Ok (acc ++ List.map strip (stable_texts lines)).
Proof.
  revert acc; induction lines as [|line lines IH]; intros acc H.
  - simpl. rewrite app_nil_r. reflexivity.
  - simpl in H. apply andb_true_iff in H as [Hl H].
    unfold stable_texts; simpl flat_map. fold (stable_texts lines).
    destruct line as [| | | | |fields]; try discriminate Hl.
    simpl in Hl |- *.
    destruct (dict_get fields (py "text")) as [v|].
    + destruct v as [|v|q|s|items|fs]; simpl in Hl |- *;
        try (apply negb_true_iff in Hl; rewrite Hl; apply IH; exact H).
      * apply IH; exact H.
      * destruct (nonempty s); simpl.
        -- rewrite IH by exact H. rewrite <- app_assoc. reflexivity.
        -- apply IH; exact H.
    + apply IH; exact H.
Qed.

End Extraction.

(** C8, as stated: false.  For the lines "a" and "<TAB>b" the code yields
    "a b"; joining the texts as they are, collapsing the spaces and
    trimming yields "a <TAB>b". *)
Lemma extract_transcription_trims_each_text :
  let lines := [JObject [(py "text", JString (py "a"))];
                JObject [(py "text", JString (9%N :: py "b"))]] in
  _extract_transcription (JObject [(py "lines", JArray lines)]) = Ok (py "a b")
  /\ extract_spec lines = py "a " ++ 9%N :: py "b"
  /\ _extract_transcription (JObject [(py "lines", JArray lines)])
     <> Ok (extract_spec lines).
Proof.
  cbv zeta. split; [reflexivity|]. split; [reflexivity|].
  vm_compute. discriminate.
Qed.

(** C8 (amended): for a decoded message whose "lines" is a list of
    objects with string texts, the extracted text is obtained by
    collecting the text field, trimmed, of every line that has non-empty
    text, joining with a single space, collapsing every run of two or more
    spaces into one, and trimming; it has no two spaces in a row. *)
Theorem extract_transcription_rule (fields : list (str * json)) (lines : list json) :
  dict_get_default fields (py "lines") (JArray []) = JArray lines ->
  forallb line_ok lines = true ->
  _extract_transcription (JObject fields) = Ok (extract_trimmed_spec lines)
  /\ has_double_space (extract_trimmed_spec lines) = false.
Proof.
  intros Hl Hok. unfold extract_trimmed_spec.
  rewrite strip_squeeze. split; [|apply squeeze_no_double_space].
  unfold _extract_transcription. rewrite Hl. simpl iterate. simpl Py.bind.
  rewrite (collect_parts_ok lines [] Hok). simpl app. simpl Py.bind.
  destruct (List.map strip (stable_texts lines)) as [|p ps] eqn:E.
  - reflexivity.
  - rewrite collapse_spaces_squeeze by apply Nat.le_refl. reflexivity.
Qed.

Lemma extract_transcription_rule_witness :
  _extract_transcription
    (message (Some (py "ready_to_stop")) [py " hello  there "; []; py "world "])
  = Ok (py "hello there world").
Proof.
  destruct (extract_transcription_rule
              [(py "type", JString (py "ready_to_stop"));
               (py "lines",
                JArray [JObject [(py "text", JString (py " hello  there "))];
                        JObject [(py "text", JString [])];
                        JObject [(py "text", JString (py "world "))]])]
              [JObject [(py "text", JString (py " hello  there "))];
               JObject [(py "text", JString [])];
               JObject [(py "text", JString (py "world "))]])
    as [H _]; [reflexivity | reflexivity |].
  exact H.
Defined.

(** ** websocket_client.py: sending and receiving *)

(** C5, as stated: false.  On a client that is not connected [send_audio]
    returns normally and sends nothing. *)
Lemma send_audio_disconnected_returns_normally :
  send_audio (mkClient None false None) (b "pcm")
  = (mkClient None false None, Ok tt)
  /\ send_audio (mkClient (Some (mkSocket [] true)) false None) (b "pcm")
     = (mkClient (Some (mkSocket [] true)) false None, Ok tt).
Proof. split; reflexivity. Qed.

(** C5 (amended): on a disconnected client [send_audio] is a silent no-op
    (no error, nothing sent); on a connected client whose write fails the
    error is raised to the caller, [is_connected] becomes false and
    nothing is written or retried (and this is the only way it raises);
    when the write succeeds exactly this one frame is appended. *)
Theorem send_audio_outcomes (self : WebSocketClient) (audio_data : bytes) :
  ((websocket self = None \/ is_connected self = false) ->
     send_audio self audio_data = (self, Ok tt))
  /\ (forall ws, websocket self = Some ws -> is_connected self = true ->
        alive ws = false ->
        send_audio self audio_data
        = (set_is_connected self false, Raise ConnectionClosed))
  /\ (forall e, snd (send_audio self audio_data) = Raise e ->
        is_connected self = true
        /\ fst (send_audio self audio_data) = set_is_connected self false)
  /\ (forall ws, websocket self = Some ws -> is_connected self = true ->
        alive ws = true ->
        send_audio self audio_data
        = (set_websocket self (Some (mkSocket (wire ws ++ [audio_data]) true)),
           Ok tt)).
Proof.
  unfold send_audio, ws_send. repeat split.
  - intros [H|H]; [rewrite H; reflexivity|].
    destruct (websocket self); rewrite ?H; reflexivity.
  - intros ws -> -> ->. reflexivity.
  - destruct (websocket self) as [ws|]; [|discriminate].
    destruct (is_connected self); [reflexivity | discriminate].
  - revert H. destruct (websocket self) as [ws|]; [|discriminate].
    destruct (is_connected self); [|discriminate].
    destruct (alive ws); [discriminate | reflexivity].
  - intros ws -> -> ->. reflexivity.
Qed.

Lemma send_audio_outcomes_witness :
  let self := mkClient (Some (mkSocket [b "old"] false)) true None in
  send_audio self (b "pcm")
  = (mkClient (Some (mkSocket [b "old"] false)) false None,
     Raise ConnectionClosed).
Proof.
  cbv zeta.
  destruct (send_audio_outcomes
              (mkClient (Some (mkSocket [b "old"] false)) true None) (b "pcm"))
    as (_ & H & _ & _).
  exact (H (mkSocket [b "old"] false) eq_refl eq_refl eq_refl).
Defined.

Section Receiving.

Lemma receive_loop_app (pre rest : list Message) (closure : Closure)
      (s s' : Session) :
  receive_loop s pre PeerClosed = (s', None) ->
  receive_loop s (pre ++ rest) closure = receive_loop s' rest closure.
Proof.
  revert s; induction pre as [|m pre IH]; intros s H; simpl in *.
  - inversion H; reflexivity.
  - destruct (json_loads m) as [data|e]; [|discriminate].
    destruct (_handle_message s data) as [s1|e]; [|discriminate].
    apply IH; exact H.
Qed.

End Receiving.

(** C1, as stated: false.  A malformed message followed by an update
    "hi": the loop is left at the malformed message and "hi" is never
    delivered, although the same update alone is typed. *)
Lemma listen_stops_at_malformed_message :
  let update := WellFormed (message None [py "hi"]) in
  listen_for_messages live_session [Malformed; update] PeerClosed
  = (live_session, Some JSONDecodeError)
  /\ controller (text_inserter (fst (listen_for_messages live_session [update]
                                                           PeerClosed)))
     = py "hi".
Proof. split; reflexivity. Qed.

(** C1 (amended): when the messages before the first one that
    [json.loads] cannot decode are handled without error,
    [listen_for_messages] delivers exactly those, logs the error of the
    undecodable message and returns: no later message is delivered.
    [is_connected] is left as it was when the error is a
    [JSONDecodeError], and is set to false for the other decode errors
    ([UnicodeDecodeError], [RecursionError]), which reach the general
    handler. *)
Theorem listen_ends_at_first_undecodable_message
        (s s' : Session) (ws : Socket) (pre post : list Message)
        (closure : Closure) (m : Message) (e : exn) :
  websocket (client s) = Some ws ->
  receive_loop s pre PeerClosed = (s', None) ->
  json_loads m = Raise e ->
  listen_for_messages s (pre ++ m :: post) closure
  = (match e with
     | JSONDecodeError => s'
     | _ => set_client s' (set_is_connected (client s') false)
     end, Some e)
  /\ (m = Malformed /\ e = JSONDecodeError
      \/ m = BadEncoding /\ e = UnicodeDecodeError
      \/ m = TooDeep /\ e = RecursionError).
Proof.
  intros Hws Hpre Hm. unfold listen_for_messages. rewrite Hws.
  rewrite (receive_loop_app pre (m :: post) closure s s' Hpre).
  destruct m as [| | |data]; simpl in Hm; inversion Hm; subst e; simpl; auto.
Qed.

Lemma listen_ends_at_first_undecodable_message_witness :
  let first := WellFormed (message None [py "one"]) in
  let later := WellFormed (message None [py "one two"]) in
  let after_first :=
    set_text_inserter live_session
      (insert_text (start_typing_session init) (py "one")) in
  listen_for_messages live_session [first; Malformed; later] PeerClosed
  = (after_first, Some JSONDecodeError)
  /\ listen_for_messages live_session [first; BadEncoding; later] PeerClosed
     = (set_client after_first (set_is_connected (client after_first) false),
        Some UnicodeDecodeError)
  /\ controller (text_inserter after_first) = py "one".
Proof.
  cbv zeta.
  refine (conj _ (conj _ eq_refl)).
  - exact (proj1 (listen_ends_at_first_undecodable_message
             live_session
             (set_text_inserter live_session
                (insert_text (start_typing_session init) (py "one")))
             (mkSocket [] true)
             [WellFormed (message None [py "one"])]
             [WellFormed (message None [py "one two"])]
             PeerClosed Malformed JSONDecodeError eq_refl eq_refl eq_refl)).
  - exact (proj1 (listen_ends_at_first_undecodable_message
             live_session
             (set_text_inserter live_session
                (insert_text (start_typing_session init) (py "one")))
             (mkSocket [] true)
             [WellFormed (message None [py "one"])]
             [WellFormed (message None [py "one two"])]
             PeerClosed BadEncoding UnicodeDecodeError eq_refl eq_refl eq_refl)).
Defined.

(** When the final text is not blank, the handler of "ready_to_stop"
    applies it and ends the typing session. *)
Lemma ready_to_stop_with_text (s : Session) (fields : list (str * json))
      (final_text : str) :
  transcription_callback (client s) = Some InsertTextMethod ->
  equals_str (dict_get_default fields (py "type") (JString [])) (py "ready_to_stop")
  = true ->
  _extract_transcription (JObject fields) = Ok final_text ->
  nonempty (strip final_text) = true ->
  _handle_message s (JObject fields)
  = Ok (set_text_inserter s
          (end_typing_session (insert_text (text_inserter s) final_text))).
Proof.
  intros Hcb Hty Hex Hne. unfold _handle_message.
  rewrite Hty, Hcb, Hex. simpl Py.bind. rewrite Hne. reflexivity.
Qed.

(** C6 at the failing input: a "ready_to_stop" message without text (as
    when it carries no "lines") leaves the typing session active, where a
    final apply followed by [end_typing_session] would end it. *)
Theorem ready_to_stop_without_text_keeps_session_active
        (ws : option Socket) (connected : bool) (ti : TextInserter) :
  let s := mkSession (mkClient ws connected (Some InsertTextMethod))
                     (start_typing_session ti) in
  _handle_message s (JObject [(py "type", JString (py "ready_to_stop"))]) = Ok s
  /\ _handle_message s (message (Some (py "ready_to_stop")) [[]]) = Ok s
  /\ is_typing_session_active (text_inserter s) = true
  /\ is_typing_session_active
       (end_typing_session (insert_text (text_inserter s) [])) = false.
Proof. cbv zeta. repeat split; reflexivity. Qed.

(** ** speech_recognition_app.py: the send loop *)

Section SendLoop.

Variable cfg : Config.

Lemma can_send_apply_link (ev : LinkEvent) (c : WebSocketClient) :
  can_send c = false -> can_send (apply_link ev c) = false.
Proof.
  unfold can_send. destruct c as [[ws|] conn cb], ev; simpl; auto.
  intros _. apply andb_false_r.
Qed.

(** The two ways a send from the loop can go. *)
Lemma task_send_cases (mk : bytes -> Sent) (st : Stream) (data : bytes) :
  let st' := fst (task_send mk st data) in
  accumulated_audio st' = accumulated_audio st
  /\ last_send_time st' = last_send_time st
  /\ wav_header_sent st' = wav_header_sent st
  /\ ((can_send (ws_client st) = true
       /\ snd (task_send mk st data) = Ok tt
       /\ sent st' = sent st ++ [mk data]
       /\ can_send (ws_client st') = true)
      \/ (can_send (ws_client st) = false
          /\ sent st' = sent st
          /\ can_send (ws_client st') = false)).
Proof.
  unfold task_send, send_audio, ws_send, can_send.
  destruct st as [acc t hs [[[w a]|] conn cb] log]; simpl.
  - destruct conn, a; simpl; repeat split; auto.
  - repeat split; auto.
Qed.

Lemma send_header_invariant (st st' : Stream) (oe : option exn) :
  wav_header_sent st = false -> sent st = [] ->
  send_header cfg st = (st', oe) ->
  accumulated_audio st' = accumulated_audio st
  /\ (oe = None -> wav_header_sent st' = true)
  /\ loop_invariant cfg st'.
Proof.
  intros Hh Hs. unfold send_header. fold (the_header cfg).
  destruct (the_header cfg) as [h|e] eqn:Eh.
  - pose proof (task_send_cases HeaderFrame st h) as (Ha & _ & Hw & Hc).
    destruct (task_send HeaderFrame st h) as [st1 r]; simpl in *.
    destruct r as [[]|e]; intros E; inversion E; subst; clear E; simpl.
    + split; [exact Ha|]. split; [reflexivity|].
      destruct Hc as [(_ & _ & Hsent & _) | (_ & Hsent & Hcs)].
      * right. split; [reflexivity|]. exists h, []. rewrite Hsent, Hs. auto.
      * left. rewrite Hsent, Hs. auto.
    + split; [exact Ha|]. split; [discriminate|].
      destruct Hc as [(_ & Hr & _) | (_ & Hsent & Hcs)]; [discriminate|].
      left. rewrite Hsent, Hs, Hw, Hh. split; [reflexivity | discriminate].
  - intros E; inversion E; subst. split; [reflexivity|]. split; [discriminate|].
    left. rewrite Hs, Hh. split; [reflexivity | discriminate].
Qed.

Lemma payload_send_invariant (st : Stream) (data : bytes) :
  wav_header_sent st = true -> loop_invariant cfg st ->
  loop_invariant cfg (fst (task_send PcmFrame st data)).
Proof.
  intros Hh Hinv.
  pose proof (task_send_cases PcmFrame st data) as (_ & _ & Hw & Hc).
  destruct (task_send PcmFrame st data) as [st1 r]; simpl in *.
  destruct Hinv as [[Hs Hcs] | (_ & h & ps & Eh & Hs)].
  - specialize (Hcs Hh).
    destruct Hc as [(Hc & _) | (_ & Hsent & Hc1)]; [congruence|].
    left. rewrite Hsent. auto.
  - right. split; [congruence|]. exists h.
    destruct Hc as [(_ & _ & Hsent & _) | (_ & Hsent & _)].
    + exists (ps ++ [data]). rewrite Hsent, Hs, map_app. auto.
    + exists ps. rewrite Hsent. auto.
Qed.

Lemma iteration_invariant (st : Stream) (tk : Tick) :
  loop_invariant cfg st -> loop_invariant cfg (fst (iteration cfg st tk)).
Proof.
  intros Hinv. unfold iteration.
  set (st0 := mkStream (accumulated_audio st) (last_send_time st)
                       (wav_header_sent st)
                       (apply_link (link tk) (ws_client st)) (sent st)).
  assert (H0 : loop_invariant cfg st0).
  { destruct Hinv as [[Hs Hcs] | H]; [left | right; exact H].
    split; [exact Hs|]. intros Hh. apply can_send_apply_link, Hcs, Hh. }
  clearbody st0. clear Hinv st.
  destruct (audio tk) as [audio_data|]; [|exact H0].
  destruct (nonempty_bytes audio_data); [|exact H0].
  set (st1 := mkStream (accumulated_audio st0 ++ audio_data)
                       (last_send_time st0) (wav_header_sent st0)
                       (ws_client st0) (sent st0)).
  assert (H1 : loop_invariant cfg st1) by exact H0.
  clearbody st1. clear H0 st0.
  destruct (1000 <=? clock tk - last_send_time st1)%Z; [|exact H1].
  destruct (nonempty_bytes (accumulated_audio st1)); [|exact H1].
  destruct (wav_header_sent st1) eqn:Hh; simpl negb; cbv iota.
  - pose proof (payload_send_invariant st1 (accumulated_audio st1) Hh H1) as H2.
    pose proof (task_send_cases PcmFrame st1 (accumulated_audio st1))
      as (_ & _ & Hw & _).
    destruct (task_send PcmFrame st1 (accumulated_audio st1)) as [st2 r].
    simpl in *. destruct r; simpl; exact H2.
  - assert (Hs : sent st1 = []).
    { destruct H1 as [[Hs _] | (Hh' & _)]; [exact Hs | congruence]. }
    destruct (send_header cfg st1) as [st2 oe] eqn:E.
    destruct (send_header_invariant st1 st2 oe Hh Hs E) as (Ha & Hsent & H2).
    destruct oe as [e|]; [exact H2|].
    specialize (Hsent eq_refl).
    pose proof (payload_send_invariant st2 (accumulated_audio st2) Hsent H2) as H3.
    destruct (task_send PcmFrame st2 (accumulated_audio st2)) as [st3 r].
    simpl in *. destruct r; simpl; exact H3.
Qed.

Lemma stream_loop_invariant (ticks : list Tick) (st : Stream) :
  loop_invariant cfg st -> loop_invariant cfg (fst (stream_loop cfg st ticks)).
Proof.
  revert st; induction ticks as [|tk ticks IH]; intros st H; [exact H|].
  simpl. pose proof (iteration_invariant st tk H) as H1.
  destruct (iteration cfg st tk) as [st1 [e|]]; [exact H1|].
  apply IH; exact H1.
Qed.

Lemma count_headers_payloads (ps : list bytes) :
  count_headers (List.map PcmFrame ps) = 0.
Proof. unfold count_headers. induction ps; simpl; auto. Qed.

Lemma to_bytes_length (n : Z) (len : nat) (bs : bytes) :
  to_bytes n len = Ok bs -> length bs = len.
Proof.
  unfold to_bytes. destruct (_ || _); [discriminate|].
  intros E; inversion E. apply le_digits_length.
Qed.

Lemma create_wav_header_length (sr ch sw : Z) (h : bytes) :
  create_wav_header sr ch sw = Ok h -> length h = 44.
Proof.
  unfold create_wav_header.
  change (to_bytes 4294967295 4) with (Ok [xff; xff; xff; xff]).
  change (to_bytes 16 4) with (Ok [x10; x00; x00; x00]).
  change (to_bytes 1 2) with (Ok [x01; x00]).
  simpl Py.bind.
  destruct (to_bytes ch 2) as [f1|] eqn:E1; [|discriminate].
  destruct (to_bytes sr 4) as [f2|] eqn:E2; [|discriminate].
  destruct (to_bytes (sr * ch * sw) 4) as [f3|] eqn:E3; [|discriminate].
  destruct (to_bytes (ch * sw) 2) as [f4|] eqn:E4; [|discriminate].
  destruct (to_bytes (sw * 8) 2) as [f5|] eqn:E5; [|discriminate].
  simpl Py.bind. intros E; inversion E; subst h.
  apply to_bytes_length in E1, E2, E3, E4, E5.
  cbn [length]. rewrite !length_app, E1, E2, E3, E4, E5. reflexivity.
Qed.

(** The frames of a whole run: those of the loop, then at most one
    payload frame from the flush after the loop. *)
Lemma stream_audio_frames (c : WebSocketClient) (start_time : Z)
      (ticks : list Tick) (ending : Ending) :
  exists in_loop after_loop,
    sent (fst (_stream_audio cfg c start_time ticks ending))
    = in_loop ++ after_loop
    /\ in_loop
       = sent (fst (stream_loop cfg (mkStream [] start_time false c []) ticks))
    /\ (after_loop = []
        \/ ending = RecordingStopped /\ exists data, after_loop = [PcmFrame data]).
Proof.
  unfold _stream_audio.
  destruct (stream_loop cfg _ ticks) as [st [e|]]; simpl.
  - exists (sent st), []. rewrite app_nil_r. auto.
  - destruct ending.
    + destruct (nonempty_bytes (accumulated_audio st)).
      * pose proof (task_send_cases PcmFrame st (accumulated_audio st))
          as (_ & _ & _ & Hc).
        destruct (task_send PcmFrame st (accumulated_audio st)) as [st1 r].
        simpl in *.
        destruct Hc as [(_ & _ & Hs & _) | (_ & Hs & _)].
        -- exists (sent st), [PcmFrame (accumulated_audio st)].
           destruct r; simpl; rewrite Hs; eauto 6.
        -- exists (sent st), []. rewrite app_nil_r.
           destruct r; simpl; rewrite Hs; auto.
      * exists (sent st), []. rewrite app_nil_r. auto.
    + exists (sent st), []. rewrite app_nil_r. auto.
Qed.

(** A send from the loop on a client that can send. *)
Lemma task_send_can_send (mk : bytes -> Sent) (st : Stream) (data : bytes) :
  can_send (ws_client st) = true ->
  exists c',
    can_send c' = true
    /\ task_send mk st data
       = (mkStream (accumulated_audio st) (last_send_time st)
                   (wav_header_sent st) c' (sent st ++ [mk data]), Ok tt).
Proof.
  unfold task_send, send_audio, ws_send, can_send.
  destruct st as [acc t hs [[[w a]|] conn cb] log]; simpl; [|discriminate].
  destruct conn, a; simpl; try discriminate.
  intros _. eexists. split; [|reflexivity]. reflexivity.
Qed.

Lemma stream_loop_app (pre rest : list Tick) (st st1 : Stream) :
  stream_loop cfg st pre = (st1, None) ->
  stream_loop cfg st (pre ++ rest) = stream_loop cfg st1 rest.
Proof.
  revert st; induction pre as [|tk pre IH]; intros st H; simpl in *.
  - inversion H; reflexivity.
  - destruct (iteration cfg st tk) as [st2 [e|]]; [discriminate|].
    apply IH; exact H.
Qed.

(** An iteration that does not reach the flush only buffers the chunk. *)
Lemma iteration_no_flush (st : Stream) (tk : Tick) :
  flush_due (last_send_time st) tk = false ->
  iteration cfg st tk
  = (mkStream (accumulated_audio st
               ++ match audio tk with Some data => data | None => [] end)
              (last_send_time st) (wav_header_sent st)
              (apply_link (link tk) (ws_client st)) (sent st), None).
Proof.
  unfold iteration, flush_due.
  destruct (audio tk) as [[|x audio_data]|]; simpl;
    rewrite ?app_nil_r; try reflexivity.
  intros H. rewrite H. reflexivity.
Qed.

Lemma stream_loop_no_flush (ticks : list Tick) (st : Stream) :
  no_flush_due (last_send_time st) ticks = true ->
  stream_loop cfg st ticks
  = (mkStream (accumulated_audio st ++ captured ticks) (last_send_time st)
              (wav_header_sent st) (link_after (ws_client st) ticks) (sent st),
     None).
Proof.
  unfold no_flush_due.
  revert st; induction ticks as [|tk ticks IH]; intros st H.
  - simpl. rewrite app_nil_r. destruct st; reflexivity.
  - simpl in H. apply andb_true_iff in H as [H1 H2]. apply negb_true_iff in H1.
    simpl stream_loop. rewrite (iteration_no_flush st tk H1).
    rewrite (IH (mkStream (accumulated_audio st
                           ++ match audio tk with
                              | Some data => data
                              | None => []
                              end)
                          (last_send_time st) (wav_header_sent st)
                          (apply_link (link tk) (ws_client st)) (sent st)) H2).
    simpl. rewrite <- app_assoc. reflexivity.
Qed.

(** The first flush on a client that can send: the header, then the
    audio buffered so far. *)
Lemma iteration_first_flush (st : Stream) (tk : Tick) (h : bytes) :
  wav_header_sent st = false ->
  flush_due (last_send_time st) tk = true ->
  can_send (apply_link (link tk) (ws_client st)) = true ->
  the_header cfg = Ok h ->
  exists st',
    iteration cfg st tk = (st', None)
    /\ sent st'
       = sent st
         ++ [HeaderFrame h;
             PcmFrame (accumulated_audio st
                       ++ match audio tk with Some data => data | None => [] end)]
    /\ wav_header_sent st' = true.
Proof.
  intros Hh Hf Hc Eh. unfold iteration, flush_due in *.
  destruct (audio tk) as [[|x audio_data]|]; simpl in Hf; try discriminate.
  simpl nonempty_bytes. cbv iota.
  cbn [accumulated_audio last_send_time wav_header_sent ws_client sent].
  rewrite Hf, Hh.
  replace (nonempty_bytes (accumulated_audio st ++ x :: audio_data)) with true
    by (destruct (accumulated_audio st); reflexivity).
  simpl negb. cbv iota. unfold send_header. fold (the_header cfg). rewrite Eh.
  match goal with
  | |- context [task_send HeaderFrame ?s h] =>
      destruct (task_send_can_send HeaderFrame s h Hc) as (c1 & Hc1 & E1)
  end.
  rewrite E1.
  cbn [accumulated_audio last_send_time wav_header_sent ws_client sent].
  match goal with
  | |- context [task_send PcmFrame ?s ?d] =>
      destruct (task_send_can_send PcmFrame s d Hc1) as (c2 & Hc2 & E2)
  end.
  rewrite E2.
  cbn [accumulated_audio last_send_time wav_header_sent ws_client sent].
  eexists. split; [reflexivity|]. simpl. rewrite <- app_assoc. auto.
Qed.

(** The loop only ever adds to the frames sent. *)
Lemma iteration_sent_extends (st : Stream) (tk : Tick) :
  exists more, sent (fst (iteration cfg st tk)) = sent st ++ more.
Proof.
  assert (Hsame : forall stx : Stream,
             sent stx = sent st -> exists more, sent stx = sent st ++ more).
  { intros stx E. exists []. rewrite app_nil_r. exact E. }
  assert (Hpay : forall stx clk,
             (exists more, sent stx = sent st ++ more) ->
             exists more,
               sent (fst (match task_send PcmFrame stx (accumulated_audio stx) with
                          | (st2, Raise e) => (st2, Some e)
                          | (st2, Ok _) =>
                              (mkStream [] clk (wav_header_sent st2)
                                        (ws_client st2) (sent st2), None)
                          end))
               = sent st ++ more).
  { intros stx clk [m Hm].
    destruct (task_send_cases PcmFrame stx (accumulated_audio stx))
      as (_ & _ & _ & Hc).
    destruct (task_send PcmFrame stx (accumulated_audio stx)) as [st2 r].
    cbn [fst snd] in Hc.
    assert (Hs : exists more, sent st2 = sent st ++ more).
    { destruct Hc as [(_ & _ & Hs & _) | (_ & Hs & _)]; rewrite Hs, Hm.
      - rewrite <- app_assoc. eexists; reflexivity.
      - eexists; reflexivity. }
    destruct r; exact Hs. }
  unfold iteration.
  destruct (audio tk) as [audio_data|]; [|apply Hsame; reflexivity].
  destruct (nonempty_bytes audio_data); [|apply Hsame; reflexivity].
  cbn [accumulated_audio last_send_time wav_header_sent ws_client sent].
  destruct (1000 <=? clock tk - last_send_time st)%Z;
    [|apply Hsame; reflexivity].
  destruct (nonempty_bytes (accumulated_audio st ++ audio_data));
    [|apply Hsame; reflexivity].
  destruct (wav_header_sent st); simpl negb; cbv iota.
  - apply Hpay. apply Hsame. reflexivity.
  - unfold send_header.
    destruct (create_wav_header _ _ _) as [h|e]; [|apply Hsame; reflexivity].
    match goal with
    | |- context [task_send HeaderFrame ?s h] =>
        destruct (task_send_cases HeaderFrame s h) as (_ & _ & _ & Hc);
        destruct (task_send HeaderFrame s h) as [st2 r]
    end.
    cbn [fst snd sent] in Hc.
    assert (Hs : exists more, sent st2 = sent st ++ more).
    { destruct Hc as [(_ & _ & Hs & _) | (_ & Hs & _)]; rewrite Hs.
      - eexists; reflexivity.
      - exists []. rewrite app_nil_r. reflexivity. }
    destruct r as [[]|e]; [|exact Hs].
    apply (Hpay (mkStream (accumulated_audio st2) (last_send_time st2) true
                          (ws_client st2) (sent st2))).
    exact Hs.
Qed.

Lemma stream_loop_sent_extends (ticks : list Tick) (st : Stream) :
  exists more, sent (fst (stream_loop cfg st ticks)) = sent st ++ more.
Proof.
  revert st; induction ticks as [|tk ticks IH]; intros st; simpl.
  - exists []. rewrite app_nil_r. reflexivity.
  - destruct (iteration_sent_extends st tk) as [m1 H1].
    destruct (iteration cfg st tk) as [st1 [e|]]; simpl in *.
    + exists m1. exact H1.
    + destruct (IH st1) as [m2 H2]. exists (m1 ++ m2).
      rewrite H2, H1, app_assoc. reflexivity.
Qed.

(** A session whose first flush falls on a client that can send: the
    loop's frames are the header, the audio buffered up to that flush, and
    payload frames only. *)
Lemma stream_loop_first_flush (c : WebSocketClient) (start_time : Z)
      (pre post : list Tick) (tk : Tick) (h : bytes) :
  no_flush_due start_time pre = true ->
  flush_due start_time tk = true ->
  can_send (link_after c (pre ++ [tk])) = true ->
  the_header cfg = Ok h ->
  exists payloads,
    sent (fst (stream_loop cfg (mkStream [] start_time false c [])
                           (pre ++ tk :: post)))
    = HeaderFrame h :: PcmFrame (captured (pre ++ [tk]))
      :: List.map PcmFrame payloads.
Proof.
  intros Hpre Htk Hc Eh.
  pose proof (stream_loop_no_flush pre (mkStream [] start_time false c []) Hpre)
    as E0.
  cbn [accumulated_audio last_send_time wav_header_sent ws_client sent app] in E0.
  rewrite (stream_loop_app pre (tk :: post) _ _ E0).
  unfold link_after in Hc. rewrite fold_left_app in Hc. simpl in Hc.
  fold (link_after c pre) in Hc.
  destruct (iteration_first_flush
              (mkStream (captured pre) start_time false (link_after c pre) [])
              tk h eq_refl Htk Hc Eh) as (st1 & E1 & Hs1 & Hh1).
  simpl stream_loop. rewrite E1.
  cbn [accumulated_audio sent app] in Hs1.
  assert (Hcap : captured pre
                 ++ match audio tk with Some data => data | None => [] end
                 = captured (pre ++ [tk])).
  { unfold captured. rewrite flat_map_app. simpl. rewrite app_nil_r.
    reflexivity. }
  rewrite Hcap in Hs1.
  assert (Hinv : loop_invariant cfg (fst (stream_loop cfg st1 post))).
  { apply stream_loop_invariant. right. split; [exact Hh1|].
    exists h, [captured (pre ++ [tk])]. split; [exact Eh | exact Hs1]. }
  destruct (stream_loop_sent_extends post st1) as [more Hm].
  rewrite Hs1 in Hm.
  destruct Hinv as [[Hs _] | (_ & h' & ps & Eh' & Hs)].
  - rewrite Hs in Hm. discriminate.
  - rewrite Hs in Hm. simpl in Hm.
    destruct ps as [|p ps]; [discriminate|]. simpl in Hm.
    inversion Hm; subst. exists ps. rewrite Hs. reflexivity.
Qed.

(** On a client that cannot send, the loop puts nothing on the socket,
    and the client stays that way. *)
Lemma iteration_cannot_send (st : Stream) (tk : Tick) :
  can_send (apply_link (link tk) (ws_client st)) = false ->
  sent (fst (iteration cfg st tk)) = sent st
  /\ can_send (ws_client (fst (iteration cfg st tk))) = false.
Proof.
  intros Hc.
  assert (Hpay : forall stx clk,
             sent stx = sent st -> can_send (ws_client stx) = false ->
             let r := match task_send PcmFrame stx (accumulated_audio stx) with
                      | (st2, Raise e) => (st2, Some e)
                      | (st2, Ok _) =>
                          (mkStream [] clk (wav_header_sent st2)
                                    (ws_client st2) (sent st2), None)
                      end in
             sent (fst r) = sent st /\ can_send (ws_client (fst r)) = false).
  { intros stx clk Hs Hx.
    destruct (task_send_cases PcmFrame stx (accumulated_audio stx))
      as (_ & _ & _ & [(Hy & _) | (_ & Hs' & Hc')]); [congruence|].
    destruct (task_send PcmFrame stx (accumulated_audio stx)) as [st2 r].
    cbn [fst snd] in Hs', Hc'. rewrite Hs in Hs'.
    destruct r; simpl; auto. }
  unfold iteration.
  destruct (audio tk) as [audio_data|]; [|simpl; auto].
  destruct (nonempty_bytes audio_data); [|simpl; auto].
  cbn [accumulated_audio last_send_time wav_header_sent ws_client sent].
  destruct (1000 <=? clock tk - last_send_time st)%Z; [|simpl; auto].
  destruct (nonempty_bytes (accumulated_audio st ++ audio_data));
    [|simpl; auto].
  destruct (wav_header_sent st); simpl negb; cbv iota.
  - apply Hpay; [reflexivity | exact Hc].
  - unfold send_header.
    destruct (create_wav_header _ _ _) as [h|e]; [|simpl; auto].
    match goal with
    | |- context [task_send HeaderFrame ?s h] =>
        destruct (task_send_cases HeaderFrame s h)
          as (_ & _ & _ & [(Hy & _) | (_ & Hs' & Hc')]);
        [cbn [ws_client] in Hy; congruence|];
        destruct (task_send HeaderFrame s h) as [st2 r]
    end.
    cbn [fst snd sent] in Hs', Hc'.
    destruct r as [[]|e]; [|simpl; auto].
    apply (Hpay (mkStream (accumulated_audio st2) (last_send_time st2) true
                          (ws_client st2) (sent st2))); assumption.
Qed.

Lemma stream_loop_cannot_send (ticks : list Tick) (st : Stream) :
  can_send (ws_client st) = false ->
  sent (fst (stream_loop cfg st ticks)) = sent st
  /\ can_send (ws_client (fst (stream_loop cfg st ticks))) = false.
Proof.
  revert st; induction ticks as [|tk ticks IH]; intros st Hc; simpl; [auto|].
  destruct (iteration_cannot_send st tk
              (can_send_apply_link (link tk) (ws_client st) Hc)) as [Hs1 Hc1].
  destruct (iteration cfg st tk) as [st1 [e|]]; simpl in *; [auto|].
  destruct (IH st1 Hc1) as [Hs2 Hc2]. rewrite Hs2. auto.
Qed.

(** The first flush when the header cannot be built: the task ends with
    the error before anything is sent. *)
Lemma iteration_header_fails (st : Stream) (tk : Tick) (e : exn) :
  wav_header_sent st = false ->
  flush_due (last_send_time st) tk = true ->
  the_header cfg = Raise e ->
  snd (iteration cfg st tk) = Some e
  /\ sent (fst (iteration cfg st tk)) = sent st.
Proof.
  intros Hh Hf Eh. unfold iteration, flush_due in *.
  destruct (audio tk) as [[|x audio_data]|]; simpl in Hf; try discriminate.
  simpl nonempty_bytes. cbv iota.
  cbn [accumulated_audio last_send_time wav_header_sent ws_client sent].
  rewrite Hf, Hh.
  replace (nonempty_bytes (accumulated_audio st ++ x :: audio_data)) with true
    by (destruct (accumulated_audio st); reflexivity).
  simpl negb. cbv iota. unfold send_header. fold (the_header cfg). rewrite Eh.
  split; reflexivity.
Qed.

(** A session whose first flush cannot put the header on the socket
    sends nothing at all. *)
Lemma stream_audio_first_flush_fails (c : WebSocketClient) (start_time : Z)
      (pre post : list Tick) (tk : Tick) (ending : Ending) :
  no_flush_due start_time pre = true ->
  flush_due start_time tk = true ->
  (can_send (link_after c (pre ++ [tk])) = false
   \/ exists e, the_header cfg = Raise e) ->
  sent (fst (_stream_audio cfg c start_time (pre ++ tk :: post) ending)) = [].
Proof.
  intros Hpre Htk Hfail. unfold _stream_audio.
  pose proof (stream_loop_no_flush pre (mkStream [] start_time false c []) Hpre)
    as E0.
  cbn [accumulated_audio last_send_time wav_header_sent ws_client sent app] in E0.
  rewrite (stream_loop_app pre (tk :: post) _ _ E0).
  simpl stream_loop.
  destruct Hfail as [Hc | [e Eh]].
  - unfold link_after in Hc. rewrite fold_left_app in Hc. simpl in Hc.
    fold (link_after c pre) in Hc.
    destruct (iteration_cannot_send
                (mkStream (captured pre) start_time false (link_after c pre) [])
                tk Hc) as [Hs1 Hc1].
    destruct (iteration cfg _ tk) as [st1 [e|]]; cbn [fst snd] in *;
      [exact Hs1|].
    destruct (stream_loop_cannot_send post st1 Hc1) as [Hs2 Hc2].
    rewrite Hs1 in Hs2.
    destruct (stream_loop cfg st1 post) as [st2 [e|]]; cbn [fst snd] in *;
      [exact Hs2|].
    destruct ending; [|exact Hs2].
    destruct (nonempty_bytes (accumulated_audio st2)); [|exact Hs2].
    destruct (task_send_cases PcmFrame st2 (accumulated_audio st2))
      as (_ & _ & _ & [(Hy & _) | (_ & Hs3 & _)]); [congruence|].
    destruct (task_send PcmFrame st2 (accumulated_audio st2)) as [st3 r].
    cbn [fst snd] in Hs3. rewrite Hs2 in Hs3. destruct r; exact Hs3.
  - destruct (iteration_header_fails
                (mkStream (captured pre) start_time false (link_after c pre) [])
                tk e eq_refl Htk Eh) as [He Hs1].
    destruct (iteration cfg _ tk) as [st1 oe]; cbn [fst snd] in *.
    subst oe. exact Hs1.
Qed.

End SendLoop.

(** A connected client, as the send loop finds it at the start of a
    session. *)
Example two_flushes :
  let c := mkClient (Some (mkSocket [] true)) true (Some InsertTextMethod) in
  let cfg := mkConfig 16000 1 2 10000 in
  List.map is_header
    (sent (fst (_stream_audio cfg c 0
                  [mkTick Steady (Some (b "aa")) 1000; mkTick Steady None 1500;
                   mkTick Steady (Some (b "bb")) 2000] TaskCancelled)))
  = [true; false; false].
Proof. reflexivity. Qed.

(** The flush after the loop does not look at [wav_header_sent]: when the
    loop sees the recording stopped before its first flush, the buffered
    audio is sent with no header before it. *)
Example final_flush_without_header :
  let c := mkClient (Some (mkSocket [] true)) true (Some InsertTextMethod) in
  let cfg := mkConfig 16000 1 2 10000 in
  sent (fst (_stream_audio cfg c 0 [mkTick Steady (Some (b "aa")) 500]
                           RecordingStopped))
  = [PcmFrame (b "aa")].
Proof. reflexivity. Qed.

(** C4, as stated: false.  A session stopped before the first flush
    (here after 0.3 s without a chunk, or cancelled after 0.5 s with one
    chunk buffered) sends no header at all. *)
Lemma short_session_sends_no_header :
  let c := mkClient (Some (mkSocket [] true)) true (Some InsertTextMethod) in
  let cfg := mkConfig 16000 1 2 10000 in
  count_headers
    (sent (fst (_stream_audio cfg c 0 [mkTick Steady None 300] RecordingStopped)))
  = 0
  /\ count_headers
       (sent (fst (_stream_audio cfg c 0 [mkTick Steady (Some (b "aa")) 500]
                                 TaskCancelled)))
     = 0.
Proof. split; reflexivity. Qed.

(** C4 (amended): in every session the send loop emits the stream header
    at most once, and a header it emits is [create_wav_header] of the
    configured rate, channels and sample width, 44 bytes, hence the same
    bytes in every session with these values; the frames sent inside the
    loop are either none or the header followed by payload frames only,
    and after the loop at most one more payload frame is sent.  The
    header is emitted exactly once, as the first frame and followed at
    once by the audio buffered so far, in every session in which a flush
    falls due (a chunk arrives a second or more after the start) while
    the client can send and the header can be built; when the first
    flush falls on a client that cannot send, or the header cannot be
    built, the session sends nothing; in every session in which no flush
    falls due, no header is emitted and the loop sends nothing. *)
Theorem stream_audio_header_first
        (cfg : Config) (c : WebSocketClient) (start_time : Z)
        (ticks : list Tick) (ending : Ending) :
  let frames := sent (fst (_stream_audio cfg c start_time ticks ending)) in
  count_headers frames <= 1
  /\ (forall data, In (HeaderFrame data) frames ->
        create_wav_header (rate cfg) (channels cfg) (sample_width cfg) = Ok data
        /\ length data = 44)
  /\ (exists in_loop after_loop,
        frames = in_loop ++ after_loop
        /\ in_loop
           = sent (fst (stream_loop cfg (mkStream [] start_time false c []) ticks))
        /\ (in_loop = []
            \/ exists h payloads,
                 create_wav_header (rate cfg) (channels cfg) (sample_width cfg)
                 = Ok h
                 /\ in_loop = HeaderFrame h :: List.map PcmFrame payloads)
        /\ (after_loop = []
            \/ ending = RecordingStopped
               /\ exists data, after_loop = [PcmFrame data]))
  /\ (forall pre tk post h,
        ticks = pre ++ tk :: post ->
        no_flush_due start_time pre = true ->
        flush_due start_time tk = true ->
        can_send (link_after c (pre ++ [tk])) = true ->
        create_wav_header (rate cfg) (channels cfg) (sample_width cfg) = Ok h ->
        count_headers frames = 1
        /\ exists payloads,
             frames = HeaderFrame h :: PcmFrame (captured (pre ++ [tk]))
                      :: List.map PcmFrame payloads)
  /\ (no_flush_due start_time ticks = true ->
        count_headers frames = 0
        /\ sent (fst (stream_loop cfg (mkStream [] start_time false c []) ticks))
           = [])
  /\ (forall pre tk post,
        ticks = pre ++ tk :: post ->
        no_flush_due start_time pre = true ->
        flush_due start_time tk = true ->
        (can_send (link_after c (pre ++ [tk])) = false
         \/ exists e,
              create_wav_header (rate cfg) (channels cfg) (sample_width cfg)
              = Raise e) ->
        frames = []).
Proof.
  intros frames.
  destruct (stream_audio_frames cfg c start_time ticks ending)
    as (in_loop & after_loop & Ef & El & Ha).
  fold frames in Ef.
  assert (Hinv : loop_invariant cfg
                   (fst (stream_loop cfg (mkStream [] start_time false c []) ticks))).
  { apply stream_loop_invariant. left. split; [reflexivity | discriminate]. }
  assert (Hl : in_loop = []
               \/ exists h payloads,
                    the_header cfg = Ok h
                    /\ in_loop = HeaderFrame h :: List.map PcmFrame payloads).
  { rewrite El. destruct Hinv as [[Hs _] | (_ & h & ps & Eh & Hs)];
      [left; exact Hs | right; exists h, ps; auto]. }
  assert (Hpay : exists ps, after_loop = List.map PcmFrame ps).
  { destruct Ha as [-> | (_ & data & ->)]; [exists [] | exists [data]]; reflexivity. }
  destruct Hpay as [qs Hq].
  split; [|split; [|split; [|split; [|split]]]].
  - rewrite Ef, Hq. destruct Hl as [-> | (h & ps & _ & ->)].
    + simpl. rewrite count_headers_payloads. lia.
    + rewrite <- app_comm_cons, <- map_app. unfold count_headers. simpl.
      fold (count_headers (List.map PcmFrame (ps ++ qs))).
      rewrite count_headers_payloads. lia.
  - intros data Hin. rewrite Ef, Hq in Hin.
    assert (Hno : forall l, ~ In (HeaderFrame data) (List.map PcmFrame l)).
    { intros l H. apply in_map_iff in H as (x & Hx & _). discriminate. }
    destruct Hl as [-> | (h & ps & Eh & ->)].
    + exfalso. exact (Hno _ Hin).
    + rewrite <- app_comm_cons, <- map_app in Hin. destruct Hin as [E | Hin].
      * inversion E; subst. split; [exact Eh|].
        exact (create_wav_header_length _ _ _ _ Eh).
      * exfalso. exact (Hno _ Hin).
  - exists in_loop, after_loop. auto.
  - intros pre tk post h Et Hpre Htk Hc Eh.
    destruct (stream_loop_first_flush cfg c start_time pre post tk h
                Hpre Htk Hc Eh) as [ps Hps].
    rewrite <- Et, <- El in Hps.
    assert (E : frames = HeaderFrame h :: PcmFrame (captured (pre ++ [tk]))
                         :: List.map PcmFrame (ps ++ qs)).
    { rewrite Ef, Hps, Hq, map_app. reflexivity. }
    split; [|exists (ps ++ qs); exact E].
    rewrite E. unfold count_headers. simpl.
    fold (count_headers (List.map PcmFrame (ps ++ qs))).
    rewrite count_headers_payloads. reflexivity.
  - intros Hno.
    pose proof (stream_loop_no_flush cfg ticks
                  (mkStream [] start_time false c []) Hno) as E0.
    assert (Ein : in_loop = []) by (rewrite El, E0; reflexivity).
    split; [|rewrite <- El; exact Ein].
    rewrite Ef, Ein, Hq. simpl. apply count_headers_payloads.
  - intros pre tk post Et Hpre Htk Hfail. unfold frames. rewrite Et.
    exact (stream_audio_first_flush_fails cfg c start_time pre post tk ending
             Hpre Htk Hfail).
Qed.

(** A session of 2.5 s on a connected client: a chunk buffered at 0.4 s,
    the first flush at 1.1 s, a second flush at 2.2 s. *)
Lemma stream_audio_header_first_witness :
  let c := mkClient (Some (mkSocket [] true)) true (Some InsertTextMethod) in
  let cfg := mkConfig 16000 1 2 10000 in
  let ticks := [mkTick Steady (Some (b "aa")) 400;
                mkTick Steady (Some (b "bb")) 1100;
                mkTick Steady None 1500;
                mkTick Steady (Some (b "cc")) 2200] in
  let frames := sent (fst (_stream_audio cfg c 0 ticks TaskCancelled)) in
  count_headers frames = 1
  /\ List.map frame_bytes frames
     = [match create_wav_header 16000 1 2 with Ok h => h | Raise _ => [] end;
        b "aabb"; b "cc"].
Proof.
  cbv zeta.
  destruct (stream_audio_header_first
              (mkConfig 16000 1 2 10000)
              (mkClient (Some (mkSocket [] true)) true (Some InsertTextMethod))
              0
              [mkTick Steady (Some (b "aa")) 400;
               mkTick Steady (Some (b "bb")) 1100;
               mkTick Steady None 1500;
               mkTick Steady (Some (b "cc")) 2200]
              TaskCancelled) as (_ & _ & _ & H & _ & _).
  destruct (H [mkTick Steady (Some (b "aa")) 400]
              (mkTick Steady (Some (b "bb")) 1100)
              [mkTick Steady None 1500; mkTick Steady (Some (b "cc")) 2200]
              (match create_wav_header 16000 1 2 with Ok h => h | Raise _ => [] end)
              eq_refl eq_refl eq_refl eq_refl eq_refl) as [Hcount _].
  exact (conj Hcount eq_refl).
Defined.

(** ** speech_recognition_app.py: the drain loop *)

Section Drain.

Variables (max_wait start : Z).

Lemma reading_lower_bound (d : Z) (polls : list Poll) (now : Z) (k : nat) :
  (0 <= d)%Z -> sleeps_last d now polls -> k <= length polls ->
  (now + d * Z.of_nat k <= reading now polls k)%Z.
Proof.
  intros Hd. revert now k; induction polls as [|p polls IH]; intros now k Hs Hk.
  - simpl in Hk. assert (k = 0) by lia. subst k. simpl. lia.
  - destruct k as [|k]; [simpl; lia|]. destruct Hs as [H1 H2].
    simpl reading. simpl in Hk.
    specialize (IH (woke_at p) k H2 ltac:(lia)). lia.
Qed.

(** What each way of leaving the loop tells about the polls. *)
Lemma drain_loop_ends (polls : list Poll) (k0 : nat) (now : Z) :
  match drain_loop max_wait start k0 now polls with
  | StillWaiting =>
      (forall i, i <= length polls -> (reading now polls i - start < max_wait)%Z)
  | TimedOut k t =>
      exists j, k = k0 + j /\ j <= length polls
        /\ t = reading now polls j
        /\ (max_wait <= t - start)%Z
        /\ (forall i, i < j -> (reading now polls i - start < max_wait)%Z)
        /\ forallb session_active (firstn j polls) = true
  | StoppedEarly k t =>
      exists j, k = k0 + S j /\ j < length polls
        /\ t = reading now polls (S j)
        /\ (forall i, i <= j -> (reading now polls i - start < max_wait)%Z)
        /\ forallb session_active (firstn j polls) = true
        /\ option_map session_active (nth_error polls j) = Some false
  end.
Proof.
  revert k0 now; induction polls as [|p polls IH]; intros k0 now.
  - simpl drain_loop. destruct (now - start <? max_wait)%Z eqn:E; cbv iota beta.
    + apply Z.ltb_lt in E. intros i _. destruct i; exact E.
    + apply Z.ltb_ge in E. exists 0. simpl. repeat split; auto; lia.
  - simpl drain_loop. destruct (now - start <? max_wait)%Z eqn:E; cbv iota beta.
    + apply Z.ltb_lt in E. destruct (session_active p) eqn:Ea; simpl negb; cbv iota.
      * specialize (IH (S k0) (woke_at p)).
        destruct (drain_loop max_wait start (S k0) (woke_at p) polls)
          as [k t | k t |].
        -- destruct IH as (j & -> & Hj & -> & Ht & Hlt & Hact).
           exists (S j). simpl. rewrite Ea, Hact.
           repeat split; auto; try lia.
           intros [|i] Hi; [exact E | apply Hlt; lia].
        -- destruct IH as (j & -> & Hj & -> & Hlt & Hact & Hn).
           exists (S j). simpl. rewrite Ea, Hact.
           repeat split; auto; try lia.
           intros [|i] Hi; [exact E | apply Hlt; lia].
        -- intros [|i] Hi; [exact E | apply IH; simpl in Hi; lia].
      * exists 0. simpl. rewrite Ea. repeat split; auto; try lia.
        intros i Hi. assert (i = 0) by lia. subst i. exact E.
    + apply Z.ltb_ge in E. exists 0. simpl. repeat split; auto; lia.
Qed.

End Drain.

(** C9, as stated: false.  With a drain timeout of 0.25 s and sleeps of
    exactly 0.1 s the loop is left at the reading 0.3 s, after the
    timeout. *)
Lemma drain_overshoots_timeout :
  let cfg := mkConfig 16000 1 2 250 in
  let polls := [mkPoll 100 true; mkPoll 200 true; mkPoll 300 true] in
  sleeps_last 100 0 polls
  /\ drain cfg 0 polls = TimedOut 3 300
  /\ (max_wait_time cfg < 300 - 0)%Z.
Proof. cbv zeta. simpl. repeat split; lia || reflexivity. Qed.

(** C9 (amended): when every sleep of the drain loop lasts at least
    0.1 s, the loop ends within [max_wait_time / 0.1] sleeps (rounded up)
    whether or not a terminal event arrives.  It ends at the first wake-up
    at which the typing session is inactive, or at the first clock reading
    at which [max_wait_time] has elapsed, whichever comes first; at a
    time-out exit the elapsed time is at least [max_wait_time], all
    earlier readings being below it. *)
Theorem drain_ends_by_timeout_or_final
        (cfg : Config) (start : Z) (polls : list Poll) :
  sleeps_last 100 start polls ->
  (max_wait_time cfg <= 100 * Z.of_nat (length polls))%Z ->
  match drain cfg start polls with
  | StillWaiting => False
  | TimedOut k t =>
      t = reading start polls k
      /\ (max_wait_time cfg <= t - start)%Z
      /\ (forall i, i < k -> (reading start polls i - start < max_wait_time cfg)%Z)
      /\ forallb session_active (firstn k polls) = true
      /\ (k = 0 \/ (100 * (Z.of_nat k - 1) < max_wait_time cfg)%Z)
  | StoppedEarly k t =>
      exists j, k = S j
        /\ t = reading start polls k
        /\ option_map session_active (nth_error polls j) = Some false
        /\ forallb session_active (firstn j polls) = true
        /\ (forall i, i <= j -> (reading start polls i - start < max_wait_time cfg)%Z)
        /\ (100 * Z.of_nat j < max_wait_time cfg)%Z
  end.
Proof.
  intros Hs Hlen. unfold drain.
  pose proof (drain_loop_ends (max_wait_time cfg) start polls 0 start) as H.
  assert (Hb : forall k, k <= length polls ->
                 (start + 100 * Z.of_nat k <= reading start polls k)%Z).
  { intros k Hk. apply reading_lower_bound; [lia | exact Hs | exact Hk]. }
  destruct (drain_loop (max_wait_time cfg) start 0 start polls) as [k t | k t |].
  - destruct H as (j & -> & Hj & -> & Ht & Hlt & Hact). cbn [Nat.add].
    repeat split; auto.
    destruct j as [|j]; [left; reflexivity | right].
    specialize (Hlt j ltac:(lia)). specialize (Hb j ltac:(lia)). lia.
  - destruct H as (j & -> & Hj & -> & Hlt & Hact & Hn). cbn [Nat.add].
    exists j. repeat split; auto.
    specialize (Hlt j ltac:(lia)). specialize (Hb j ltac:(lia)). lia.
  - specialize (H (length polls) ltac:(lia)).
    specialize (Hb (length polls) ltac:(lia)). lia.
Qed.

Lemma drain_ends_by_timeout_or_final_witness :
  let cfg := mkConfig 16000 1 2 250 in
  let polls := [mkPoll 100 true; mkPoll 230 false; mkPoll 340 true] in
  drain cfg 0 polls = StoppedEarly 2 230
  /\ exists j, 2 = S j
       /\ 230%Z = reading 0 polls 2
       /\ option_map session_active (nth_error polls j) = Some false
       /\ forallb session_active (firstn j polls) = true
       /\ (forall i, i <= j -> (reading 0 polls i - 0 < max_wait_time cfg)%Z)
       /\ (100 * Z.of_nat j < max_wait_time cfg)%Z.
Proof.
  cbv zeta. split; [reflexivity|].
  assert (H1 : sleeps_last 100 0
                 [mkPoll 100 true; mkPoll 230 false; mkPoll 340 true])
    by (simpl; lia).
  assert (H2 : (max_wait_time (mkConfig 16000 1 2 250)
                <= 100 * Z.of_nat
                           (length [mkPoll 100 true; mkPoll 230 false;
                                    mkPoll 340 true]))%Z)
    by (simpl; lia).
  exact (drain_ends_by_timeout_or_final
           (mkConfig 16000 1 2 250) 0
           [mkPoll 100 true; mkPoll 230 false; mkPoll 340 true] H1 H2).
Defined.

(** ** text_inserter.py: further properties *)

Section CleanText.

Lemma split_from_word (w cur s : str) :
  forallb (fun c => negb (isspace c)) w = true ->
  split_from cur (w ++ s) = split_from (rev w ++ cur) s.
Proof.
  revert cur; induction w as [|c w IH]; intros cur H; [reflexivity|].
  simpl in H. apply andb_true_iff in H as [Hc Hw].
  apply negb_true_iff in Hc. simpl. rewrite Hc, (IH _ Hw), <- app_assoc.
  reflexivity.
Qed.

Lemma split_from_trailing_space (s cur : str) :
  split_from cur (s ++ [SPACE]) = split_from cur s.
Proof.
  revert cur; induction s as [|c s IH]; intros cur; simpl.
  - destruct cur; reflexivity.
  - destruct (isspace c); [destruct cur|]; rewrite IH; reflexivity.
Qed.

(** Splitting the single-space join of words gives the words back. *)
Lemma split_join_words (ws : list str) :
  Forall word ws -> split (join [SPACE] ws) = ws.
Proof.
  unfold split. induction ws as [|w ws IH]; intros H; [reflexivity|].
  inversion H as [|? ? [Hne Hw] Hws]; subst.
  assert (Hrev : forall rest, split_from (rev w) (SPACE :: rest)
                              = w :: split_from [] rest).
  { intros rest. simpl. destruct (rev w) as [|x r] eqn:E.
    - apply (f_equal (@rev char)) in E. rewrite rev_involutive in E.
      contradiction.
    - rewrite <- E, rev_involutive. reflexivity. }
  destruct ws as [|w' ws].
  - simpl. rewrite <- (app_nil_r w) at 1.
    rewrite (split_from_word w [] [] Hw), app_nil_r. simpl.
    destruct (rev w) as [|x r] eqn:E.
    + apply (f_equal (@rev char)) in E. rewrite rev_involutive in E.
      contradiction.
    + rewrite <- E, rev_involutive. reflexivity.
  - change (join [SPACE] (w :: w' :: ws))
      with (w ++ SPACE :: join [SPACE] (w' :: ws)).
    rewrite (split_from_word w [] _ Hw), app_nil_r, Hrev, (IH Hws).
    reflexivity.
Qed.

Lemma split_clean_text (text : str) : split (_clean_text text) = split text.
Proof.
  destruct (split text) as [|w ws] eqn:E.
  - rewrite (clean_text_blank text E). reflexivity.
  - assert (Hw : split text <> []) by (rewrite E; discriminate).
    rewrite (clean_text_eq text Hw), <- E.
    destruct (endswith text [SPACE]).
    + unfold split. rewrite split_from_trailing_space.
      apply split_join_words, split_words.
    + rewrite app_nil_r. apply split_join_words, split_words.
  Qed.

Lemma split_from_nil (s cur : str) :
  split_from cur s = [] -> cur = [] /\ forallb isspace s = true.
Proof.
  revert cur; induction s as [|c s IH]; intros cur; simpl.
  - destruct cur; [auto | discriminate].
  - destruct (isspace c).
    + destruct cur; [|discriminate]. intros H. split; [reflexivity|].
      apply (IH [] H).
    + intros H. apply IH in H as [H _]. discriminate.
Qed.

Lemma split_all_space (s : str) : forallb isspace s = true -> split s = [].
Proof.
  unfold split. induction s as [|c s IH]; intros H; [reflexivity|].
  simpl in H. apply andb_true_iff in H as [Hc Hs]. simpl. rewrite Hc.
  apply IH; exact Hs.
Qed.

Lemma clean_text_nonempty_split (text : str) :
  _clean_text text = [] -> split text = [].
Proof.
  intros H. destruct (split text) as [|w ws] eqn:E; [reflexivity|].
  assert (Hw : split text <> []) by (rewrite E; discriminate).
  rewrite (clean_text_eq text Hw) in H.
  pose proof (join_words_ends_nonspace [SPACE] (split text) Hw (split_words text))
    as (s' & c & Hj & _).
  rewrite Hj in H. destruct s'; discriminate.
Qed.

End CleanText.

Lemma clean_text_of_clean_text (text : str) :
  _clean_text (_clean_text text) = _clean_text text.
Proof.
  destruct (split text) as [|w ws] eqn:E.
  - rewrite (clean_text_blank text E). reflexivity.
  - assert (Hw : split text <> []) by (rewrite E; discriminate).
    assert (Hw' : split (_clean_text text) <> [])
      by (rewrite split_clean_text; exact Hw).
    rewrite (clean_text_eq _ Hw'), split_clean_text.
    rewrite (clean_text_eq text Hw).
    pose proof (join_words_ends_nonspace [SPACE] (split text) Hw (split_words text))
      as He.
    destruct (endswith text [SPACE]).
    + replace (endswith (join [SPACE] (split text) ++ [SPACE]) [SPACE]) with true;
        [reflexivity|].
      symmetry. apply endswith_spec. eexists; reflexivity.
    + rewrite app_nil_r, (not_endswith_space _ He), app_nil_r. reflexivity.
Qed.

(** X1: [_clean_text] keeps the words of the text (its whitespace-
    separated parts, in order) and is idempotent: cleaning a cleaned text
    changes nothing. *)
Theorem clean_text_idempotent (text : str) :
  split (_clean_text text) = split text
  /\ _clean_text (_clean_text text) = _clean_text text.
Proof.
  split; [apply split_clean_text | apply clean_text_of_clean_text].
Qed.

(** X2: [_clean_text] returns the empty string exactly for texts made of
    whitespace only, and [insert_text] then leaves the inserter as it is. *)
Theorem clean_text_empty_iff_blank (text : str) :
  (_clean_text text = [] <-> forallb isspace text = true)
  /\ (forallb isspace text = true -> forall self, insert_text self text = self).
Proof.
  assert (H : _clean_text text = [] <-> forallb isspace text = true).
  { split; intros H.
    - apply clean_text_nonempty_split in H. apply (split_from_nil text [] H).
    - apply clean_text_blank, split_all_space, H. }
  split; [exact H|]. intros Hb self. apply H in Hb.
  unfold insert_text. destruct (nonempty text); [|reflexivity]. simpl.
  rewrite Hb. reflexivity.
Qed.

Lemma clean_text_empty_iff_blank_witness :
  _clean_text (py " " ++ [9%N; 10%N]) = []
  /\ insert_text (mkInserter (py "abc") (py "abc") true) (py " " ++ [9%N; 10%N])
     = mkInserter (py "abc") (py "abc") true.
Proof.
  destruct (clean_text_empty_iff_blank (py " " ++ [9%N; 10%N])) as [[_ H1] H2].
  split; [apply H1; reflexivity | apply H2; reflexivity].
Defined.

(** X3: applying the same text twice in a row types nothing the second
    time: [insert_text] is idempotent. *)
Theorem insert_text_idempotent (self : TextInserter) (text : str) :
  insert_text (insert_text self text) text = insert_text self text.
Proof.
  destruct (insert_text_cases self text)
    as [E | (pre & part & _ & _ & Hne & Ht & E)]; rewrite E; [exact E|].
  unfold insert_text.
  destruct text as [|c0 text0] eqn:Et; [congruence|]. rewrite <- Et.
  replace (negb (nonempty text)) with false by (subst; reflexivity).
  cbv iota zeta.
  destruct (_clean_text text) as [|c cl] eqn:Ec; [congruence|].
  simpl negb. cbv iota. simpl last_typed_text.
  rewrite str_eqb_refl. reflexivity.
Qed.

(** X4: a call of [insert_text] either leaves the inserter exactly as it
    was, or appends a non-empty final part of the cleaned text to the key
    strokes already sent and remembers the cleaned text.  It never takes a
    key stroke back and never changes [is_typing_session_active]. *)
Theorem insert_text_only_appends (self : TextInserter) (text : str) :
  is_typing_session_active (insert_text self text)
  = is_typing_session_active self
  /\ (insert_text self text = self
      \/ exists pre part,
           part <> []
           /\ _clean_text text = pre ++ part
           /\ controller (insert_text self text) = controller self ++ part
           /\ last_typed_text (insert_text self text) = _clean_text text).
Proof.
  destruct (insert_text_cases self text)
    as [E | (pre & part & Hp & Hc & _ & _ & E)]; rewrite E.
  - auto.
  - split; [reflexivity|]. right. exists pre, part. auto.
Qed.

(** X5: whatever was typed in earlier sessions, after
    [start_typing_session] and any sequence of updates the remembered
    text is empty or a text that [_clean_text] leaves unchanged, the
    session is still marked active, and the key strokes sent before the
    session are still the beginning of the log. *)
Theorem session_keeps_cleaned_text (self0 : TextInserter) (ts : list str) :
  let self := apply_all (start_typing_session self0) ts in
  _clean_text (last_typed_text self) = last_typed_text self
  /\ is_typing_session_active self = true
  /\ exists typed, controller self = controller self0 ++ typed.
Proof.
  cbv zeta.
  assert (H : forall s,
             _clean_text (last_typed_text s) = last_typed_text s ->
             _clean_text (last_typed_text (apply_all s ts))
             = last_typed_text (apply_all s ts)
             /\ is_typing_session_active (apply_all s ts)
                = is_typing_session_active s
             /\ exists typed, controller (apply_all s ts) = controller s ++ typed).
  { unfold apply_all. induction ts as [|t ts IH]; intros s Hs; simpl.
    - split; [exact Hs|]. split; [reflexivity|]. exists []. symmetry.
      apply app_nil_r.
    - destruct (IH (insert_text s t)) as (H1 & H2 & typed & H3).
      + destruct (insert_text_cases s t)
          as [E | (pre & part & _ & _ & _ & _ & E)]; rewrite E; [exact Hs|].
        simpl. apply clean_text_of_clean_text.
      + split; [exact H1|]. split.
        * rewrite H2.
          destruct (insert_text_cases s t)
            as [E | (pre & part & _ & _ & _ & _ & E)]; rewrite E; reflexivity.
        * rewrite H3.
          destruct (insert_text_cases s t)
            as [E | (pre & part & _ & _ & _ & _ & E)]; rewrite E.
          -- exists typed. reflexivity.
          -- exists (part ++ typed). simpl. rewrite app_assoc. reflexivity. }
  apply (H (start_typing_session self0)). reflexivity.
Qed.

(** ** websocket_client.py: further properties *)

Section StripFacts.

Lemma lstrip_idempotent (s : str) : lstrip (lstrip s) = lstrip s.
Proof.
  induction s as [|c s IH]; [reflexivity|]. simpl.
  destruct (isspace c) eqn:E; [exact IH|]. simpl. rewrite E. reflexivity.
Qed.

Lemma strip_cases (s : str) : strip s = [] \/ ends_nonspace (strip s).
Proof.
  unfold strip.
  destruct (lstrip (rstrip s)) as [|x l] eqn:E; [left; reflexivity|]. right.
  destruct (rstrip_cases s) as [R|R]; [rewrite R in E; discriminate|].
  destruct (lstrip_suffix (rstrip s)) as [a Ha].
  rewrite E in Ha. rewrite Ha in R.
  apply ends_nonspace_suffix in R; [exact R | discriminate].
Qed.

Lemma strip_idempotent (s : str) : strip (strip s) = strip s.
Proof.
  destruct (strip_cases s) as [E|E].
  - rewrite E. reflexivity.
  - unfold strip at 1. rewrite (rstrip_ends_nonspace _ E).
    unfold strip. apply lstrip_idempotent.
Qed.

End StripFacts.

(** The text extracted is the collapsed, trimmed join of some parts. *)
Lemma extract_transcription_shape (data : json) (text : str) :
  _extract_transcription data = Ok text ->
  exists parts,
    text = squeeze (match parts with
                    | [] => []
                    | _ => strip (join [SPACE] parts)
                    end).
Proof.
  unfold _extract_transcription.
  destruct data as [| | | | |fields]; try discriminate.
  destruct (iterate _) as [lines|e]; [|discriminate]. simpl Py.bind.
  destruct (collect_parts lines []) as [parts|e]; [|discriminate].
  simpl Py.bind. intros E. inversion E as [E']. clear E E'.
  rewrite collapse_spaces_squeeze by apply Nat.le_refl.
  exists parts. reflexivity.
Qed.

(** X6: whatever the decoded message, a text that
    [_extract_transcription] returns has no leading or trailing whitespace
    and no two spaces in a row. *)
Theorem extract_transcription_is_tidy (data : json) (text : str) :
  _extract_transcription data = Ok text ->
  strip text = text /\ has_double_space text = false.
Proof.
  intros H. destruct (extract_transcription_shape data text H) as [parts ->].
  split; [|apply squeeze_no_double_space].
  destruct parts as [|p ps]; [reflexivity|].
  rewrite strip_squeeze, strip_idempotent. reflexivity.
Qed.

Lemma extract_transcription_is_tidy_witness :
  _extract_transcription (message None [py " a  b"; 9%N :: py "c "])
  = Ok (py "a b c")
  /\ strip (py "a b c") = py "a b c"
  /\ has_double_space (py "a b c") = false.
Proof.
  split; [reflexivity|].
  exact (extract_transcription_is_tidy
           (message None [py " a  b"; 9%N :: py "c "]) (py "a b c") eq_refl).
Defined.

Section HandlerFacts.

Lemma collect_parts_raises (lines : list json) (acc : list str) (e : exn) :
  collect_parts lines acc = Raise e -> e = AttributeError.
Proof.
  revert acc; induction lines as [|line lines IH]; intros acc; [discriminate|].
  simpl. destruct line as [| | | | |fields];
    try (intros E; inversion E; reflexivity).
  destruct (dict_get fields (py "text")) as [v|]; [|apply IH].
  destruct (truthy v); [|apply IH].
  destruct v; try (intros E; inversion E; reflexivity). apply IH.
Qed.

Lemma extract_transcription_raises (data : json) (e : exn) :
  _extract_transcription data = Raise e -> e = AttributeError \/ e = TypeError.
Proof.
  unfold _extract_transcription.
  destruct data as [| | | | |fields];
    try (intros E; inversion E; left; reflexivity).
  destruct (dict_get_default fields (py "lines") (JArray [])) as [| | | | |];
    simpl; try (intros E; inversion E; right; reflexivity);
    match goal with
    | |- context [collect_parts ?l []] =>
        destruct (collect_parts l []) as [parts|e'] eqn:Ec;
        [discriminate | intros E; inversion E; subst; left;
                        exact (collect_parts_raises _ _ _ Ec)]
    end.
Qed.

(** What a successful call of the handler can have done. *)
Lemma handle_message_cases (s s' : Session) (data : json) :
  _handle_message s data = Ok s' ->
  s' = s
  \/ (transcription_callback (client s) = Some InsertTextMethod
      /\ exists fields text,
           data = JObject fields
           /\ _extract_transcription data = Ok text
           /\ nonempty (strip text) = true
           /\ ((equals_str (dict_get_default fields (py "type") (JString []))
                           (py "ready_to_stop") = false
                /\ s' = set_text_inserter s (insert_text (text_inserter s) text))
               \/ (equals_str (dict_get_default fields (py "type") (JString []))
                              (py "ready_to_stop") = true
                   /\ s' = set_text_inserter s
                             (end_typing_session
                                (insert_text (text_inserter s) text))))).
Proof.
  unfold _handle_message.
  destruct data as [| | | | |fields]; try discriminate.
  destruct (equals_str _ (py "ready_to_stop")) eqn:Ety;
    (destruct (transcription_callback (client s)) as [cb|] eqn:Ecb;
     [|intros E; inversion E; left; reflexivity]);
    (destruct (_extract_transcription (JObject fields)) as [text|e] eqn:Eex;
     [|discriminate]); simpl Py.bind;
    (destruct (nonempty (strip text)) eqn:Ene;
     [|intros E; inversion E; left; reflexivity]);
    destruct cb; simpl; intros E; inversion E; subst;
    try (left; reflexivity);
    right; (split; [reflexivity|]); exists fields, text;
    repeat split; auto.
Qed.

Lemma handle_message_raises (s : Session) (data : json) (e : exn) :
  _handle_message s data = Raise e -> e = AttributeError \/ e = TypeError.
Proof.
  unfold _handle_message.
  destruct data as [| | | | |fields];
    try (intros E; inversion E; left; reflexivity).
  destruct (equals_str _ (py "ready_to_stop"));
    (destruct (transcription_callback (client s)) as [cb|]; [|discriminate]);
    (destruct (_extract_transcription (JObject fields)) as [text|e'] eqn:Eex;
     simpl Py.bind;
     [destruct (nonempty (strip text)); repeat (destruct cb; simpl); discriminate
     |intros E; inversion E; subst;
      exact (extract_transcription_raises _ _ Eex)]).
Qed.

Lemma log_extends_refl (s : Session) : log_extends s s.
Proof. exists []. symmetry. apply app_nil_r. Qed.

Lemma log_extends_trans (a b c : Session) :
  log_extends a b -> log_extends b c -> log_extends a c.
Proof.
  intros [x Hx] [y Hy]. exists (x ++ y). rewrite Hy, Hx, app_assoc. reflexivity.
Qed.

Lemma handle_message_frame (s s' : Session) (data : json) :
  _handle_message s data = Ok s' ->
  client s' = client s /\ log_extends s s'.
Proof.
  intros H. destruct (handle_message_cases s s' data H)
    as [-> | (_ & fields & text & _ & _ & _ & [[_ ->] | [_ ->]])].
  - split; [reflexivity | apply log_extends_refl].
  - split; [reflexivity|]. unfold log_extends; simpl.
    destruct (insert_text_cases (text_inserter s) text)
      as [E | (pre & part & _ & _ & _ & _ & E)]; rewrite E.
    + exists []. symmetry. apply app_nil_r.
    + exists part. reflexivity.
  - split; [reflexivity|]. unfold log_extends; simpl.
    destruct (insert_text_cases (text_inserter s) text)
      as [E | (pre & part & _ & _ & _ & _ & E)]; rewrite E.
    + exists []. symmetry. apply app_nil_r.
    + exists part. reflexivity.
Qed.

Lemma receive_loop_frame (messages : list Message) (closure : Closure)
      (s s' : Session) (oe : option exn) :
  receive_loop s messages closure = (s', oe) ->
  client s' = client s /\ log_extends s s'.
Proof.
  revert s; induction messages as [|m messages IH]; intros s; simpl.
  - destruct closure; intros E; inversion E; subst;
      (split; [reflexivity | apply log_extends_refl]).
  - destruct (json_loads m) as [data|e].
    + destruct (_handle_message s data) as [s1|e] eqn:Eh.
      * intros E. destruct (IH s1 E) as [Hc Hl].
        destruct (handle_message_frame s s1 data Eh) as [Hc1 Hl1].
        split; [congruence | exact (log_extends_trans s s1 s' Hl1 Hl)].
      * intros E; inversion E; subst.
        split; [reflexivity | apply log_extends_refl].
    + intros E; inversion E; subst.
      split; [reflexivity | apply log_extends_refl].
Qed.

End HandlerFacts.

(** X7: a message handled without error never changes the client, and
    changes the inserter only when the callback is the inserter's
    [insert_text] and the extracted text is non-blank; a message whose
    type is not "ready_to_stop" never changes
    [is_typing_session_active]. *)
Theorem handle_message_effects (s s' : Session) (data : json) :
  _handle_message s data = Ok s' ->
  client s' = client s
  /\ (transcription_callback (client s) <> Some InsertTextMethod -> s' = s)
  /\ (forall text, _extract_transcription data = Ok text ->
        nonempty (strip text) = false -> s' = s)
  /\ (is_terminal data = false ->
        is_typing_session_active (text_inserter s')
        = is_typing_session_active (text_inserter s)).
Proof.
  intros H. destruct (handle_message_frame s s' data H) as [Hc _].
  split; [exact Hc|].
  destruct (handle_message_cases s s' data H)
    as [-> | (Hcb & fields & text & -> & Hex & Hne & Hs)]; [auto|].
  split; [intros Hn; contradiction|].
  split.
  - intros text' Hex' Hb. congruence.
  - simpl. intros Hty. destruct Hs as [[_ ->] | [Hty' _]]; [|congruence].
    simpl.
    destruct (insert_text_cases (text_inserter s) text)
      as [E | (pre & part & _ & _ & _ & _ & E)]; rewrite E; reflexivity.
Qed.

Lemma handle_message_effects_witness :
  let s' := set_text_inserter live_session
              (insert_text (start_typing_session init) (py "hi")) in
  _handle_message live_session (message None [py "hi"]) = Ok s'
  /\ client s' = client live_session
  /\ is_typing_session_active (text_inserter s') = true.
Proof.
  cbv zeta.
  destruct (handle_message_effects
              live_session
              (set_text_inserter live_session
                 (insert_text (start_typing_session init) (py "hi")))
              (message None [py "hi"]) eq_refl)
    as (Hc & _ & _ & Ha).
  split; [reflexivity|]. split; [exact Hc|].
  rewrite (Ha eq_refl). reflexivity.
Defined.

(** X8: when handling a decoded message raises (its shape is not the
    expected one), [listen_for_messages] stops there as well, and, unlike
    for a decode error, sets [is_connected] to false; the error is an
    [AttributeError] or a [TypeError]. *)
Theorem listen_ends_at_handler_error
        (s s' : Session) (ws : Socket) (pre post : list Message)
        (data : json) (closure : Closure) (e : exn) :
  websocket (client s) = Some ws ->
  receive_loop s pre PeerClosed = (s', None) ->
  _handle_message s' data = Raise e ->
  listen_for_messages s (pre ++ WellFormed data :: post) closure
  = (set_client s' (set_is_connected (client s') false), Some e)
  /\ (e = AttributeError \/ e = TypeError).
Proof.
  intros Hws Hpre He.
  pose proof (handle_message_raises s' data e He) as Hk.
  split; [|exact Hk].
  unfold listen_for_messages. rewrite Hws.
  rewrite (receive_loop_app pre (WellFormed data :: post) closure s s' Hpre).
  simpl. rewrite He. destruct Hk as [-> | ->]; reflexivity.
Qed.

Lemma listen_ends_at_handler_error_witness :
  let bad := JObject [(py "lines", JArray [JString (py "hi")])] in
  listen_for_messages live_session
    [WellFormed bad; WellFormed (message None [py "later"])] PeerClosed
  = (set_client live_session (set_is_connected (client live_session) false),
     Some AttributeError).
Proof.
  cbv zeta.
  destruct (listen_ends_at_handler_error
              live_session live_session (mkSocket [] true) []
              [WellFormed (message None [py "later"])]
              (JObject [(py "lines", JArray [JString (py "hi")])])
              PeerClosed AttributeError eq_refl eq_refl eq_refl) as [H _].
  exact H.
Defined.

(** X9: [listen_for_messages] never replaces the socket or the callback
    and never sets [is_connected] to true; when it ends without an error,
    or with a decode error, the client is exactly as before; key strokes
    are only added. *)
Theorem listen_for_messages_frame
        (s : Session) (messages : list Message) (closure : Closure) :
  let s' := fst (listen_for_messages s messages closure) in
  let logged := snd (listen_for_messages s messages closure) in
  websocket (client s') = websocket (client s)
  /\ transcription_callback (client s') = transcription_callback (client s)
  /\ (is_connected (client s') = true -> is_connected (client s) = true)
  /\ (logged = None \/ logged = Some JSONDecodeError -> client s' = client s)
  /\ log_extends s s'.
Proof.
  cbv zeta. unfold listen_for_messages.
  destruct (websocket (client s)) as [ws|] eqn:Hws.
  - destruct (receive_loop s messages closure) as [s1 oe] eqn:E.
    destruct (receive_loop_frame messages closure s s1 oe E) as [Hc Hl].
    destruct oe as [e|]; [destruct e|]; simpl; rewrite Hc;
      repeat split; auto; try discriminate;
      intros [H|H]; discriminate.
  - simpl. rewrite Hws. repeat split; auto. apply log_extends_refl.
Qed.

(** X10: [send_stop_signal] writes exactly one empty frame when the
    client is connected and the socket accepts it, and nothing otherwise;
    it never changes [is_connected], not even when the write fails. *)
Theorem send_stop_signal_effects (self : WebSocketClient) :
  is_connected (send_stop_signal self) = is_connected self
  /\ transcription_callback (send_stop_signal self) = transcription_callback self
  /\ wire_of (send_stop_signal self)
     = wire_of self ++ (if can_send self then [[]] else []).
Proof.
  unfold send_stop_signal, wire_of, can_send, ws_send.
  destruct self as [[[w a]|] conn cb]; simpl.
  - destruct conn, a; simpl; rewrite ?app_nil_r; auto.
  - auto.
Qed.

(** ** websocket_client.py: the stream header, further properties *)

Section HeaderFacts.

Lemma to_bytes_value (n : Z) (len : nat) (bs : bytes) :
  to_bytes n len = Ok bs -> length bs = len /\ from_bytes bs = n.
Proof.
  intros H. pose proof (to_bytes_range n len bs H) as Hr.
  destruct (to_bytes_ok n len Hr) as (bs' & E & Hl & Hv).
  rewrite H in E. inversion E; subst. auto.
Qed.

(** A header that was built reads back as the arguments it was built
    from. *)
Lemma create_wav_header_reads_back (sr ch sw : Z) (h : bytes) :
  create_wav_header sr ch sw = Ok h ->
  num_channels (parse_header h) = ch
  /\ sampling_rate (parse_header h) = sr
  /\ bits_per_sample (parse_header h) = (sw * 8)%Z.
Proof.
  unfold create_wav_header.
  change (to_bytes 4294967295 4) with (Ok [xff; xff; xff; xff]).
  change (to_bytes 16 4) with (Ok [x10; x00; x00; x00]).
  change (to_bytes 1 2) with (Ok [x01; x00]).
  simpl Py.bind.
  destruct (to_bytes ch 2) as [f1|] eqn:E1; [|discriminate].
  destruct (to_bytes sr 4) as [f2|] eqn:E2; [|discriminate].
  destruct (to_bytes (sr * ch * sw) 4) as [f3|] eqn:E3; [|discriminate].
  destruct (to_bytes (ch * sw) 2) as [f4|] eqn:E4; [|discriminate].
  destruct (to_bytes (sw * 8) 2) as [f5|] eqn:E5; [|discriminate].
  simpl Py.bind. intros E; inversion E; subst h; clear E.
  apply to_bytes_value in E1 as [L1 V1], E2 as [L2 V2], E3 as [L3 V3],
      E4 as [L4 V4], E5 as [L5 V5].
  fixed_length f1 L1. fixed_length f2 L2. fixed_length f3 L3.
  fixed_length f4 L4. fixed_length f5 L5.
  cbv - [from_bytes Z.mul]. rewrite V1, V2, V5. auto.
Qed.

End HeaderFacts.

(** X11: [create_wav_header] returns a header exactly when every field
    fits its width (channels, block align and bits per sample in 16 bits,
    sample rate and byte rate in 32 bits, none negative); for all other
    arguments it raises [OverflowError]. *)
Theorem create_wav_header_defined_iff_fit (sample_rate channels sample_width : Z) :
  ((exists h, create_wav_header sample_rate channels sample_width = Ok h)
   <-> header_params_fit sample_rate channels sample_width)
  /\ (~ header_params_fit sample_rate channels sample_width ->
      create_wav_header sample_rate channels sample_width = Raise OverflowError).
Proof.
  split; [|apply create_wav_header_overflow].
  split.
  - intros [h Hh].
    assert (Hdec : header_params_fit sample_rate channels sample_width
                   \/ ~ header_params_fit sample_rate channels sample_width)
      by (unfold header_params_fit; lia).
    destruct Hdec as [H|H]; [exact H|].
    rewrite (create_wav_header_overflow _ _ _ H) in Hh. discriminate.
  - intros (Hch & Hsr & Hbr & Hba & Hbits). unfold create_wav_header.
    change (to_bytes 4294967295 4) with (Ok [xff; xff; xff; xff]).
    change (to_bytes 16 4) with (Ok [x10; x00; x00; x00]).
    change (to_bytes 1 2) with (Ok [x01; x00]).
    destruct (to_bytes_ok channels 2 Hch) as (f1 & -> & _).
    destruct (to_bytes_ok sample_rate 4 Hsr) as (f2 & -> & _).
    destruct (to_bytes_ok _ 4 Hbr) as (f3 & -> & _).
    destruct (to_bytes_ok _ 2 Hba) as (f4 & -> & _).
    destruct (to_bytes_ok _ 2 Hbits) as (f5 & -> & _).
    eexists. reflexivity.
Qed.

Lemma create_wav_header_defined_iff_fit_witness :
  create_wav_header 16000 65536 2 = Raise OverflowError
  /\ create_wav_header (-1) 1 2 = Raise OverflowError
  /\ create_wav_header 4294967295 1 2 = Raise OverflowError.
Proof.
  refine (conj _ (conj _ _));
    apply create_wav_header_defined_iff_fit; unfold header_params_fit; lia.
Defined.

(** X12: the header determines the arguments: two calls of
    [create_wav_header] that return the same bytes were given the same
    sample rate, channel count and sample width. *)
Theorem create_wav_header_injective (sr ch sw sr' ch' sw' : Z) (h : bytes) :
  create_wav_header sr ch sw = Ok h ->
  create_wav_header sr' ch' sw' = Ok h ->
  sr = sr' /\ ch = ch' /\ sw = sw'.
Proof.
  intros H H'.
  destruct (create_wav_header_reads_back sr ch sw h H) as (C & S & B).
  destruct (create_wav_header_reads_back sr' ch' sw' h H') as (C' & S' & B').
  repeat split; lia.
Qed.

Lemma create_wav_header_injective_witness :
  let h := match create_wav_header 44100 2 2 with Ok h => h | Raise _ => [] end in
  length h = 44 /\ (44100 = 44100 /\ 2 = 2 /\ 2 = 2)%Z.
Proof.
  cbv zeta. split; [reflexivity|].
  exact (create_wav_header_injective
           44100 2 2 44100 2 2
           (match create_wav_header 44100 2 2 with Ok h => h | Raise _ => [] end)
           eq_refl eq_refl).
Defined.

(** ** speech_recognition_app.py: the send loop, further properties *)

Section SendLoopFacts.

Variable cfg : Config.

(** What one send from the loop does to the socket and to the record of
    frames. *)
Lemma task_send_wire (mk : bytes -> Sent) (st : Stream) (data : bytes) :
  let st' := fst (task_send mk st data) in
  wire_of (ws_client st')
  = wire_of (ws_client st) ++ (if can_send (ws_client st) then [data] else [])
  /\ sent st' = sent st ++ (if can_send (ws_client st) then [mk data] else [])
  /\ (is_connected (ws_client st') = true -> is_connected (ws_client st) = true)
  /\ (forall e, snd (task_send mk st data) = Raise e ->
        e = ConnectionClosed /\ is_connected (ws_client st') = false)
  /\ (can_send (ws_client st) = true -> snd (task_send mk st data) = Ok tt)
  /\ (is_connected (ws_client st) = false -> snd (task_send mk st data) = Ok tt).
Proof.
  unfold task_send, send_audio, ws_send, can_send, wire_of.
  destruct st as [acc t hs [[[w a]|] conn cb] log]; simpl.
  - destruct conn, a; simpl; rewrite ?app_nil_r;
      repeat split; auto; try discriminate; try congruence.
  - rewrite app_nil_r. repeat split; auto; discriminate.
Qed.

Lemma apply_link_wire (ev : LinkEvent) (c : WebSocketClient) :
  wire_of (apply_link ev c) = wire_of c
  /\ (is_connected (apply_link ev c) = true -> is_connected c = true).
Proof.
  unfold wire_of. destruct c as [[ws|] conn cb], ev; simpl; auto;
    (split; [reflexivity | discriminate]).
Qed.



End SendLoopFacts.

Section Conservation.

Variable cfg : Config.
Variable h : bytes.
Hypothesis header_ok : the_header cfg = Ok h.

Lemma pcm_payload_app (a b : list Sent) :
  pcm_payload (a ++ b) = pcm_payload a ++ pcm_payload b.
Proof. unfold pcm_payload. apply flat_map_app. Qed.

(** An iteration on a link that stays up: no error, nothing lost. *)
Lemma iteration_steady (st : Stream) (tk : Tick) :
  link tk = Steady -> can_send (ws_client st) = true ->
  snd (iteration cfg st tk) = None
  /\ can_send (ws_client (fst (iteration cfg st tk))) = true
  /\ pcm_payload (sent (fst (iteration cfg st tk)))
     ++ accumulated_audio (fst (iteration cfg st tk))
     = pcm_payload (sent st) ++ accumulated_audio st
       ++ match audio tk with Some data => data | None => [] end.
Proof.
  intros Hl Hc. unfold iteration. rewrite Hl. simpl apply_link.
  destruct (audio tk) as [audio_data|]; [|simpl; rewrite app_nil_r; auto].
  destruct audio_data as [|x audio_data]; [simpl; rewrite app_nil_r; auto|].
  simpl nonempty_bytes. cbv iota.
  cbn [accumulated_audio last_send_time wav_header_sent ws_client sent].
  remember (accumulated_audio st ++ x :: audio_data) as acc eqn:Eacc.
  destruct (1000 <=? clock tk - last_send_time st)%Z; [|simpl; auto].
  replace (nonempty_bytes acc) with true
    by (subst acc; destruct (accumulated_audio st); reflexivity).
  assert (Hpay : forall stx,
             can_send (ws_client stx) = true ->
             accumulated_audio stx = acc ->
             pcm_payload (sent stx) = pcm_payload (sent st) ->
             let r := match task_send PcmFrame stx (accumulated_audio stx) with
                      | (st2, Raise e) => (st2, Some e)
                      | (st2, Ok _) =>
                          (mkStream [] (clock tk) (wav_header_sent st2)
                                    (ws_client st2) (sent st2), None)
                      end in
             snd r = None
             /\ can_send (ws_client (fst r)) = true
             /\ pcm_payload (sent (fst r)) ++ accumulated_audio (fst r)
                = pcm_payload (sent st) ++ acc).
  { intros stx Hcx Hax Hpx.
    destruct (task_send_cases PcmFrame stx (accumulated_audio stx))
      as (_ & _ & _ & [(_ & Hr & Hs & Hc') | (Hn & _)]); [|congruence].
    destruct (task_send PcmFrame stx (accumulated_audio stx)) as [st2 r].
    cbn [fst snd] in Hr, Hs, Hc'. subst r. cbn [fst snd sent accumulated_audio
                                                 ws_client].
    rewrite Hs, pcm_payload_app, Hpx, Hax.
    simpl. rewrite !app_nil_r. auto. }
  destruct (wav_header_sent st) eqn:Hh; simpl negb; cbv iota.
  - apply Hpay; auto.
  - unfold send_header. fold (the_header cfg). rewrite header_ok.
    match goal with
    | |- context [task_send HeaderFrame ?s h] =>
        destruct (task_send_cases HeaderFrame s h)
          as (Ha & _ & _ & [(_ & Hr & Hs & Hc') | (Hn & _)]);
        [|simpl in Hn; congruence];
        destruct (task_send HeaderFrame s h) as [st2 r]
    end.
    cbn [fst snd accumulated_audio sent ws_client] in Ha, Hr, Hs, Hc'. subst r.
    apply (Hpay (mkStream (accumulated_audio st2) (last_send_time st2) true
                          (ws_client st2) (sent st2))); simpl; auto.
    rewrite Hs, pcm_payload_app. simpl. apply app_nil_r.
Qed.

Lemma stream_loop_steady (ticks : list Tick) (st : Stream) :
  Forall (fun tk => link tk = Steady) ticks ->
  can_send (ws_client st) = true ->
  snd (stream_loop cfg st ticks) = None
  /\ can_send (ws_client (fst (stream_loop cfg st ticks))) = true
  /\ pcm_payload (sent (fst (stream_loop cfg st ticks)))
     ++ accumulated_audio (fst (stream_loop cfg st ticks))
     = pcm_payload (sent st) ++ accumulated_audio st ++ captured ticks.
Proof.
  revert st; induction ticks as [|tk ticks IH]; intros st Hall Hc.
  - simpl. rewrite app_nil_r. auto.
  - inversion Hall as [|? ? Hl Hrest]; subst. simpl stream_loop.
    destruct (iteration_steady st tk Hl Hc) as (He & Hc1 & Hp).
    destruct (iteration cfg st tk) as [st1 oe]. simpl in *. subst oe.
    destruct (IH st1 Hrest Hc1) as (He2 & Hc2 & Hp2).
    split; [exact He2|]. split; [exact Hc2|].
    rewrite Hp2. unfold captured at 2. simpl flat_map. fold (captured ticks).
    rewrite app_assoc, Hp, <- !app_assoc. reflexivity.
Qed.

End Conservation.

Section StopFrame.




End StopFrame.



(** X14: on a connected client whose link stays up, and with a header
    that can be built, the send loop raises nothing and loses or reorders
    no audio: when the loop sees the recording stopped, the payload frames
    sent carry exactly the captured chunks in order; when the task is
    cancelled instead, they carry them up to the audio still buffered,
    which is not sent. *)
Theorem stream_audio_conserves_audio
        (cfg : Config) (c : WebSocketClient) (start_time : Z)
        (ticks : list Tick) (h : bytes) :
  can_send c = true ->
  create_wav_header (rate cfg) (channels cfg) (sample_width cfg) = Ok h ->
  Forall (fun tk => link tk = Steady) ticks ->
  let stopped := _stream_audio cfg c start_time ticks RecordingStopped in
  let cancelled := _stream_audio cfg c start_time ticks TaskCancelled in
  snd stopped = None
  /\ pcm_payload (sent (fst stopped)) = captured ticks
  /\ snd cancelled = None
  /\ pcm_payload (sent (fst cancelled)) ++ accumulated_audio (fst cancelled)
     = captured ticks.
Proof.
  intros Hc Hh Hall. cbv zeta. unfold _stream_audio.
  destruct (stream_loop_steady cfg h Hh ticks
              (mkStream [] start_time false c []) Hall Hc) as (He & Hc1 & Hp).
  destruct (stream_loop cfg _ ticks) as [st oe]. simpl in *. subst oe.
  split; [|split; [|split; [reflexivity | exact Hp]]].
  - destruct (nonempty_bytes (accumulated_audio st)); [|reflexivity].
    destruct (task_send_cases PcmFrame st (accumulated_audio st))
      as (_ & _ & _ & [(_ & Hr & _) | (Hn & _)]); [|congruence].
    destruct (task_send PcmFrame st (accumulated_audio st)) as [st1 r].
    simpl in *. subst r. reflexivity.
  - destruct (accumulated_audio st) as [|x acc] eqn:Ea.
    + simpl. rewrite app_nil_r in Hp. exact Hp.
    + simpl nonempty_bytes. cbv iota.
      destruct (task_send_cases PcmFrame st (x :: acc))
        as (_ & _ & _ & [(_ & Hr & Hs & _) | (Hn & _)]); [|congruence].
      destruct (task_send PcmFrame st (x :: acc)) as [st1 r].
      simpl in *. subst r. simpl. rewrite Hs, pcm_payload_app. simpl.
      rewrite app_nil_r. exact Hp.
Qed.

Lemma stream_audio_conserves_audio_witness :
  let c := mkClient (Some (mkSocket [] true)) true None in
  let ticks := [mkTick Steady (Some (b "ab")) 400;
                mkTick Steady (Some (b "cd")) 1100;
                mkTick Steady None 1200;
                mkTick Steady (Some (b "ef")) 1500] in
  List.map frame_bytes
    (sent (fst (_stream_audio (mkConfig 16000 1 2 10000) c 0 ticks RecordingStopped)))
  = [match create_wav_header 16000 1 2 with Ok h => h | Raise _ => [] end;
     b "abcd"; b "ef"]
  /\ pcm_payload
       (sent (fst (_stream_audio (mkConfig 16000 1 2 10000) c 0 ticks
                                 RecordingStopped)))
     = b "abcdef".
Proof.
  cbv zeta. split; [reflexivity|].
  destruct (stream_audio_conserves_audio
              (mkConfig 16000 1 2 10000)
              (mkClient (Some (mkSocket [] true)) true None) 0
              [mkTick Steady (Some (b "ab")) 400;
               mkTick Steady (Some (b "cd")) 1100;
               mkTick Steady None 1200;
               mkTick Steady (Some (b "ef")) 1500]
              (match create_wav_header 16000 1 2 with Ok h => h | Raise _ => [] end)
              eq_refl eq_refl)
    as (_ & H & _).
  - repeat constructor.
  - exact H.
Defined.

Section Disconnected.

Variable cfg : Config.
Variable h : bytes.
Hypothesis header_ok : the_header cfg = Ok h.

Lemma task_send_disconnected (mk : bytes -> Sent) (st : Stream) (data : bytes) :
  is_connected (ws_client st) = false ->
  snd (task_send mk st data) = Ok tt
  /\ is_connected (ws_client (fst (task_send mk st data))) = false
  /\ sent (fst (task_send mk st data)) = sent st.
Proof.
  intros Hd.
  destruct (task_send_wire mk st data) as (_ & Hs & Hc & _ & _ & Hok).
  assert (Hn : can_send (ws_client st) = false).
  { unfold can_send. rewrite Hd. destruct (websocket (ws_client st)); reflexivity. }
  rewrite Hn, app_nil_r in Hs.
  split; [exact (Hok Hd)|]. split; [|exact Hs].
  destruct (is_connected (ws_client (fst (task_send mk st data)))) eqn:E;
    [|reflexivity].
  rewrite (Hc eq_refl) in Hd. discriminate.
Qed.

Lemma iteration_disconnected (st : Stream) (tk : Tick) :
  is_connected (ws_client st) = false ->
  snd (iteration cfg st tk) = None
  /\ is_connected (ws_client (fst (iteration cfg st tk))) = false
  /\ sent (fst (iteration cfg st tk)) = sent st.
Proof.
  intros Hd. unfold iteration.
  assert (Hd0 : is_connected (apply_link (link tk) (ws_client st)) = false).
  { destruct (apply_link_wire (link tk) (ws_client st)) as [_ H].
    destruct (is_connected (apply_link (link tk) (ws_client st)));
      [rewrite (H eq_refl) in Hd; discriminate | reflexivity]. }
  destruct (audio tk) as [audio_data|]; [|simpl; auto].
  destruct (nonempty_bytes audio_data); [|simpl; auto].
  cbn [accumulated_audio last_send_time wav_header_sent ws_client sent].
  destruct (1000 <=? clock tk - last_send_time st)%Z; [|simpl; auto].
  destruct (nonempty_bytes (accumulated_audio st ++ audio_data)); [|simpl; auto].
  assert (Hpay : forall stx,
             is_connected (ws_client stx) = false -> sent stx = sent st ->
             let r := match task_send PcmFrame stx (accumulated_audio stx) with
                      | (st2, Raise e) => (st2, Some e)
                      | (st2, Ok _) =>
                          (mkStream [] (clock tk) (wav_header_sent st2)
                                    (ws_client st2) (sent st2), None)
                      end in
             snd r = None
             /\ is_connected (ws_client (fst r)) = false
             /\ sent (fst r) = sent st).
  { intros stx Hx Hsx.
    destruct (task_send_disconnected PcmFrame stx (accumulated_audio stx) Hx)
      as (Hr & Hc & Hs).
    destruct (task_send PcmFrame stx (accumulated_audio stx)) as [st2 r].
    cbn [fst snd] in Hr, Hc, Hs. subst r. simpl. rewrite Hs. auto. }
  destruct (wav_header_sent st); simpl negb; cbv iota.
  - apply Hpay; auto.
  - unfold send_header. fold (the_header cfg). rewrite header_ok.
    match goal with
    | |- context [task_send HeaderFrame ?s h] =>
        destruct (task_send_disconnected HeaderFrame s h Hd0) as (Hr & Hc & Hs);
        destruct (task_send HeaderFrame s h) as [st2 r]
    end.
    cbn [fst snd sent] in Hr, Hc, Hs. subst r.
    apply (Hpay (mkStream (accumulated_audio st2) (last_send_time st2) true
                          (ws_client st2) (sent st2))); simpl; auto.
Qed.

Lemma stream_loop_disconnected (ticks : list Tick) (st : Stream) :
  is_connected (ws_client st) = false ->
  snd (stream_loop cfg st ticks) = None
  /\ is_connected (ws_client (fst (stream_loop cfg st ticks))) = false
  /\ sent (fst (stream_loop cfg st ticks)) = sent st.
Proof.
  revert st; induction ticks as [|tk ticks IH]; intros st Hd; [simpl; auto|].
  simpl stream_loop.
  destruct (iteration_disconnected st tk Hd) as (He & Hc & Hs).
  destruct (iteration cfg st tk) as [st1 oe]. cbn [fst snd] in He, Hc, Hs.
  subst oe. destruct (IH st1 Hc) as (He2 & Hc2 & Hs2).
  rewrite Hs2, Hs. auto.
Qed.

End Disconnected.

(** X15: when [is_connected] is false at the start (and the header can
    be built), the send loop runs through any session without an error and
    without sending a single frame: the audio it takes from the queue is
    dropped silently. *)
Theorem stream_audio_disconnected_drops_audio
        (cfg : Config) (c : WebSocketClient) (start_time : Z)
        (ticks : list Tick) (ending : Ending) (h : bytes) :
  is_connected c = false ->
  create_wav_header (rate cfg) (channels cfg) (sample_width cfg) = Ok h ->
  snd (_stream_audio cfg c start_time ticks ending) = None
  /\ sent (fst (_stream_audio cfg c start_time ticks ending)) = []
  /\ is_connected (ws_client (fst (_stream_audio cfg c start_time ticks ending)))
     = false.
Proof.
  intros Hd Hh. unfold _stream_audio.
  destruct (stream_loop_disconnected cfg h Hh ticks
              (mkStream [] start_time false c []) Hd) as (He & Hc & Hs).
  destruct (stream_loop cfg _ ticks) as [st oe]. cbn [fst snd] in He, Hc, Hs.
  subst oe. destruct ending; [|auto].
  destruct (nonempty_bytes (accumulated_audio st)); [|auto].
  destruct (task_send_disconnected PcmFrame st (accumulated_audio st) Hc)
    as (Hr & Hc1 & Hs1).
  destruct (task_send PcmFrame st (accumulated_audio st)) as [st1 r].
  cbn [fst snd] in Hr, Hs1, Hc1. subst r. simpl. rewrite Hs1. auto.
Qed.

Lemma stream_audio_disconnected_drops_audio_witness :
  let c := mkClient (Some (mkSocket [] true)) false None in
  let run := _stream_audio (mkConfig 16000 1 2 10000) c 0
               [mkTick Steady (Some (b "ab")) 1200;
                mkTick PeerGone (Some (b "cd")) 2400] RecordingStopped in
  snd run = None /\ sent (fst run) = []
  /\ is_connected (ws_client (fst run)) = false.
Proof.
  cbv zeta.
  exact (stream_audio_disconnected_drops_audio
           (mkConfig 16000 1 2 10000)
           (mkClient (Some (mkSocket [] true)) false None) 0
           [mkTick Steady (Some (b "ab")) 1200;
            mkTick PeerGone (Some (b "cd")) 2400] RecordingStopped
           (match create_wav_header 16000 1 2 with Ok h => h | Raise _ => [] end)
           eq_refl eq_refl).
Defined.

Section LoopErrors.

Variable cfg : Config.

Lemma create_wav_header_raises (sr ch sw : Z) (e : exn) :
  create_wav_header sr ch sw = Raise e -> e = OverflowError.
Proof.
  unfold create_wav_header.
  change (to_bytes 4294967295 4) with (Ok [xff; xff; xff; xff]).
  change (to_bytes 16 4) with (Ok [x10; x00; x00; x00]).
  change (to_bytes 1 2) with (Ok [x01; x00]).
  simpl Py.bind.
  destruct (to_bytes ch 2) as [f1|e1] eqn:E1;
    [|intros E; inversion E; subst; exact (to_bytes_raises _ _ _ E1)].
  destruct (to_bytes sr 4) as [f2|e2] eqn:E2;
    [|intros E; inversion E; subst; exact (to_bytes_raises _ _ _ E2)].
  destruct (to_bytes (sr * ch * sw) 4) as [f3|e3] eqn:E3;
    [|intros E; inversion E; subst; exact (to_bytes_raises _ _ _ E3)].
  destruct (to_bytes (ch * sw) 2) as [f4|e4] eqn:E4;
    [|intros E; inversion E; subst; exact (to_bytes_raises _ _ _ E4)].
  destruct (to_bytes (sw * 8) 2) as [f5|e5] eqn:E5;
    [|intros E; inversion E; subst; exact (to_bytes_raises _ _ _ E5)].
  discriminate.
Qed.

(** The two ways an iteration can raise. *)
Lemma iteration_error (st st' : Stream) (tk : Tick) (e : exn) :
  loop_invariant cfg st ->
  iteration cfg st tk = (st', Some e) ->
  (e = OverflowError /\ the_header cfg = Raise OverflowError /\ sent st' = [])
  \/ (e = ConnectionClosed /\ is_connected (ws_client st') = false).
Proof.
  intros Hinv. unfold iteration.
  destruct (audio tk) as [audio_data|]; [|discriminate].
  destruct (nonempty_bytes audio_data); [|discriminate].
  cbn [accumulated_audio last_send_time wav_header_sent ws_client sent].
  destruct (1000 <=? clock tk - last_send_time st)%Z; [|discriminate].
  destruct (nonempty_bytes (accumulated_audio st ++ audio_data)); [|discriminate].
  assert (Hpay : forall stx,
             match task_send PcmFrame stx (accumulated_audio stx) with
             | (st2, Raise e) => (st2, Some e)
             | (st2, Ok _) =>
                 (mkStream [] (clock tk) (wav_header_sent st2)
                           (ws_client st2) (sent st2), None)
             end = (st', Some e) ->
             e = ConnectionClosed /\ is_connected (ws_client st') = false).
  { intros stx.
    destruct (task_send_wire PcmFrame stx (accumulated_audio stx))
      as (_ & _ & _ & Hr & _).
    destruct (task_send PcmFrame stx (accumulated_audio stx)) as [st2 r].
    cbn [fst snd] in Hr. destruct r as [[]|e']; [discriminate|].
    intros E; inversion E; subst. apply Hr; reflexivity. }
  destruct (wav_header_sent st) eqn:Hh; simpl negb; cbv iota.
  - intros E. right. exact (Hpay _ E).
  - unfold send_header. fold (the_header cfg).
    destruct (the_header cfg) as [h|e'] eqn:Eh.
    + match goal with
      | |- context [task_send HeaderFrame ?s h] =>
          destruct (task_send_wire HeaderFrame s h) as (_ & _ & _ & Hr & _);
          destruct (task_send HeaderFrame s h) as [st2 r]
      end.
      cbn [fst snd] in Hr. destruct r as [[]|e''].
      * intros E. right. exact (Hpay _ E).
      * intros E; inversion E; subst. right. apply Hr; reflexivity.
    + intros E; inversion E; subst. left.
      pose proof (create_wav_header_raises _ _ _ _ Eh) as ->.
      split; [reflexivity|]. split; [reflexivity|]. simpl.
      destruct Hinv as [[Hs _] | (Hh' & _)]; [exact Hs | congruence].
Qed.

Lemma stream_loop_error (ticks : list Tick) (st st' : Stream) (e : exn) :
  loop_invariant cfg st ->
  stream_loop cfg st ticks = (st', Some e) ->
  (e = OverflowError /\ the_header cfg = Raise OverflowError /\ sent st' = [])
  \/ (e = ConnectionClosed /\ is_connected (ws_client st') = false).
Proof.
  revert st; induction ticks as [|tk ticks IH]; intros st Hinv; [discriminate|].
  simpl. pose proof (iteration_invariant cfg st tk Hinv) as H1.
  destruct (iteration cfg st tk) as [st1 [e1|]] eqn:Ei.
  - intros E; inversion E; subst. exact (iteration_error st st' tk e Hinv Ei).
  - apply IH. exact H1.
Qed.

End LoopErrors.

(** X16: the send loop ends with an exception in two ways only: with
    [OverflowError], when the header cannot be built from the configured
    values, and then nothing was sent; or with the error of a failed
    write, and then [is_connected] has been set to false. *)
Theorem stream_audio_errors
        (cfg : Config) (c : WebSocketClient) (start_time : Z)
        (ticks : list Tick) (ending : Ending) (e : exn) :
  snd (_stream_audio cfg c start_time ticks ending) = Some e ->
  (e = OverflowError
   /\ create_wav_header (rate cfg) (channels cfg) (sample_width cfg)
      = Raise OverflowError
   /\ sent (fst (_stream_audio cfg c start_time ticks ending)) = [])
  \/ (e = ConnectionClosed
      /\ is_connected (ws_client (fst (_stream_audio cfg c start_time ticks ending)))
         = false).
Proof.
  unfold _stream_audio.
  assert (Hinv : loop_invariant cfg (mkStream [] start_time false c []))
    by (left; split; [reflexivity | discriminate]).
  destruct (stream_loop cfg _ ticks) as [st [e1|]] eqn:El.
  - cbn [fst snd]. intros E; inversion E; subst.
    exact (stream_loop_error cfg ticks _ st e Hinv El).
  - destruct ending; [|discriminate].
    destruct (nonempty_bytes (accumulated_audio st)); [|discriminate].
    destruct (task_send_wire PcmFrame st (accumulated_audio st))
      as (_ & _ & _ & Hr & _).
    destruct (task_send PcmFrame st (accumulated_audio st)) as [st1 r].
    cbn [fst snd] in Hr. destruct r as [[]|e']; [discriminate|].
    cbn [fst snd]. intros E; inversion E; subst. right. apply Hr; reflexivity.
Qed.

Lemma stream_audio_errors_witness :
  let c := mkClient (Some (mkSocket [] true)) true None in
  let run := _stream_audio (mkConfig 16000 1 2 10000) c 0
               [mkTick Steady (Some (b "ab")) 1200;
                mkTick PeerGone (Some (b "cd")) 2400;
                mkTick Steady (Some (b "ef")) 3600] TaskCancelled in
  snd run = Some ConnectionClosed
  /\ is_connected (ws_client (fst run)) = false
  /\ pcm_payload (sent (fst run)) = b "ab".
Proof.
  cbv zeta.
  destruct (stream_audio_errors
              (mkConfig 16000 1 2 10000)
              (mkClient (Some (mkSocket [] true)) true None) 0
              [mkTick Steady (Some (b "ab")) 1200;
               mkTick PeerGone (Some (b "cd")) 2400;
               mkTick Steady (Some (b "ef")) 3600] TaskCancelled
              ConnectionClosed eq_refl) as [(E & _) | (_ & H)];
    [discriminate E|].
  split; [reflexivity|]. split; [exact H | reflexivity].
Defined.

(** ** audio_recorder.py *)

(** X17: the recorder's queue is first-in first-out and loses nothing:
    after any sequence of starts, stops, captured chunks and polls, the
    chunks the polls returned followed by those still queued are the
    chunks queued before followed by exactly the chunks captured while the
    recorder was recording, in order.  Chunks captured while it was not
    recording are dropped, and a start that fails leaves it not
    recording. *)
Theorem recorder_queue_fifo (self : AudioRecorder) (events : list Event) :
  let self' := fst (run self events) in
  let polled := snd (run self events) in
  AudioRecorderModel.is_recording self'
  = recording_after (AudioRecorderModel.is_recording self) events
  /\ chunks polled ++ audio_queue self'
     = audio_queue self ++ accepted (AudioRecorderModel.is_recording self) events.
Proof.
  cbv zeta. revert self; induction events as [|ev events IH]; intros self.
  - simpl. rewrite app_nil_r. auto.
  - destruct ev as [device| |in_data|].
    + simpl run. destruct (IH (fst (start_recording self device))) as [H1 H2].
      rewrite H1, H2. unfold start_recording.
      destruct self as [[|] st q]; destruct device; simpl; auto.
    + simpl run. destruct (IH (stop_recording self)) as [H1 H2].
      rewrite H1, H2. unfold stop_recording.
      destruct self as [[|] st q]; simpl; auto.
    + simpl run. destruct (IH (_audio_callback self in_data)) as [H1 H2].
      rewrite H1, H2. unfold _audio_callback.
      destruct self as [[|] st q]; simpl; rewrite <- ?app_assoc; auto.
    + simpl run. unfold get_audio_chunk.
      destruct self as [r st [|chunk q]]; simpl.
      * destruct (IH (mkRecorder r st [])) as [H1 H2].
        destruct (run (mkRecorder r st []) events) as [self' polled].
        simpl in *. auto.
      * destruct (IH (mkRecorder r st q)) as [H1 H2].
        destruct (run (mkRecorder r st q) events) as [self' polled].
        simpl in *. rewrite H2. auto.
Qed.

Section RecorderLifecycle.

Lemma start_stop_keep_queue (events : list Event) (self : AudioRecorder) :
  Forall lifecycle events ->
  snd (run self events) = []
  /\ audio_queue (fst (run self events)) = audio_queue self.
Proof.
  revert self; induction events as [|ev events IH]; intros self H;
    [split; reflexivity|].
  inversion H as [|? ? Hev Hrest]; subst.
  destruct ev as [device| |in_data|]; try contradiction; simpl run.
  - destruct (IH (fst (start_recording self device)) Hrest) as [H1 H2].
    rewrite H1, H2. unfold start_recording.
    destruct self as [[|] st q]; destruct device; auto.
  - destruct (IH (stop_recording self) Hrest) as [H1 H2].
    rewrite H1, H2. unfold stop_recording.
    destruct self as [[|] st q]; auto.
Qed.

Lemma run_app (a rest : list Event) (self : AudioRecorder) :
  run self (a ++ rest)
  = (fst (run (fst (run self a)) rest),
     snd (run self a) ++ snd (run (fst (run self a)) rest)).
Proof.
  revert self; induction a as [|ev a IH]; intros self.
  - simpl. destruct (run self rest); reflexivity.
  - destruct ev as [device| |in_data|]; simpl; try apply IH.
    destruct (get_audio_chunk self) as [self1 chunk].
    rewrite IH. destruct (run self1 a) as [self2 polled]. reflexivity.
Qed.

End RecorderLifecycle.

(** X18: no sequence of starts and stops, successful or not, changes the
    recorder's queue: the chunks queued when a session stops are still
    there when the next one starts, and the first poll after them returns
    the oldest chunk queued before. *)
Theorem recorder_keeps_chunks_across_sessions
        (self : AudioRecorder) (events : list Event) :
  Forall lifecycle events ->
  audio_queue (fst (run self events)) = audio_queue self
  /\ snd (run self (events ++ [GetChunk])) = [hd_error (audio_queue self)].
Proof.
  intros H. destruct (start_stop_keep_queue events self H) as [H1 H2].
  split; [exact H2|].
  rewrite run_app, H1. simpl. unfold get_audio_chunk. rewrite H2.
  destruct (audio_queue self); reflexivity.
Qed.

Lemma recorder_keeps_chunks_across_sessions_witness :
  snd (run (mkRecorder true true [b "left over"; b "later"])
           ([Stop; Start OpenRaises; Start DeviceStarts] ++ [GetChunk]))
  = [Some (b "left over")].
Proof.
  destruct (recorder_keeps_chunks_across_sessions
              (mkRecorder true true [b "left over"; b "later"])
              [Stop; Start OpenRaises; Start DeviceStarts]) as [_ H].
  - repeat constructor.
  - exact H.
Defined.

(** ** speech_recognition_app.py: the hotkey listener *)

Section Hotkeys.

Variables (hotkey : list Key) (hotkey_cooldown : Z).
Hypothesis cooldown_nonneg : (0 <= hotkey_cooldown)%Z.

Lemma spaced_snoc (times : list Z) (t : Z) :
  spaced hotkey_cooldown times ->
  (forall t', In t' times -> (hotkey_cooldown <= t - t')%Z) ->
  spaced hotkey_cooldown (times ++ [t]).
Proof.
  induction times as [|a times IH]; intros Hs Hall; [exact I|].
  destruct times as [|a' times].
  - simpl. split; [apply Hall; left; reflexivity | exact I].
  - destruct Hs as [H1 H2]. split; [exact H1|].
    apply IH; [exact H2|]. intros t' Hin. apply Hall. right. exact Hin.
Qed.

Lemma on_event_ok (self : Hotkeys) (ev : KeyEvent) :
  hotkeys_ok hotkey_cooldown self ->
  hotkeys_ok hotkey_cooldown (on_event hotkey hotkey_cooldown self ev).
Proof.
  intros [Hs Hl]. destruct ev as [key current_time loop_open|key];
    [|split; assumption].
  simpl. unfold _on_key_press.
  destruct (superset _ hotkey); [|split; assumption].
  destruct (current_time - last_hotkey_time self <? hotkey_cooldown)%Z eqn:E;
    [split; assumption|].
  apply Z.ltb_ge in E.
  destruct loop_open; split; simpl.
  - apply spaced_snoc; [exact Hs|]. intros t' Hin. specialize (Hl t' Hin). lia.
  - intros t Hin. apply in_app_or in Hin as [Hin | [<- | []]]; [|lia].
    specialize (Hl t Hin). lia.
  - exact Hs.
  - intros t Hin. specialize (Hl t Hin). lia.
Qed.

Lemma listen_keys_ok (events : list KeyEvent) (self : Hotkeys) :
  hotkeys_ok hotkey_cooldown self ->
  hotkeys_ok hotkey_cooldown (listen_keys hotkey hotkey_cooldown self events).
Proof.
  unfold listen_keys. revert self; induction events as [|ev events IH];
    intros self H; [exact H|].
  simpl. apply IH, on_event_ok, H.
Qed.

End Hotkeys.

(** X19: with a cooldown that is not negative, whatever keys are pressed
    and released and whatever the clock reads, any two toggles submitted
    one after the other are at least the cooldown apart. *)
Theorem toggles_are_spaced
        (hotkey : list Key) (hotkey_cooldown : Z) (pressed : list Key)
        (last : Z) (events : list KeyEvent) :
  (0 <= hotkey_cooldown)%Z ->
  spaced hotkey_cooldown
         (submitted (listen_keys hotkey hotkey_cooldown
                                 (mkHotkeys pressed last []) events)).
Proof.
  intros H.
  apply (listen_keys_ok hotkey hotkey_cooldown H events
                        (mkHotkeys pressed last [])).
  split; [exact I | intros t []].
Qed.

Lemma toggles_are_spaced_witness :
  submitted (listen_keys [1; 2; 3]%N 500 (mkHotkeys [] 0 [])
               [Press 1%N 1000 true; Press 2%N 1010 true; Press 3%N 1020 true;
                Press 3%N 1100 true; Press 3%N 1400 true; Press 3%N 1600 true;
                Release 3%N; Press 3%N 1700 true; Press 3%N 2200 true])
  = [1020; 1600; 2200]%Z
  /\ spaced 500 [1020; 1600; 2200]%Z.
Proof.
  split; [reflexivity|].
  exact (toggles_are_spaced [1; 2; 3]%N 500 [] 0
           [Press 1%N 1000 true; Press 2%N 1010 true; Press 3%N 1020 true;
            Press 3%N 1100 true; Press 3%N 1400 true; Press 3%N 1600 true;
            Release 3%N; Press 3%N 1700 true; Press 3%N 2200 true]
           ltac:(lia)).
Defined.

Section KeysHeld.

Lemma key_in_discard (k : Key) (keys : list Key) :
  key_in k (set_discard k keys) = false.
Proof.
  unfold key_in, set_discard. induction keys as [|a keys IH]; [reflexivity|].
  simpl. destruct (a =? k)%N eqn:E; simpl; [exact IH|]. rewrite E. exact IH.
Qed.

Lemma key_in_add_other (k k' : Key) (keys : list Key) :
  k' <> k -> key_in k (set_add k' keys) = key_in k keys.
Proof.
  intros Hne. unfold set_add. destruct (key_in k' keys); [reflexivity|].
  unfold key_in. simpl. apply N.eqb_neq in Hne. rewrite Hne. reflexivity.
Qed.

Lemma superset_missing (k : Key) (pressed hotkey : list Key) :
  In k hotkey -> key_in k pressed = false -> superset pressed hotkey = false.
Proof.
  intros Hin Hk. unfold superset.
  destruct (forallb (fun k0 => key_in k0 pressed) hotkey) eqn:E; [|reflexivity].
  rewrite forallb_forall in E. rewrite (E k Hin) in Hk. discriminate.
Qed.

End KeysHeld.

(** X20: once a key of the combination has been released, pressing any
    other key submits no toggle and does not restart the cooldown,
    whatever the clock reads. *)
Theorem released_key_blocks_hotkey
        (hotkey : list Key) (hotkey_cooldown : Z) (self : Hotkeys)
        (k k' : Key) (current_time : Z) (loop_open : bool) :
  In k hotkey -> k' <> k ->
  let self' := _on_key_press hotkey hotkey_cooldown (_on_key_release self k)
                             k' current_time loop_open in
  submitted self' = submitted self
  /\ last_hotkey_time self' = last_hotkey_time self.
Proof.
  intros Hin Hne. cbv zeta. unfold _on_key_press, _on_key_release. simpl.
  rewrite (superset_missing k _ hotkey Hin); [auto|].
  rewrite (key_in_add_other k k' _ Hne). apply key_in_discard.
Qed.

Lemma released_key_blocks_hotkey_witness :
  submitted (_on_key_press [1; 2; 3]%N 500
               (_on_key_release (mkHotkeys [3; 2; 1]%N 0 []) 2%N)
               3%N 1000 true)
  = [].
Proof.
  destruct (released_key_blocks_hotkey [1; 2; 3]%N 500
              (mkHotkeys [3; 2; 1]%N 0 []) 2%N 3%N 1000 true) as [H _].
  - simpl; auto.
  - discriminate.
  - exact H.
Defined.

(** ** speech_recognition_app.py: starting and stopping a session *)

Section ListenerFacts.

Lemma receive_loop_split (a rest : list Message) (closure : Closure) (s : Session) :
  receive_loop s (a ++ rest) closure
  = match receive_loop s a PeerClosed with
    | (s', None) => receive_loop s' rest closure
    | stopped => stopped
    end.
Proof.
  revert s; induction a as [|m a IH]; intros s; [reflexivity|].
  simpl. destruct (json_loads m) as [data|e]; [|reflexivity].
  destruct (_handle_message s data) as [s1|e]; [apply IH | reflexivity].
Qed.

(** Only a terminal message with text makes an active typing session
    inactive. *)
Lemma receive_loop_ends_session (messages : list Message) (closure : Closure)
      (s s' : Session) (oe : option exn) :
  receive_loop s messages closure = (s', oe) ->
  is_typing_session_active (text_inserter s) = true ->
  is_typing_session_active (text_inserter s') = false ->
  transcription_callback (client s) = Some InsertTextMethod
  /\ exists m, In m messages /\ ends_session m.
Proof.
  revert s; induction messages as [|m messages IH]; intros s; simpl.
  - destruct closure; intros E; inversion E; subst; congruence.
  - destruct m as [| | |data]; simpl;
      try (intros E; inversion E; subst; congruence).
    destruct (_handle_message s data) as [s1|e] eqn:Eh;
      [|intros E; inversion E; subst; congruence].
    intros E Ha Hi.
    destruct (handle_message_cases s s1 data Eh)
      as [-> | (Hcb & fields & text & -> & Hex & Hne & Hs)].
    + destruct (IH s E Ha Hi) as (Hc & m & Hin & Hm).
      split; [exact Hc|]. exists m. auto.
    + destruct Hs as [[Hty ->] | [Hty ->]].
      * assert (Ha1 : is_typing_session_active
                        (text_inserter
                           (set_text_inserter s (insert_text (text_inserter s) text)))
                      = true).
        { simpl. destruct (insert_text_cases (text_inserter s) text)
            as [E1 | (pre & part & _ & _ & _ & _ & E1)]; rewrite E1; exact Ha. }
        destruct (IH _ E Ha1 Hi) as (_ & m & Hin & Hm).
        split; [exact Hcb|]. exists m. auto.
      * split; [exact Hcb|]. exists (WellFormed (JObject fields)).
        split; [left; reflexivity|].
        exists (JObject fields), text. auto.
Qed.

(** During a sleep the listen task does what [listen_for_messages] does
    on the messages that arrived. *)
Lemma listener_step_listens (s : Session) (ws : Socket) (w : Wake) :
  websocket (client s) = Some ws ->
  fst (listener_step s w)
  = fst (listen_for_messages s (arrived w)
           (match closing w with Some cl => cl | None => PeerClosed end)).
Proof.
  intros Hws. unfold listener_step, listen_for_messages. rewrite Hws.
  destruct (receive_loop s (arrived w) _) as [s1 [e|]];
    [destruct e|]; reflexivity.
Qed.

Lemma listener_step_frame (s : Session) (w : Wake) :
  let s' := fst (listener_step s w) in
  websocket (client s') = websocket (client s)
  /\ transcription_callback (client s') = transcription_callback (client s)
  /\ log_extends s s'
  /\ (is_typing_session_active (text_inserter s) = true ->
      is_typing_session_active (text_inserter s') = false ->
      transcription_callback (client s) = Some InsertTextMethod
      /\ exists m, In m (arrived w) /\ ends_session m).
Proof.
  cbv zeta. unfold listener_step.
  destruct (receive_loop s (arrived w) _) as [s1 oe] eqn:E.
  destruct (receive_loop_frame _ _ s s1 oe E) as [Hc Hl].
  pose proof (receive_loop_ends_session _ _ s s1 oe E) as He.
  destruct oe as [e|]; [destruct e|]; simpl; rewrite Hc; auto.
Qed.

Lemma drain_session_as_drain_loop
      (max_wait start : Z) (wakes : list Wake) (k : nat) (now : Z)
      (s : Session) (listening : bool) :
  fst (fst (drain_session max_wait start k now s listening wakes))
  = drain_loop max_wait start k now (polls_of s listening wakes).
Proof.
  revert k now s listening; induction wakes as [|w wakes IH];
    intros k now s listening; simpl.
  - destruct (now - start <? max_wait)%Z; reflexivity.
  - destruct (if listening then listener_step s w else (s, false)) as [s1 l1].
    simpl. destruct (now - start <? max_wait)%Z; [|reflexivity].
    destruct (is_typing_session_active (text_inserter s1)); simpl;
      [apply IH | reflexivity].
Qed.

Lemma polls_of_length (wakes : list Wake) (s : Session) (listening : bool) :
  length (polls_of s listening wakes) = length wakes.
Proof.
  revert s listening; induction wakes as [|w wakes IH]; intros s listening;
    [reflexivity|].
  simpl. destruct (if listening then listener_step s w else (s, false)).
  simpl. rewrite IH. reflexivity.
Qed.

Lemma polls_of_last (d : Z) (wakes : list Wake) (now : Z) (s : Session)
      (listening : bool) :
  wakes_last d now wakes -> sleeps_last d now (polls_of s listening wakes).
Proof.
  revert now s listening; induction wakes as [|w wakes IH];
    intros now s listening H; [exact I|].
  destruct H as [H1 H2]. simpl.
  destruct (if listening then listener_step s w else (s, false)).
  simpl. split; [exact H1 | apply IH; exact H2].
Qed.

Lemma drain_session_frame
      (max_wait start : Z) (wakes : list Wake) (k : nat) (now : Z)
      (s : Session) (listening : bool) :
  let s' := snd (fst (drain_session max_wait start k now s listening wakes)) in
  transcription_callback (client s') = transcription_callback (client s)
  /\ log_extends s s'.
Proof.
  cbv zeta. revert k now s listening; induction wakes as [|w wakes IH];
    intros k now s listening; simpl.
  - destruct (now - start <? max_wait)%Z; simpl;
      (split; [reflexivity | apply log_extends_refl]).
  - destruct (now - start <? max_wait)%Z; simpl;
      [|split; [reflexivity | apply log_extends_refl]].
    assert (H1 : transcription_callback
                   (client (fst (if listening then listener_step s w
                                 else (s, false))))
                 = transcription_callback (client s)
                 /\ log_extends s (fst (if listening then listener_step s w
                                        else (s, false)))).
    { destruct listening; [|simpl; split; [reflexivity | apply log_extends_refl]].
      destruct (listener_step_frame s w) as (_ & Hc & Hl & _). auto. }
    destruct (if listening then listener_step s w else (s, false)) as [s1 l1].
    simpl in H1. destruct H1 as [Hc1 Hl1].
    destruct (is_typing_session_active (text_inserter s1)); simpl.
    + destruct (IH (S k) (wake_clock w) s1 l1) as [Hc2 Hl2].
      split; [congruence | exact (log_extends_trans s s1 _ Hl1 Hl2)].
    + auto.
Qed.

End ListenerFacts.

(** X21: [listen_for_messages] handles a stream piece by piece: on the
    messages [a] followed by [rest] it does what it does on [rest] from
    the session reached on [a], unless an error among [a] already ended
    it. *)
Theorem listen_for_messages_app
        (s : Session) (ws : Socket) (a rest : list Message) (closure : Closure) :
  websocket (client s) = Some ws ->
  listen_for_messages s (a ++ rest) closure
  = match listen_for_messages s a PeerClosed with
    | (s', None) => listen_for_messages s' rest closure
    | stopped => stopped
    end.
Proof.
  intros Hws. unfold listen_for_messages at 1 2. rewrite Hws.
  rewrite receive_loop_split.
  destruct (receive_loop s a PeerClosed) as [s1 oe] eqn:E.
  destruct (receive_loop_frame a PeerClosed s s1 oe E) as [Hc _].
  destruct oe as [e|]; [destruct e; reflexivity|].
  unfold listen_for_messages. rewrite Hc, Hws. reflexivity.
Qed.

Lemma listen_for_messages_app_witness :
  listen_for_messages live_session
    ([WellFormed (message None [py "one"])]
     ++ [WellFormed (message None [py "one two"])]) PeerClosed
  = listen_for_messages
      (fst (listen_for_messages live_session
              [WellFormed (message None [py "one"])] PeerClosed))
      [WellFormed (message None [py "one two"])] PeerClosed.
Proof.
  rewrite (listen_for_messages_app live_session (mkSocket [] true)
             [WellFormed (message None [py "one"])]
             [WellFormed (message None [py "one two"])] PeerClosed eq_refl).
  reflexivity.
Defined.

(** X22: a drain loop entered with the typing session active stops early
    only if the callback is the inserter's [insert_text] and, during one
    of its sleeps, a "ready_to_stop" message with non-blank text arrived;
    a terminal message without text, or no terminal message, lets it run
    until the timeout. *)
Theorem drain_stops_early_only_at_terminal_text
        (max_wait start : Z) (wakes : list Wake) (k : nat) (now : Z)
        (s s' : Session) (listening listening' : bool) (k' : nat) (t : Z) :
  is_typing_session_active (text_inserter s) = true ->
  drain_session max_wait start k now s listening wakes
  = (StoppedEarly k' t, s', listening') ->
  transcription_callback (client s) = Some InsertTextMethod
  /\ exists w m, In w wakes /\ In m (arrived w) /\ ends_session m.
Proof.
  revert k now s listening; induction wakes as [|w wakes IH];
    intros k now s listening Ha; simpl.
  - destruct (now - start <? max_wait)%Z; discriminate.
  - destruct (now - start <? max_wait)%Z; [|discriminate].
    destruct listening.
    + destruct (listener_step_frame s w) as (_ & Hc & _ & He).
      destruct (listener_step s w) as [s1 l1]. simpl in Hc, He.
      destruct (is_typing_session_active (text_inserter s1)) eqn:Ea1; simpl.
      * intros E. destruct (IH _ _ _ _ Ea1 E) as (Hcb & w' & m & Hw & Hm & Hs).
        split; [congruence|]. exists w', m. auto.
      * intros _. destruct (He Ha eq_refl) as (Hcb & m & Hm & Hs).
        split; [exact Hcb|]. exists w, m. auto.
    + simpl. rewrite Ha. simpl. intros E.
      destruct (IH _ _ _ _ Ha E) as (Hcb & w' & m & Hw & Hm & Hs).
      split; [exact Hcb|]. exists w', m. auto.
Qed.

Lemma drain_stops_early_only_at_terminal_text_witness :
  let final := WellFormed (message (Some (py "ready_to_stop")) [py "bye"]) in
  let empty := WellFormed (message (Some (py "ready_to_stop")) []) in
  fst (fst (drain_session 250 0 0 0 live_session true
              [mkWake 100 [empty] None; mkWake 200 [final] None]))
  = StoppedEarly 2 200
  /\ fst (fst (drain_session 250 0 0 0 live_session true
                 [mkWake 100 [empty] None; mkWake 200 [empty] None;
                  mkWake 300 [] None]))
     = TimedOut 3 300
  /\ transcription_callback (client live_session) = Some InsertTextMethod.
Proof.
  cbv zeta. split; [reflexivity|]. split; [reflexivity|].
  destruct (drain_stops_early_only_at_terminal_text
              250 0
              [mkWake 100 [WellFormed (message (Some (py "ready_to_stop")) [])]
                      None;
               mkWake 200 [WellFormed (message (Some (py "ready_to_stop"))
                                               [py "bye"])] None]
              0 0 live_session
              (set_text_inserter live_session
                 (end_typing_session
                    (insert_text (start_typing_session init) (py "bye"))))
              true true 2 200 eq_refl eq_refl) as [H _].
  exact H.
Defined.

(** X23: a start that fails leaves the application not recording, with
    no task created and the recorder untouched, but with the typing
    session already marked active.  When the connection fails the client
    is left disconnected with the socket it had; when the connection
    succeeds and the audio device then fails, the client stays connected
    to the new socket. *)
Theorem start_recording_failures
        (cfg : Config) (app : App) (attempt : ConnectAttempt) (device : Device)
        (wait_start_time : Z) (wakes : list Wake) :
  is_recording app = false ->
  AudioRecorderModel.is_recording (recorder app) = false ->
  let inserter := start_typing_session (text_inserter (session app)) in
  let started := _start_recording cfg app attempt device wait_start_time wakes in
  ((forall ws, attempt <> Connects ws) ->
     started
     = Some (mkApp false (recorder app)
                   (mkSession (set_is_connected (client (session app)) false)
                              inserter)
                   (audio_task app) (listen_task app)))
  /\ (forall ws, attempt = Connects ws -> device <> DeviceStarts ->
        exists r,
          started
          = Some (mkApp false r
                        (mkSession
                           (set_is_connected
                              (set_websocket (client (session app)) (Some ws))
                              true)
                           inserter)
                        (audio_task app) (listen_task app))
          /\ AudioRecorderModel.is_recording r = false
          /\ audio_queue r = audio_queue (recorder app)).
Proof.
  intros Hr Hrr. cbv zeta. unfold _start_recording. rewrite Hr. split.
  - intros Hn. destruct attempt as [ws| |]; [exfalso; exact (Hn ws eq_refl)| |];
      simpl; unfold _stop_recording; simpl; reflexivity.
  - intros ws -> Hd. simpl. unfold start_recording. rewrite Hrr.
    destruct device; [contradiction| |];
      unfold _stop_recording; simpl; rewrite ?Hrr;
      eexists; (split; [reflexivity|]); simpl; auto.
Qed.

Lemma start_recording_failures_witness :
  _start_recording (mkConfig 16000 1 2 10000) new_app
                   (Connects (mkSocket [] true)) OpenRaises 0 []
  = Some (mkApp false new_recorder
                (mkSession (mkClient (Some (mkSocket [] true)) true
                                     (Some InsertTextMethod))
                           (start_typing_session init))
                None None)
  /\ _start_recording (mkConfig 16000 1 2 10000) new_app
                      ConnectTimesOut DeviceStarts 0 []
     = Some (mkApp false new_recorder
                   (mkSession (mkClient None false (Some InsertTextMethod))
                              (start_typing_session init))
                   None None).
Proof.
  destruct (start_recording_failures
              (mkConfig 16000 1 2 10000) new_app
              ConnectTimesOut DeviceStarts 0 [] eq_refl eq_refl) as [H _].
  split; [reflexivity|]. apply H. discriminate.
Defined.

(** X24: when every sleep lasts at least 0.1 s and the wakes cover the
    drain timeout, [_stop_recording] on a recording application returns,
    and leaves it idle: not recording, the recorder stopped, both tasks
    dropped, the typing session inactive, the client disconnected without
    a socket; key strokes were only added, chunks still queued are kept,
    and stopping again changes nothing. *)
Theorem stop_recording_returns_to_idle
        (cfg : Config) (app : App) (wait_start_time : Z) (wakes : list Wake) :
  is_recording app = true ->
  wakes_last 100 wait_start_time wakes ->
  (max_wait_time cfg <= 100 * Z.of_nat (length wakes))%Z ->
  exists app',
    _stop_recording cfg app wait_start_time wakes = Some app'
    /\ idle app'
    /\ log_extends (session app) (session app')
    /\ audio_queue (recorder app') = audio_queue (recorder app)
    /\ forall t ws, _stop_recording cfg app' t ws = Some app'.
Proof.
  intros Hr Hw Hlen. unfold _stop_recording. rewrite Hr. simpl negb. cbv iota zeta.
  set (s0 := set_client (session app) (send_stop_signal (client (session app)))).
  pose proof (drain_session_as_drain_loop (max_wait_time cfg) wait_start_time
                wakes 0 wait_start_time s0 (is_listening (listen_task app))) as Hd.
  pose proof (drain_session_frame (max_wait_time cfg) wait_start_time
                wakes 0 wait_start_time s0 (is_listening (listen_task app)))
    as [_ Hl].
  pose proof (drain_loop_ends (max_wait_time cfg) wait_start_time
                (polls_of s0 (is_listening (listen_task app)) wakes)
                0 wait_start_time) as He.
  pose proof (reading_lower_bound 100
                (polls_of s0 (is_listening (listen_task app)) wakes)
                wait_start_time
                (length (polls_of s0 (is_listening (listen_task app)) wakes))
                ltac:(lia)
                (polls_of_last 100 wakes wait_start_time s0 _ Hw)
                (Nat.le_refl _)) as Hb.
  rewrite polls_of_length in Hb.
  destruct (drain_session (max_wait_time cfg) wait_start_time 0 wait_start_time
                          s0 (is_listening (listen_task app)) wakes)
    as [[e s1] l1].
  simpl in Hd, Hl. rewrite <- Hd in He.
  assert (Hidle : forall app',
             app' = mkApp false (stop_recording (recorder app))
                          (mkSession (disconnect (client s1))
                                     (end_typing_session (text_inserter s1)))
                          None None ->
             idle app'
             /\ log_extends (session app) (session app')
             /\ audio_queue (recorder app') = audio_queue (recorder app)
             /\ forall t ws, _stop_recording cfg app' t ws = Some app').
  { intros app' ->. split; [|split; [|split]].
    - unfold idle; simpl. unfold stop_recording.
      destruct (AudioRecorderModel.is_recording (recorder app)) eqn:E;
        simpl; rewrite ?E; auto 10.
    - destruct Hl as [typed Ht]. exists typed. simpl. rewrite Ht.
      subst s0. reflexivity.
    - simpl. unfold stop_recording.
      destruct (AudioRecorderModel.is_recording (recorder app)); reflexivity.
    - intros t ws. reflexivity. }
  destruct e as [k t | k t |].
  - eexists. split; [reflexivity|]. apply Hidle. reflexivity.
  - eexists. split; [reflexivity|]. apply Hidle. reflexivity.
  - exfalso.
    specialize (He (length (polls_of s0 (is_listening (listen_task app)) wakes))
                   (Nat.le_refl _)).
    rewrite polls_of_length in He. lia.
Qed.

Lemma stop_recording_returns_to_idle_witness :
  let app := mkApp true (mkRecorder true true [b "queued"]) live_session
                   (Some Running) (Some Running) in
  let final := WellFormed (message (Some (py "ready_to_stop")) [py "bye"]) in
  exists app',
    _stop_recording (mkConfig 16000 1 2 250) app 0
                    [mkWake 100 [] None; mkWake 200 [final] None;
                     mkWake 300 [] None] = Some app'
    /\ idle app'
    /\ controller (text_inserter (session app')) = py "bye"
    /\ audio_queue (recorder app') = [b "queued"].
Proof.
  cbv zeta.
  destruct (stop_recording_returns_to_idle
              (mkConfig 16000 1 2 250)
              (mkApp true (mkRecorder true true [b "queued"]) live_session
                     (Some Running) (Some Running))
              0
              [mkWake 100 [] None;
               mkWake 200 [WellFormed (message (Some (py "ready_to_stop"))
                                               [py "bye"])] None;
               mkWake 300 [] None])
    as (app' & E & Hi & _ & Hq & _).
  - reflexivity.
  - simpl. lia.
  - simpl. lia.
  - exists app'. split; [exact E|]. split; [exact Hi|].
    split; [|exact Hq].
    vm_compute in E. inversion E. reflexivity.
Defined.

(** ** From the extracted text to the inserter *)

Section NormalForm.

Lemma join_cons (sep p : str) (rest : list str) :
  rest <> [] -> join sep (p :: rest) = p ++ sep ++ join sep rest.
Proof. destruct rest; [contradiction | reflexivity]. Qed.

Lemma ends_nonspace_tail (c : char) (s : str) :
  s <> [] -> ends_nonspace (c :: s) -> ends_nonspace s.
Proof. intros Hs H. exact (ends_nonspace_suffix [c] s Hs H). Qed.

(** Rejoining the words of a tidy string gives the string back; [cur] is
    the beginning of the word being read. *)
Lemma join_split_from (s cur : str) :
  only_spaces s = true ->
  has_double_space s = false ->
  (s = [] \/ ends_nonspace s) ->
  (cur = [] -> head_is_space s = false) ->
  join [SPACE] (split_from cur s) = rev cur ++ s.
Proof.
  revert cur; induction s as [|c s IH]; intros cur Ho Hd He Hh.
  - simpl. destruct cur as [|x cur]; [reflexivity|].
    simpl. rewrite app_nil_r. reflexivity.
  - simpl in Ho. apply andb_true_iff in Ho as [Hc Ho].
    rewrite has_double_space_cons in Hd.
    apply orb_false_iff in Hd as [Hcd Hd].
    assert (He' : s = [] \/ ends_nonspace s).
    { destruct s as [|d s]; [left; reflexivity | right].
      destruct He as [He|He]; [discriminate|].
      apply (ends_nonspace_tail c); [discriminate | exact He]. }
    simpl split_from. destruct (isspace c) eqn:Ews.
    + simpl in Hc. assert (Esp : is_sp c = true) by exact Hc.
      rewrite Esp in Hcd. simpl in Hcd.
      assert (Hs : s <> []).
      { intros ->. destruct He as [He|(s' & x & E & Hx)]; [discriminate|].
        destruct s' as [|y s']; [|destruct s'; discriminate].
        inversion E; subst. congruence. }
      destruct cur as [|x cur].
      { simpl in Hh. rewrite Hh in Esp by reflexivity. discriminate. }
      pose proof (IH [] Ho Hd He' (fun _ => Hcd)) as IH0. simpl in IH0.
      rewrite join_cons.
      * rewrite IH0. apply N.eqb_eq in Esp. subst c. reflexivity.
      * intros E. rewrite E in IH0. simpl in IH0. congruence.
    + rewrite (IH (c :: cur) Ho Hd He'); [|discriminate].
      simpl. rewrite <- app_assoc. reflexivity.
Qed.

Lemma lstrip_fixed_head (s : str) : lstrip s = s -> head_is_space s = false.
Proof.
  destruct s as [|c s]; [reflexivity|]. simpl.
  destruct (isspace c) eqn:E.
  - intros H. destruct (lstrip_suffix s) as [a Ha].
    apply (f_equal (@length char)) in H. apply (f_equal (@length char)) in Ha.
    rewrite length_app in Ha. simpl in H. lia.
  - intros _. destruct (is_sp c) eqn:Es; [|reflexivity].
    rewrite (is_sp_isspace c Es) in E. discriminate.
Qed.

Lemma tidy_normalized (s : str) :
  strip s = s -> has_double_space s = false -> only_spaces s = true ->
  normalized s.
Proof.
  intros Hs Hd Ho. unfold normalized, split.
  assert (He : s = [] \/ ends_nonspace s)
    by (rewrite <- Hs; apply strip_cases).
  rewrite (join_split_from s [] Ho Hd He); [reflexivity|].
  intros _. apply lstrip_fixed_head.
  destruct He as [-> | He]; [reflexivity|].
  unfold strip in Hs. rewrite (rstrip_ends_nonspace s He) in Hs. exact Hs.
Qed.

End NormalForm.

(** X25: when the text that [_extract_transcription] returns has no
    whitespace other than space characters, it is normalized: joining its
    words with single spaces gives it back, and [_clean_text] leaves it
    unchanged, so [insert_text] compares and types it as it is. *)
Theorem extracted_text_is_normalized (data : json) (text : str) :
  _extract_transcription data = Ok text ->
  only_spaces text = true ->
  normalized text /\ _clean_text text = text.
Proof.
  intros H Ho.
  assert (Ht : strip text = text /\ has_double_space text = false).
  { destruct (extract_transcription_shape data text H) as [parts ->].
    split; [|apply squeeze_no_double_space].
    destruct parts as [|p ps]; [reflexivity|].
    rewrite strip_squeeze, strip_idempotent. reflexivity. }
  destruct Ht as [Hs Hd].
  pose proof (tidy_normalized text Hs Hd Ho) as Hn.
  split; [exact Hn | exact (normalized_clean text Hn)].
Qed.

Lemma extracted_text_is_normalized_witness :
  _clean_text (py "hello big world") = py "hello big world".
Proof.
  destruct (extracted_text_is_normalized
              (message None [py " hello  big "; py "world"])
              (py "hello big world") eq_refl eq_refl) as [_ H].
  exact H.
Defined.

Section GrowingTranscript.

Lemma handle_update (s : Session) (data : json) (text : str) :
  transcription_callback (client s) = Some InsertTextMethod ->
  update_with_text data text ->
  _handle_message s data
  = Ok (set_text_inserter s (insert_text (text_inserter s) text))
  /\ normalized text.
Proof.
  intros Hcb (Hty & Hex & Hne & Ho).
  destruct (extract_transcription_shape data text Hex) as [parts Hp].
  assert (Hs : strip text = text).
  { rewrite Hp. destruct parts as [|p ps]; [reflexivity|].
    rewrite strip_squeeze, strip_idempotent. reflexivity. }
  assert (Hd : has_double_space text = false)
    by (rewrite Hp; apply squeeze_no_double_space).
  split; [|exact (tidy_normalized text Hs Hd Ho)].
  destruct data as [| | | | |fields]; try discriminate Hex.
  unfold _handle_message. simpl in Hty. rewrite Hty, Hcb, Hex. simpl Py.bind.
  rewrite Hs. destruct text; [contradiction | reflexivity].
Qed.

Lemma receive_updates (datas : list json) (ts : list str) (s : Session) :
  transcription_callback (client s) = Some InsertTextMethod ->
  Forall2 update_with_text datas ts ->
  receive_loop s (List.map WellFormed datas) PeerClosed
  = (set_text_inserter s (apply_all (text_inserter s) ts), None)
  /\ Forall normalized ts.
Proof.
  intros Hcb H. revert s Hcb. induction H as [|data t datas ts Hd Hrest IH];
    intros s Hcb.
  - simpl. destruct s; split; [reflexivity | constructor].
  - destruct (handle_update s data t Hcb Hd) as [Hh Hn].
    simpl. rewrite Hh.
    destruct (IH (set_text_inserter s (insert_text (text_inserter s) t)) Hcb)
      as [E Hall].
    rewrite E. split; [reflexivity | constructor; assumption].
Qed.

End GrowingTranscript.

(** X26: in a session just begun whose callback is the inserter's
    [insert_text], a stream of update messages whose extracted texts have
    no whitespace but spaces and each begin with the one before is handled
    without error, and the key strokes typed for it are exactly the last
    text: nothing is typed twice. *)
Theorem growing_transcript_is_typed_once
        (s : Session) (ws : Socket) (datas : list json) (ts : list str) :
  websocket (client s) = Some ws ->
  transcription_callback (client s) = Some InsertTextMethod ->
  last_typed_text (text_inserter s) = [] ->
  Forall2 update_with_text datas ts ->
  prefix_chain [] ts ->
  let done := listen_for_messages s (List.map WellFormed datas) PeerClosed in
  snd done = None
  /\ client (fst done) = client s
  /\ controller (text_inserter (fst done))
     = controller (text_inserter s) ++ last ts []
  /\ last_typed_text (text_inserter (fst done)) = last ts [].
Proof.
  intros Hws Hcb Hl Hall Hc. cbv zeta.
  destruct (receive_updates datas ts s Hcb Hall) as [E Hn].
  unfold listen_for_messages. rewrite Hws, E. simpl.
  destruct (emissions_prefix_chain ts (text_inserter s)) as (E1 & E2 & E3).
  - rewrite Hl. reflexivity.
  - exact Hn.
  - rewrite Hl. exact Hc.
  - rewrite Hl in E1, E2. pose proof (suffixes_concat ts [] Hc) as Hs.
    simpl in Hs. rewrite E3, E1, Hs, E2. auto.
Qed.

Lemma growing_transcript_is_typed_once_witness :
  controller
    (text_inserter
       (fst (listen_for_messages live_session
               (List.map WellFormed
                  [message None [py "hello"];
                   message None [py "hello"; py "wor"];
                   message None [py "hello"; py "world"]])
               PeerClosed)))
  = py "hello world".
Proof.
  destruct (growing_transcript_is_typed_once
              live_session (mkSocket [] true)
              [message None [py "hello"];
               message None [py "hello"; py "wor"];
               message None [py "hello"; py "world"]]
              [py "hello"; py "hello wor"; py "hello world"]
              eq_refl eq_refl eq_refl) as (_ & _ & H & _).
  - repeat constructor; discriminate.
  - simpl. auto.
  - exact H.
Defined.
